(** * A shallow embedding of the contracts-table scraper (src/main.py)

    The scraper walks a paginated, client-rendered table, opens every row's
    detail view in a fresh tab, pulls two fields out of it and accumulates the
    complete records.  This development embeds the Python functions of
    [src/main.py] as Rocq functions and proves (or refutes) the properties
    stated for them.

    Modelling conventions.
    - A Python [str] is a [string]; a character is a code point below 256
      (Latin-1).  On that range [str.isspace], the regular-expression classes
      and [str.lower] are written out below.
    - The browser (Playwright) is an external collaborator.  Every call made to
      it is an operation [op X]; a driver answers an operation from its own
      state and may raise.  The engine is written in a state-and-exception
      monad over the driver state, the two mutable Python objects of a run
      ([visited] and [stash]) and a trace of what happened.
    - [async]/[await] is sequential here: one coroutine, every [await] runs the
      awaited call to completion. *)

From Stdlib Require Import Ascii String ZArith Lia.
From stdpp Require Import base gmap sets list strings.
From Equations Require Import Equations.

Local Open Scope Z_scope.

(** ** Characters and strings *)

Module Text.

(** [str.isspace] and the class [\s] of [re] on code points below 256. *)
Definition isspace (c : ascii) : bool :=
  let n := N_of_ascii c in
  ((9 <=? n) && (n <=? 13) || (28 <=? n) && (n <=? 32)
   || (n =? 133) || (n =? 160))%N.

(** The class [\d] of [re]: the decimal digits (category Nd); below 256 these
    are ['0'] to ['9']. *)
Definition isdigit (c : ascii) : bool :=
  let n := N_of_ascii c in ((48 <=? n) && (n <=? 57))%N.

(** [str.lower] on one character (Latin-1). *)
Definition lower_char (c : ascii) : ascii :=
  let n := N_of_ascii c in
  if ((65 <=? n) && (n <=? 90)
      || (192 <=? n) && (n <=? 222) && negb (n =? 215))%N
  then ascii_of_N (n + 32) else c.

Fixpoint lower (s : string) : string :=
  match s with
  | EmptyString => EmptyString
  | String c s' => String (lower_char c) (lower s')
  end.

(** [sub in s]: does [sub] occur in [s] as a contiguous substring? *)
Fixpoint contains (sub s : string) : bool :=
  String.prefix sub s
  || match s with
     | EmptyString => false
     | String _ s' => contains sub s'
     end.

(** [s.startswith(p)] *)
Definition startswith (s p : string) : bool := String.prefix p s.

(** [s.split(sep)[0]] for a one-character separator: the part of [s] before
    the first [sep] (all of [s] when [sep] does not occur). *)
Fixpoint split_head (sep : ascii) (s : string) : string :=
  match s with
  | EmptyString => EmptyString
  | String c s' =>
      if Ascii.eqb c sep then EmptyString else String c (split_head sep s')
  end.

(** [s.split()]: the maximal runs of non-whitespace characters of [s], in
    order.  [w] is the word being read, reversed. *)
Fixpoint split_go (w : list ascii) (s : list ascii) : list (list ascii) :=
  match s with
  | [] => match w with [] => [] | _ => [rev w] end
  | c :: s' =>
      if isspace c
      then match w with
           | [] => split_go [] s'
           | _ => rev w :: split_go [] s'
           end
      else split_go (c :: w) s'
  end.

Definition split (s : list ascii) : list (list ascii) := split_go [] s.

(** [sep.join(ws)] *)
Fixpoint join (sep : list ascii) (ws : list (list ascii)) : list ascii :=
  match ws with
  | [] => []
  | [w] => w
  | w :: ws' => w ++ sep ++ join sep ws'
  end.

Definition space : ascii := " "%char.

(** [" ".join(text.split())] *)
Definition normalise (s : list ascii) : list ascii := join [space] (split s).

(** Every maximal run of whitespace replaced by one space; [in_run] tells that
    the previous character was whitespace. *)
Fixpoint collapse_go (in_run : bool) (s : list ascii) : list ascii :=
  match s with
  | [] => []
  | c :: s' =>
      if isspace c
      then if in_run then collapse_go true s' else space :: collapse_go true s'
      else c :: collapse_go false s'
  end.

Definition collapse (s : list ascii) : list ascii := collapse_go false s.

Definition collapse_ws (t : string) : string :=
  string_of_list_ascii (collapse (list_ascii_of_string t)).

(** Truth value of a [str]: the empty string is false. *)
Definition nonempty (s : string) : bool :=
  match s with
  | EmptyString => false
  | String _ _ => true
  end.

(** Truth value of an [Optional[str]]: [None] and the empty string are
    false. *)
Definition truthy (o : option string) : bool :=
  match o with
  | Some EmptyString => false
  | Some _ => true
  | None => false
  end.

End Text.

(** ** Regular expressions

    The fragment of [re] the two patterns of [_extract] use: literals (compared
    ignoring case under [re.I]), concatenation, greedy repetition [{min,}] of
    a character class, and one capturing group.  The matcher is a
    backtracking one, as [re] is: a repetition first takes as many characters
    as it can and gives them back one at a time while the rest of the pattern
    fails. *)

Module Re.

Inductive regex : Type :=
| Eps
| Lit (c : ascii)
| Cat (r1 r2 : regex)
| Many (min : nat) (p : ascii -> bool)
| Group (r : regex).

(** A match object: the text of group 1, if the group took part. *)
Definition match_object : Type := option (list ascii).

(** Two characters are equal ignoring case. *)
Definition ci_eq (a b : ascii) : bool :=
  Ascii.eqb (Text.lower_char a) (Text.lower_char b).

Section Matcher.
Context {R : Type}.

(** Greedy [p{min,}] against [s], then the continuation [k] on the rest. *)
Fixpoint many (p : ascii -> bool) (min : nat) (s : list ascii)
    (k : list ascii -> option R) : option R :=
  let stop := match min with O => k s | S _ => None end in
  match s with
  | c :: s' =>
      if p c
      then match many p (Nat.pred min) s' k with
           | Some r => Some r
           | None => stop
           end
      else stop
  | [] => stop
  end.

(** [run ic r s g k]: match [r] at the start of [s] with group 1 currently
    [g], then continue with [k] on the rest of the input and the group.
    [ic] is the flag [re.I]. *)
Fixpoint run (ic : bool) (r : regex) (s : list ascii) (g : match_object)
    (k : list ascii -> match_object -> option R) : option R :=
  match r with
  | Eps => k s g
  | Lit c =>
      match s with
      | x :: s' =>
          if (if ic then ci_eq c x else Ascii.eqb c x) then k s' g else None
      | [] => None
      end
  | Cat r1 r2 => run ic r1 s g (fun s1 g1 => run ic r2 s1 g1 k)
  | Many min p => many p min s (fun s' => k s' g)
  | Group r1 =>
      run ic r1 s g
        (fun s' _ => k s' (Some (take (length s - length s') s)))
  end.
End Matcher.

(** [re.match]: a match anchored at the start of [s]. *)
Definition match_at (ic : bool) (r : regex) (s : list ascii)
  : option match_object :=
  run ic r s None (fun _ g => Some g).

(** [re.search]: the match at the leftmost position that has one. *)
Fixpoint search (ic : bool) (r : regex) (s : list ascii)
  : option match_object :=
  match match_at ic r s with
  | Some m => Some m
  | None =>
      match s with
      | [] => None
      | _ :: s' => search ic r s'
      end
  end.

(** The literal text [w], character by character. *)
Fixpoint lits (w : list ascii) : regex :=
  match w with
  | [] => Eps
  | c :: w' => Cat (Lit c) (lits w')
  end.

Definition word (w : string) : regex := lits (list_ascii_of_string w).

End Re.

(** ** The field extractor *)

Record ContractData : Type := mkContractData {
  contract : option string;
  amount : option string
}.

(** The class [[0-9./-]]. *)
Definition contract_char (c : ascii) : bool :=
  let n := N_of_ascii c in
  ((48 <=? n) && (n <=? 57) || (n =? 46) || (n =? 47) || (n =? 45))%N.

(** The class [[\d.\,]]. *)
Definition amount_char (c : ascii) : bool :=
  let n := N_of_ascii c in
  (Text.isdigit c || (n =? 46) || (n =? 44))%N.

(** [Contrato\s+([0-9./-]{3,})] *)
Definition contract_re : Re.regex :=
  Re.Cat (Re.word "Contrato")
    (Re.Cat (Re.Many 1 Text.isspace) (Re.Group (Re.Many 3 contract_char))).

(** [Valor\s*total\s*R\$\s*([\d.\,]+)] *)
Definition amount_re : Re.regex :=
  Re.Cat (Re.word "Valor")
    (Re.Cat (Re.Many 0 Text.isspace)
       (Re.Cat (Re.word "total")
          (Re.Cat (Re.Many 0 Text.isspace)
             (Re.Cat (Re.word "R$")
                (Re.Cat (Re.Many 0 Text.isspace)
                   (Re.Group (Re.Many 1 amount_char))))))).

(** [m.group(1) if m else None] *)
Definition group1 (m : option Re.match_object) : option string :=
  match m with
  | Some g => string_of_list_ascii <$> g
  | None => None
  end.

Definition _extract (text : string) : ContractData :=
  let t := Text.normalise (list_ascii_of_string text) in
  let m1 := Re.search true contract_re t in
  let m2 := Re.search true amount_re t in
  {| contract := group1 m1; amount := group1 m2 |}.


(** ** The browser driver

    A [handle] names a page or a frame.  A [locator] is what
    [page.locator(sel)] and [.first] build. *)

Definition handle : Type := nat.

Inductive locator : Type :=
| Loc (sel : string)
| First (l : locator).

(** What the browser knows of one element matched by a locator: the value of
    [a.getAttribute('href')] ([None] when the attribute is missing) and the
    value of the script expression
    [(tr?.innerText || a.innerText || '').replace(/\s+/g,' ').trim()]. *)
Record element : Type := mkElement {
  el_href : option string;
  el_text : string
}.

(** The calls the engine makes to the driver, indexed by what they return. *)
Inductive op : Type -> Type :=
| Count (h : handle) (l : locator) : op nat
| EvaluateAll (h : handle) (l : locator) : op (list element)
| InnerText (h : handle) (l : locator) (timeout : Z) : op string
| GetAttribute (h : handle) (l : locator) (name : string) : op (option string)
| ScrollIntoViewIfNeeded (h : handle) (l : locator) : op unit
| Click (h : handle) (l : locator) : op unit
| EvaluateClick (h : handle) (l : locator) : op unit
| MouseWheel (h : handle) (dx dy : Z) : op unit
| WaitForTimeout (h : handle) (ms : Z) : op unit
| WaitForSelector (h : handle) (sel : string) (timeout : Z) : op unit
| Evaluate (h : handle) (js : string) : op unit
| Content (h : handle) : op string
| Url (h : handle) : op string
| Frames (h : handle) : op (list handle)
| MainFrame (h : handle) : op handle
| Launch : op unit
| NewContext : op unit
| NewPage : op handle
| SetDefaultTimeout (h : handle) (ms : Z) : op unit
| Goto (h : handle) (url : string) : op unit
| Close (h : handle) : op unit
| CloseContext : op unit
| CloseBrowser : op unit
| WriteLines (path : string) (items : list ContractData) : op unit.

(** Exceptions: Playwright's [TimeoutError] and any other [Exception]. *)
Inductive exn : Type := PWTimeout | Error.

Inductive res (A : Type) : Type :=
| Ok (a : A)
| Raise (e : exn).
Arguments Ok {A} a.
Arguments Raise {A} e.

(** Log records, one constructor per message of the source. *)
Inductive level : Type := INFO | WARNING.

Inductive message : Type :=
| MsgStarting (url : string)
| MsgNavigating
| MsgLoaded
| MsgProcessingPage (page_idx : Z)
| MsgNoMorePages
| MsgWriting (n : nat) (out : string)
| MsgFoundRows (n : nat)
| MsgClickingRow (idx : Z) (row_text : string)
| MsgExtracted (d : ContractData)
| MsgFailedToExtract (href : string)
| MsgNextNotFound
| MsgNextDisabled
| MsgClickedNext.

(** What a run leaves behind, oldest first: the driver calls with their
    answers, the log records, and the calls of the detail fetcher
    [open_details_and_extract] with their outcomes. *)
Inductive event : Type :=
| Called {X : Type} (o : op X) (r : res X)
| Logged (lv : level) (m : message)
| FetchCall (href : string)
| FetchReturn (href : string) (r : res ContractData).

(** A driver: its state and how it answers a call. *)
Record driver : Type := mkDriver {
  world : Type;
  answer : forall X : Type, op X -> world -> res X * world
}.
Arguments answer d {X} o w.

(** ** The engine monad *)

Section Engine.

Context (D : driver).

(** [BeautifulSoup(html, "html.parser").get_text(" ")] *)
Context (get_text : string -> string).

(** The state of a run: the driver, the two mutable objects [scrape] creates
    and shares with [process_current_table], and the trace. *)
Record state : Type := mkState {
  st_world : world D;
  visited : gset string;
  stash : list ContractData;
  trace : list event
}.

Definition M (A : Type) : Type := state -> res A * state.

Definition ret {A : Type} (a : A) : M A := fun s => (Ok a, s).

Definition raise {A : Type} (e : exn) : M A := fun s => (Raise e, s).

Definition bind {A B : Type} (m : M A) (f : A -> M B) : M B :=
  fun s =>
    match m s with
    | (Ok a, s') => f a s'
    | (Raise e, s') => (Raise e, s')
    end.

Notation "x <- m ; k" := (bind m (fun x => k))
  (at level 100, m at next level, right associativity).
Notation "m ;; k" := (bind m (fun _ => k))
  (at level 100, right associativity).

Definition emit (ev : event) : M unit :=
  fun s =>
    (Ok tt, {| st_world := st_world s; visited := visited s;
               stash := stash s; trace := trace s ++ [ev] |}).

(** [await] of a driver call. *)
Definition call {X : Type} (o : op X) : M X :=
  fun s =>
    let (r, w) := answer D o (st_world s) in
    (r, {| st_world := w; visited := visited s; stash := stash s;
           trace := trace s ++ [Called o r] |}).

Definition log (lv : level) (m : message) : M unit := emit (Logged lv m).

(** [try: m / except <handles>: handler] *)
Definition try_except {A : Type} (m : M A) (handles : exn -> bool)
    (handler : M A) : M A :=
  fun s =>
    match m s with
    | (Ok a, s') => (Ok a, s')
    | (Raise e, s') => if handles e then handler s' else (Raise e, s')
    end.

(** [try: m / finally: fin]: [fin] runs on every exit of [m]; an exception of
    [fin] replaces the outcome of [m]. *)
Definition try_finally {A : Type} (m : M A) (fin : M unit) : M A :=
  fun s =>
    match m s with
    | (r, s') =>
        match fin s' with
        | (Ok _, s'') => (r, s'')
        | (Raise e, s'') => (Raise e, s'')
        end
    end.

(** [except PWTimeout] and [except Exception] *)
Definition only_timeout (e : exn) : bool :=
  match e with PWTimeout => true | Error => false end.
Definition any_exception (e : exn) : bool := true.

(** [visited.add(href)] and [stash.append(details)] *)
Definition visited_add (href : string) : M unit :=
  fun s =>
    (Ok tt, {| st_world := st_world s; visited := {[href]} ∪ visited s;
               stash := stash s; trace := trace s |}).

Definition stash_append (d : ContractData) : M unit :=
  fun s =>
    (Ok tt, {| st_world := st_world s; visited := visited s;
               stash := stash s ++ [d]; trace := trace s |}).

Definition get_visited : M (gset string) := fun s => (Ok (visited s), s).
Definition get_stash : M (list ContractData) := fun s => (Ok (stash s), s).

(** ** Constants of the source *)

Definition START_URL : string :=
  "https://transparencia.e-publica.net/epublica-portal/#/palmeira/portal/compras/contratoTable".
Definition DETAIL_URL_PART : string := "/portal/compras/contratoView".
Definition TABLE_URL_PART : string := "/portal/compras/contratoTable".

Definition ROW_DETAIL_LINK : string :=
  "table tbody tr:has(a[href*='#/palmeira/portal/compras/contratoView']) "
  +:+ "a[href*='#/palmeira/portal/compras/contratoView']".
Definition ANY_DETAIL_LINK : string :=
  "a[href*='#/palmeira/portal/compras/contratoView']".
Definition VISIBLE_ROW_LINK : string :=
  ROW_DETAIL_LINK +:+ ":visible, " +:+ ANY_DETAIL_LINK +:+ ":visible".

Definition DATA_MARKER : locator := First (Loc "text=Dados do contrato").
Definition NEXT_BUTTON : locator := First (Loc ".pagination a.pagination-next").

(** ** The engine *)

Definition extract_from_context (ctx : handle) : M ContractData :=
  quick <-
    try_except
      (ct <- call (InnerText ctx
                     (First (Loc "text=/Contrato\s+[0-9./-]{3,}/")) 2500);
       vt <- call (InnerText ctx
                     (First (Loc "text=/Valor\s*total\s*R\$/")) 2500);
       let d := _extract (ct +:+ " " +:+ vt) in
       if Text.truthy (contract d) && Text.truthy (amount d)
       then ret (Some d) else ret None)
      only_timeout
      (ret None);
  match quick with
  | Some d => ret d
  | None =>
      html <- call (Content ctx);
      ret (_extract (get_text html))
  end.

(** The loop of [pick_ctx] over [page.frames]. *)
Fixpoint pick_frame (page : handle) (frames : list handle) : M handle :=
  match frames with
  | [] => ret page
  | fr :: rest =>
      main <- call (MainFrame page);
      if Nat.eqb fr main then pick_frame page rest
      else
        found <-
          try_except
            (n <- call (Count fr DATA_MARKER); ret (negb (Nat.eqb n 0)))
            any_exception
            (ret false);
        if found then ret fr else pick_frame page rest
  end.

Definition pick_ctx (page : handle) : M handle :=
  n <- call (Count page DATA_MARKER);
  if negb (Nat.eqb n 0) then ret page
  else
    frames <- call (Frames page);
    pick_frame page frames.

(** The loop of [wait_table_ready], entered with [waited] milliseconds spent:
    [Some tt] is the [return] from inside the loop, [None] the exit through the
    loop condition. *)
Equations? wait_rows (page : handle) (timeout_ms waited : Z)
  : M (option unit) by wf (Z.to_nat (timeout_ms - waited)) lt :=
  wait_rows page timeout_ms waited with decide (waited < timeout_ms) => {
    | left _ =>
        let step := 200 in
        n <- call (Count page (Loc VISIBLE_ROW_LINK));
        if (0 <? n)%nat then ret (Some tt)
        else
          try_except (call (MouseWheel page 0 600)) any_exception (ret tt);;
          call (WaitForTimeout page step);;
          wait_rows page timeout_ms (waited + step)
    | right _ => ret None }.
Proof. lia. Qed.

Definition wait_table_ready (page : handle) (timeout_ms : Z) : M unit :=
  found <- wait_rows page timeout_ms 0;
  match found with
  | Some _ => ret tt
  | None => call (WaitForSelector page "table tbody" 4000)
  end.

(** The script [els => els.map(a => a.getAttribute('href')).filter(Boolean)]:
    a missing attribute and an empty one are dropped. *)
Definition js_hrefs (els : list element) : list string :=
  omap (fun el =>
          match el_href el with
          | Some EmptyString => None
          | Some h => Some h
          | None => None
          end) els.

(** What [page_signature] makes of the elements it read. *)
Definition signature_of (els : list element) : string :=
  let hrefs := js_hrefs els in
  let hrefs := List.filter (Text.contains DETAIL_URL_PART) hrefs in
  String.concat "|" hrefs.

Definition page_signature (page : handle) : M string :=
  els <- call (EvaluateAll page (Loc VISIBLE_ROW_LINK));
  ret (signature_of els).

(** [if sig and sig != prev_sig] *)
Definition sig_changed (prev_sig sig : string) : bool :=
  Text.nonempty sig && negb (String.eqb sig prev_sig).

(** The polling loop of [click_next], entered with [waited] milliseconds
    spent; the result is the flag [changed]. *)
Equations? poll_signature (page : handle) (prev_sig : string) (waited : Z)
  : M bool by wf (Z.to_nat (10000 - waited)) lt :=
  poll_signature page prev_sig waited with decide (waited < 10000) => {
    | left _ =>
        let step := 200 in
        sig <- page_signature page;
        if sig_changed prev_sig sig then ret true
        else
          call (WaitForTimeout page step);;
          poll_signature page prev_sig (waited + step)
    | right _ => ret false }.
Proof. lia. Qed.

(** [x or ""] for an [Optional[str]] *)
Definition or_empty (o : option string) : string := default "" o.

(** ["disabled" in cls or aria in ("true", "disabled")] *)
Definition next_disabled (cls aria : string) : bool :=
  Text.contains "disabled" cls
  || String.eqb aria "true" || String.eqb aria "disabled".

Definition click_next (page : handle) : M bool :=
  prev_sig <- page_signature page;
  try_except
    (call (Evaluate page "window.scrollTo(0, document.body.scrollHeight)");;
     call (WaitForTimeout page 100))
    any_exception
    (ret tt);;
  let btn := NEXT_BUTTON in
  n <- call (Count page btn);
  if Nat.eqb n 0 then log INFO MsgNextNotFound;; ret false
  else
    c <- call (GetAttribute page btn "class");
    let cls := Text.lower (or_empty c) in
    a <- call (GetAttribute page btn "aria-disabled");
    let aria := Text.lower (or_empty a) in
    if next_disabled cls aria then log INFO MsgNextDisabled;; ret false
    else
      try_except
        (call (ScrollIntoViewIfNeeded page btn);; call (Click page btn))
        any_exception
        (call (EvaluateClick page btn));;
      log INFO MsgClickedNext;;
      changed <- poll_signature page prev_sig 0;
      if negb changed then ret false
      else
        call (Evaluate page "window.scrollTo(0, 0)");;
        wait_table_ready page 10000;;
        ret true.

(** The script of [collect_rows]: [{ href: a.getAttribute('href') || '', text }]
    for every element. *)
Definition js_items (els : list element) : list (string * string) :=
  (fun el => (or_empty (el_href el), el_text el)) <$> els.

(** The [for it in items] loop of [collect_rows], with its two accumulators. *)
Fixpoint filter_rows (items : list (string * string)) (visited : gset string)
    (seen : gset string) (out : list (string * string))
  : list (string * string) :=
  match items with
  | [] => out
  | (href, text) :: rest =>
      if negb (Text.nonempty href)
         || negb (Text.contains DETAIL_URL_PART href)
      then filter_rows rest visited seen out
      else if bool_decide (href ∈ visited) || bool_decide (href ∈ seen)
      then filter_rows rest visited seen out
      else filter_rows rest visited ({[href]} ∪ seen) (out ++ [(href, text)])
  end.

Definition collect_rows (page : handle) (visited : gset string)
  : M (list (string * string)) :=
  els <- call (EvaluateAll page (Loc VISIBLE_ROW_LINK));
  let items := js_items els in
  ret (filter_rows items visited ∅ []).

Definition make_abs_url (current_url href : string) : string :=
  let base := Text.split_head "#" current_url in
  if Text.startswith href "#" then base +:+ href else href.

(** The body of [open_details_and_extract]. *)
Definition open_details (page : handle) (href : string) : M ContractData :=
  current_url <- call (Url page);
  let url := make_abs_url current_url href in
  dp <- call NewPage;
  try_finally
    (call (Goto dp url);;
     try_except
       (call (WaitForSelector dp "text=Dados do contrato" 3000))
       only_timeout
       (try_except
          (call (WaitForSelector dp "text=/Contrato\s+[0-9./-]{3,}/" 3000))
          only_timeout
          (ret tt));;
     ctx <- pick_ctx dp;
     extract_from_context ctx)
    (call (Close dp)).

(** [open_details_and_extract], with its call and its outcome recorded in the
    trace. *)
Definition open_details_and_extract (page : handle) (href : string)
  : M ContractData :=
  emit (FetchCall href);;
  fun s =>
    match open_details page href s with
    | (r, s') =>
        match emit (FetchReturn href r) s' with
        | (_, s'') => (r, s'')
        end
    end.

(** The body of the [for] loop of [process_current_table]. *)
Definition process_row (page : handle) (idx : Z) (row : string * string)
  : M unit :=
  let (href, row_text) := row in
  log INFO (MsgClickingRow idx row_text);;
  try_finally
    (details <- open_details_and_extract page href;
     if Text.truthy (contract details) && Text.truthy (amount details)
     then log INFO (MsgExtracted details);; stash_append details
     else log WARNING (MsgFailedToExtract href))
    (visited_add href).

(** [for idx, (href, row_text) in enumerate(rows, idx): ...] *)
Fixpoint process_rows (page : handle) (idx : Z) (rows : list (string * string))
  : M unit :=
  match rows with
  | [] => ret tt
  | row :: rest =>
      process_row page idx row;;
      process_rows page (idx + 1) rest
  end.

Definition process_current_table (page : handle) : M unit :=
  wait_table_ready page 10000;;
  v <- get_visited;
  rows <- collect_rows page v;
  match rows with
  | [] => ret tt
  | _ =>
      log INFO (MsgFoundRows (length rows));;
      process_rows page 1 rows
  end.

(** How far a run got: [scrape] loops [while True], so the model runs it for
    at most [fuel] table pages. *)
Inductive progress : Type := Finished | Running.

(** The [while True] loop of [scrape]. *)
Fixpoint crawl (fuel : nat) (page : handle) (page_idx : Z) : M progress :=
  match fuel with
  | O => ret Running
  | S fuel' =>
      log INFO (MsgProcessingPage page_idx);;
      process_current_table page;;
      more <- click_next page;
      if negb more then log INFO MsgNoMorePages;; ret Finished
      else crawl fuel' page (page_idx + 1)
  end.

Definition scrape (fuel : nat) : M progress :=
  let out := "contracts.jsonl" in
  log INFO (MsgStarting START_URL);;
  call Launch;;
  call NewContext;;
  page <- call NewPage;
  call (SetDefaultTimeout page 30000);;
  log INFO MsgNavigating;;
  call (Goto page START_URL);;
  log INFO MsgLoaded;;
  p <- crawl fuel page 1;
  match p with
  | Running => ret Running
  | Finished =>
      items <- get_stash;
      log INFO (MsgWriting (length items) out);;
      call (WriteLines out items);;
      call CloseContext;;
      call CloseBrowser;;
      ret Finished
  end.

(** A run starts with nothing visited, nothing stashed and an empty trace. *)
Definition initial (w : world D) : state :=
  {| st_world := w; visited := ∅; stash := []; trace := [] |}.

End Engine.

Arguments visited {D} s.
Arguments stash {D} s.
Arguments trace {D} s.
Arguments st_world {D} s.

(** ** A scripted portal

    A small stand-in for the browser, used to run the engine on concrete
    tables: the table has a fixed list of pages, a click on the next control
    shows the following page (and does nothing on the last one), every detail
    view is a plain text, and the quick text reads of the extractor always time
    out. *)

Module Portal.

Record site : Type := mkSite {
  pages : list (list element);
  shown : nat;
  has_table : bool;
  has_next : bool;
  next_class : option string;
  next_aria : option string;
  details : list (string * string);
  broken : list string;
  tab_url : string
}.

Global Instance locator_eq_dec : EqDecision locator.
Proof. solve_decision. Defined.

Definition rows (w : site) : list element := default [] (pages w !! shown w).

Definition turn (w : site) : site :=
  if (S (shown w) <? length (pages w))%nat
  then {| pages := pages w; shown := S (shown w); has_table := has_table w;
          has_next := has_next w; next_class := next_class w;
          next_aria := next_aria w; details := details w;
          broken := broken w; tab_url := tab_url w |}
  else w.

Definition load (url : string) (w : site) : site :=
  {| pages := pages w; shown := shown w; has_table := has_table w;
     has_next := has_next w; next_class := next_class w;
     next_aria := next_aria w; details := details w;
     broken := broken w; tab_url := url |}.

Fixpoint lookup_text (url : string) (l : list (string * string)) : string :=
  match l with
  | [] => ""
  | (u, t) :: l' => if String.eqb u url then t else lookup_text url l'
  end.

Definition respond (X : Type) (o : op X) (w : site) : res X * site :=
  match o in op T return res T * site with
  | Count _ l =>
      if bool_decide (l = Loc VISIBLE_ROW_LINK) then (Ok (length (rows w)), w)
      else if bool_decide (l = NEXT_BUTTON)
      then (Ok (if has_next w then 1%nat else 0%nat), w)
      else (Ok 0%nat, w)
  | EvaluateAll _ _ => (Ok (rows w), w)
  | InnerText _ _ _ => (Raise PWTimeout, w)
  | GetAttribute _ _ name =>
      if String.eqb name "class" then (Ok (next_class w), w)
      else if String.eqb name "aria-disabled" then (Ok (next_aria w), w)
      else (Ok None, w)
  | ScrollIntoViewIfNeeded _ _ => (Ok tt, w)
  | Click _ _ => (Ok tt, turn w)
  | EvaluateClick _ _ => (Ok tt, turn w)
  | MouseWheel _ _ _ => (Ok tt, w)
  | WaitForTimeout _ _ => (Ok tt, w)
  | WaitForSelector _ sel _ =>
      if String.eqb sel "table tbody" && negb (has_table w)
      then (Raise PWTimeout, w) else (Ok tt, w)
  | Evaluate _ _ => (Ok tt, w)
  | Content _ => (Ok (lookup_text (tab_url w) (details w)), w)
  | Url _ => (Ok START_URL, w)
  | Frames _ => (Ok [], w)
  | MainFrame h => (Ok h, w)
  | Launch => (Ok tt, w)
  | NewContext => (Ok tt, w)
  | NewPage => (Ok 1%nat, w)
  | SetDefaultTimeout _ _ => (Ok tt, w)
  | Goto _ url =>
      if bool_decide (url ∈ broken w) then (Raise Error, w)
      else (Ok tt, load url w)
  | Close _ => (Ok tt, w)
  | CloseContext => (Ok tt, w)
  | CloseBrowser => (Ok tt, w)
  | WriteLines _ _ => (Ok tt, w)
  end.

Definition portal : driver := {| world := site; answer := respond |}.

(** On the portal a detail view is already plain text. *)
Definition plain (html : string) : string := html.

(** A crude markup stripper: every tag becomes one space. *)
Fixpoint strip_tags (in_tag : bool) (html : string) : string :=
  match html with
  | EmptyString => EmptyString
  | String c rest =>
      if Ascii.eqb c "<" then String " " (strip_tags true rest)
      else if Ascii.eqb c ">" then strip_tags false rest
      else if in_tag then strip_tags in_tag rest
      else String c (strip_tags in_tag rest)
  end.

Definition base : string :=
  "https://transparencia.e-publica.net/epublica-portal/".
Definition href (n : string) : string :=
  "#/palmeira/portal/compras/contratoView/" +:+ n.
Definition link (n : string) : element :=
  {| el_href := Some (href n); el_text := "Contrato " +:+ n |}.

(** Two pages: three rows, one of them without an amount, then one row. *)
Definition two_pages : site :=
  {| pages := [[link "1"; link "2"; link "3"]; [link "4"]];
     shown := 0; has_table := true; has_next := true;
     next_class := Some "pagination-next"; next_aria := None;
     details :=
       [(base +:+ href "1", "Dados do contrato Contrato 001/2024 Valor total R$ 10.000,00");
        (base +:+ href "2", "Dados do contrato Contrato 002/2024 sem valor");
        (base +:+ href "3", "Dados do contrato Contrato 003/2024 Valor total R$ 3,50");
        (base +:+ href "4", "Dados do contrato Contrato 004/2024 Valor total R$ 1.234,56")];
     broken := []; tab_url := "" |}.

(** The same table when the detail view of the second row cannot be loaded. *)
Definition second_row_broken : site :=
  {| pages := pages two_pages; shown := 0; has_table := true;
     has_next := true; next_class := next_class two_pages;
     next_aria := None; details := details two_pages;
     broken := [base +:+ href "2"]; tab_url := "" |}.

(** A view with no rows and no table at all. *)
Definition empty_view : site :=
  {| pages := []; shown := 0; has_table := false; has_next := false;
     next_class := None; next_aria := None; details := [];
     broken := []; tab_url := "" |}.

(** A one-page table whose next control is marked by [class_] and [aria]. *)
Definition last_page (class_ aria : option string) : site :=
  {| pages := [[link "1"]]; shown := 0; has_table := true; has_next := true;
     next_class := class_; next_aria := aria;
     details := [(base +:+ href "1", "Contrato 001/2024 Valor total R$ 1,00")];
     broken := []; tab_url := "" |}.

(** A detail tab showing the given markup. *)
Definition detail_tab (html : string) : site :=
  {| pages := []; shown := 0; has_table := false; has_next := false;
     next_class := None; next_aria := None;
     details := [("detail", html)]; broken := []; tab_url := "detail" |}.

End Portal.

(** ** The stated behaviour, in the words of the specification

    These definitions follow the prose of the specification, not the code; the
    theorems below compare them with the code. *)

Module Spec.

(** The longest prefix of [s] made of characters in [p], and what follows. *)
Fixpoint span (p : ascii -> bool) (s : list ascii) : list ascii * list ascii :=
  match s with
  | c :: s' =>
      if p c then let (a, b) := span p s' in (c :: a, b) else ([], s)
  | [] => ([], [])
  end.

(** [s] without the word [w] at its start, letters compared ignoring case. *)
Fixpoint strip_word (w s : list ascii) : option (list ascii) :=
  match w, s with
  | [], _ => Some s
  | c :: w', x :: s' => if Re.ci_eq c x then strip_word w' s' else None
  | _ :: _, [] => None
  end.

(** "Contrato", then whitespace, then a token of three or more characters
    drawn from digits, '.', '/' and '-', read at the start of [s]. *)
Definition contract_here (s : list ascii) : option (list ascii) :=
  match strip_word (list_ascii_of_string "Contrato") s with
  | Some s1 =>
      let (ws, s2) := span Text.isspace s1 in
      let (token, _) := span contract_char s2 in
      if (1 <=? length ws)%nat && (3 <=? length token)%nat
      then Some token else None
  | None => None
  end.

(** "Valor total R$" with any whitespace (or none) between its parts and after
    it, then a token of digits, '.' and ',', read at the start of [s]. *)
Definition amount_here (s : list ascii) : option (list ascii) :=
  match strip_word (list_ascii_of_string "Valor") s with
  | Some s1 =>
      match strip_word (list_ascii_of_string "total")
              (span Text.isspace s1).2 with
      | Some s2 =>
          match strip_word (list_ascii_of_string "R$")
                  (span Text.isspace s2).2 with
          | Some s3 =>
              let (token, _) := span amount_char (span Text.isspace s3).2 in
              if (1 <=? length token)%nat then Some token else None
          | None => None
          end
      | None => None
      end
  | None => None
  end.

(** The first match: the token read at the leftmost position of [s] where one
    can be read. *)
Fixpoint first_match (here : list ascii -> option (list ascii))
    (s : list ascii) : option (list ascii) :=
  match here s with
  | Some token => Some token
  | None =>
      match s with
      | [] => None
      | _ :: s' => first_match here s'
      end
  end.

(** Row enumeration: the entries of the batch, in order, whose token is
    non-empty, matches the detail-link pattern, is not in [visited] and has
    not occurred earlier in the batch. *)
Definition is_new_row (visited : gset string)
    (earlier : list (string * string)) (entry : string * string) : bool :=
  Text.nonempty entry.1
  && Text.contains DETAIL_URL_PART entry.1
  && bool_decide (entry.1 ∉ visited)
  && bool_decide (entry.1 ∉ earlier.*1).

Definition enumerateNewRows (batch : list (string * string))
    (visited : gset string) : list (string * string) :=
  omap id
    (imap (fun i entry =>
             if is_new_row visited (take i batch) entry
             then Some entry else None)
       batch).

End Spec.

(** ** Reading the trace *)

(** The tokens passed to the detail fetcher, in call order. *)
Definition fetched (tr : list event) : list string :=
  omap (fun ev => match ev with FetchCall h => Some h | _ => None end) tr.

(** The records the detail fetcher returned, in order. *)
Definition outcomes (tr : list event) : list ContractData :=
  omap (fun ev =>
          match ev with FetchReturn _ (Ok d) => Some d | _ => None end) tr.

(** Both fields of a record are present. *)
Definition complete (d : ContractData) : bool :=
  match contract d, amount d with
  | Some _, Some _ => true
  | _, _ => false
  end.

(** What happened between two states of one run. *)
Definition new_events {D : driver} (s s' : state D) : list event :=
  drop (length (trace s)) (trace s').

(** An attempt to click: [btn.click()] or the scripted click. *)
Definition is_click (ev : event) : bool :=
  match ev with
  | @Called _ o _ =>
      match o with
      | Click _ _ | EvaluateClick _ _ => true
      | _ => false
      end
  | _ => false
  end.


Arguments ret {D A} a _.
Arguments raise {D A} e _.
Arguments bind {D A B} m f _.
Arguments emit {D} ev _.
Arguments call {D X} o _.
Arguments log {D} lv m _.
Arguments try_except {D A} m handles handler _.
Arguments try_finally {D A} m fin _.
Arguments visited_add {D} href _.
Arguments stash_append {D} d _.
Arguments get_visited {D} _.
Arguments get_stash {D} _.
Arguments extract_from_context {D} get_text ctx _.
Arguments pick_frame {D} page frames _.
Arguments pick_ctx {D} page _.
Arguments wait_rows {D} page timeout_ms waited _.
Arguments wait_table_ready {D} page timeout_ms _.
Arguments page_signature {D} page _.
Arguments poll_signature {D} page prev_sig waited _.
Arguments click_next {D} page _.
Arguments collect_rows {D} page visited _.
Arguments open_details {D} get_text page href _.
Arguments open_details_and_extract {D} get_text page href _.
Arguments process_row {D} get_text page idx row _.
Arguments process_rows {D} get_text page idx rows _.
Arguments process_current_table {D} get_text page _.
Arguments crawl {D} get_text fuel page page_idx _.
Arguments scrape {D} get_text fuel _.
Arguments initial {D} w.

(** The start of a run on the scripted portal. *)
Definition on_portal (w : Portal.site) : state Portal.portal :=
  initial (D := Portal.portal) w.

(** The answer recorded for a call of a given kind, with its arguments. *)
Definition count_answer (ev : event) : option (handle * locator * res nat) :=
  match ev with
  | @Called _ o r =>
      match o in op T return res T -> option (handle * locator * res nat) with
      | Count h l => fun r => Some (h, l, r)
      | _ => fun _ => None
      end r
  | _ => None
  end.

Definition elements_answer (ev : event)
  : option (handle * locator * res (list element)) :=
  match ev with
  | @Called _ o r =>
      match o in op T
            return res T -> option (handle * locator * res (list element)) with
      | EvaluateAll h l => fun r => Some (h, l, r)
      | _ => fun _ => None
      end r
  | _ => None
  end.

Definition attribute_answer (ev : event)
  : option (handle * locator * string * res (option string)) :=
  match ev with
  | @Called _ o r =>
      match o in op T
            return res T
                   -> option (handle * locator * string * res (option string))
      with
      | GetAttribute h l name => fun r => Some (h, l, name, r)
      | _ => fun _ => None
      end r
  | _ => None
  end.

Definition selector_answer (ev : event)
  : option (handle * string * Z * res unit) :=
  match ev with
  | @Called _ o r =>
      match o in op T return res T -> option (handle * string * Z * res unit)
      with
      | WaitForSelector h sel t => fun r => Some (h, sel, t, r)
      | _ => fun _ => None
      end r
  | _ => None
  end.

(** The events of waiting for the table: counting the visible links, nudging
    the view, sleeping, waiting for the table container. *)
Definition is_wait_event (ev : event) : bool :=
  match ev with
  | @Called _ o _ =>
      match o with
      | Count _ (Loc _) | MouseWheel _ _ _ | WaitForTimeout _ _
      | WaitForSelector _ _ _ => true
      | _ => false
      end
  | _ => false
  end.

(** The events of watching the table: reading the visible links, counting
    them, nudging the view, sleeping, waiting for the table container. *)
Definition is_watch_event (ev : event) : bool :=
  match ev with
  | @Called _ o _ =>
      match o with
      | Count _ (Loc _) | EvaluateAll _ _ | MouseWheel _ _ _
      | WaitForTimeout _ _ | WaitForSelector _ _ _ | Evaluate _ _ => true
      | _ => false
      end
  | _ => false
  end.

(** The events of the detail fetcher's own driver calls. *)
Definition is_detail_event (ev : event) : bool :=
  match ev with
  | @Called _ o _ =>
      match o with
      | Url _ | NewPage | Goto _ _ | WaitForSelector _ _ _
      | Count _ (First _) | Frames _ | MainFrame _ | InnerText _ _ _
      | Content _ | Close _ => true
      | _ => false
      end
  | _ => false
  end.

(** A driver call or a log record: anything but the detail fetcher's call
    records. *)
Definition is_plain_event (ev : event) : bool :=
  match ev with
  | Called _ _ | Logged _ _ => true
  | FetchCall _ | FetchReturn _ _ => false
  end.

Definition is_evaluate_all (ev : event) : bool :=
  match elements_answer ev with Some _ => true | None => false end.

(** ** Reasoning about runs *)

Section Logic.

Context {D : driver}.

(** [s'] comes after [s] with [visited] and [stash] as they were and a trace
    grown by events of the class [P] only. *)
Definition extends (P : event -> bool) (s s' : state D) : Prop :=
  visited s' = visited s
  /\ stash s' = stash s
  /\ exists evs, trace s' = trace s ++ evs
                 /\ Forall (fun ev => P ev = true) evs.

(** [m] leaves [visited] and [stash] alone and adds to the trace only events
    of the class [P]. *)
Definition quiet {A : Type} (P : event -> bool) (m : M D A) : Prop :=
  forall s, extends P s (m s).2.

(** Every value [m] returns satisfies [P]. *)
Definition returns {A : Type} (m : M D A) (P : A -> Prop) : Prop :=
  forall s a, (m s).1 = Ok a -> P a.

(** From a state in [P], [m] ends in an outcome and a state in [Q]. *)
Definition hoare {A : Type} (P : state D -> Prop) (m : M D A)
    (Q : res A -> state D -> Prop) : Prop :=
  forall s, P s -> Q (m s).1 (m s).2.

(** The dedup invariant: the fetched tokens are pairwise distinct and all in
    [visited]. *)
Definition fetched_once (s : state D) : Prop :=
  NoDup (fetched (trace s))
  /\ forall h, h ∈ fetched (trace s) -> h ∈ visited s.

(** The completeness invariant: the stash is the complete records among the
    outcomes, in order, and every incomplete outcome was logged. *)
Definition stash_complete (s : state D) : Prop :=
  stash s = List.filter complete (outcomes (trace s))
  /\ forall h d,
       FetchReturn h (Ok d) ∈ trace s -> complete d = false ->
       Logged WARNING (MsgFailedToExtract h) ∈ trace s.

(** No fetch has failed so far. *)
Definition no_failed_fetch (tr : list event) : Prop :=
  forall h e, FetchReturn h (Raise e) ∉ tr.

(** A failed fetch ends the run: it is the last event and its exception is
    the outcome. *)
Definition failure_is_final {A : Type} (r : res A) (s : state D) : Prop :=
  forall h e,
    FetchReturn h (Raise e) ∈ trace s ->
    r = Raise e /\ exists tr, trace s = tr ++ [FetchReturn h (Raise e)]
                              /\ no_failed_fetch tr.

End Logic.

(** A record as [_extract] builds it: a field that is present is not empty. *)
Definition well_formed (d : ContractData) : Prop :=
  contract d <> Some EmptyString /\ amount d <> Some EmptyString.


(** ** Reading the polls of a run *)

(** A poll of [wait_table_ready] that found nothing: a count of zero, the
    nudge (whatever it answered), a sleep that returned. *)
Definition is_idle_poll_event (ev : event) : bool :=
  match ev with
  | @Called _ o r =>
      match o in op T return res T -> bool with
      | Count _ (Loc _) =>
          fun r => match r with Ok O => true | _ => false end
      | MouseWheel _ _ _ => fun _ => true
      | WaitForTimeout _ _ =>
          fun r => match r with Ok _ => true | Raise _ => false end
      | _ => fun _ => false
      end r
  | _ => false
  end.

Definition is_count_event (ev : event) : bool :=
  match count_answer ev with Some _ => true | None => false end.

(** A poll of [click_next] that saw no change from [prev_sig]: a read whose
    signature is empty or equal to [prev_sig], a sleep that returned. *)
Definition is_stale_poll_event (prev_sig : string) (ev : event) : bool :=
  match ev with
  | @Called _ o r =>
      match o in op T return res T -> bool with
      | EvaluateAll _ _ =>
          fun r =>
            match r with
            | Ok els => negb (sig_changed prev_sig (signature_of els))
            | Raise _ => false
            end
      | WaitForTimeout _ _ =>
          fun r => match r with Ok _ => true | Raise _ => false end
      | _ => fun _ => false
      end r
  | _ => false
  end.

(** How many events of a class a trace holds. *)
Definition count_events (p : event -> bool) (evs : list event) : nat :=
  length (List.filter p evs).

(** The polls a loop that sleeps 200 ms per round can still make when
    [waited] of its [budget] milliseconds are spent. *)
Definition polls_left (budget waited : Z) : nat :=
  Z.to_nat ((budget - waited + 199) / 200).

(** The signature [click_next] computed first, before touching the page. *)
Definition signature_before (evs : list event) : option string :=
  match evs with
  | ev :: _ =>
      match elements_answer ev with
      | Some (_, _, Ok els) => Some (signature_of els)
      | _ => None
      end
  | [] => None
  end.

(** The events after the record "Clicked Next", if the click happened. *)
Fixpoint after_click (evs : list event) : option (list event) :=
  match evs with
  | [] => None
  | Logged INFO MsgClickedNext :: rest => Some rest
  | _ :: rest => after_click rest
  end.

(** [m] adds to the trace a list of events that, with the outcome,
    satisfies [Q]. *)
Definition runs {D : driver} {A : Type} (m : M D A)
    (Q : res A -> list event -> Prop) : Prop :=
  forall s, exists evs,
    trace (m s).2 = trace s ++ evs /\ Q (m s).1 evs.

(** How [wait_rows] can end, with the events it added. *)
Definition wait_rows_ends (page : handle) (timeout_ms waited : Z)
    (r : res (option unit)) (evs : list event) : Prop :=
  exists polls,
    Forall (fun ev => is_idle_poll_event ev = true) polls
    /\ match r with
       | Ok (Some _) =>
           exists n, evs = polls ++ [Called (Count page (Loc VISIBLE_ROW_LINK))
                                       (Ok n)]
                     /\ (0 < n)%nat
       | Ok None =>
           evs = polls
           /\ count_events is_count_event polls = polls_left timeout_ms waited
       | Raise e =>
           evs = polls ++ [Called (Count page (Loc VISIBLE_ROW_LINK)) (Raise e)]
           \/ evs = polls ++ [Called (WaitForTimeout page 200) (Raise e)]
       end.

(** How [wait_table_ready] can end: a poll found a row; or the budget ran out
    and the wait for the table container decided; or a poll's own call
    failed. *)
Definition wait_table_ready_ends (page : handle) (timeout_ms : Z)
    (r : res unit) (evs : list event) : Prop :=
  exists polls,
    Forall (fun ev => is_idle_poll_event ev = true) polls
    /\ ((exists n,
           evs = polls ++ [Called (Count page (Loc VISIBLE_ROW_LINK)) (Ok n)]
           /\ (0 < n)%nat /\ r = Ok tt)
        \/ (evs = polls ++ [Called (WaitForSelector page "table tbody" 4000) r]
            /\ count_events is_count_event polls = polls_left timeout_ms 0)
        \/ (exists e,
              r = Raise e
              /\ (evs = polls ++ [Called (Count page (Loc VISIBLE_ROW_LINK))
                                    (Raise e)]
                  \/ evs = polls ++ [Called (WaitForTimeout page 200)
                                       (Raise e)]))).

(** How the polling loop of [click_next] can end. *)
Definition poll_signature_ends (page : handle) (prev_sig : string)
    (waited : Z) (r : res bool) (evs : list event) : Prop :=
  exists polls,
    Forall (fun ev => is_stale_poll_event prev_sig ev = true) polls
    /\ match r with
       | Ok true =>
           exists els,
             evs = polls ++ [Called (EvaluateAll page (Loc VISIBLE_ROW_LINK))
                               (Ok els)]
             /\ sig_changed prev_sig (signature_of els) = true
       | Ok false =>
           evs = polls
           /\ count_events is_evaluate_all polls = polls_left 10000 waited
       | Raise e =>
           evs = polls ++ [Called (EvaluateAll page (Loc VISIBLE_ROW_LINK))
                             (Raise e)]
           \/ evs = polls ++ [Called (WaitForTimeout page 200) (Raise e)]
       end.

(** An event of the click itself: bringing the control into view, the direct
    click, the scripted click. *)
Definition is_press_event (ev : event) : bool :=
  match ev with
  | @Called _ o _ =>
      match o with
      | ScrollIntoViewIfNeeded _ _ | Click _ _ | EvaluateClick _ _ => true
      | _ => false
      end
  | _ => false
  end.

(** How the click of [click_next] can end: the direct click worked, or it (or
    bringing the control into view) failed and the scripted click decided. *)
Definition press_ends (page : handle) (r : res unit) (evs : list event)
  : Prop :=
  (evs = [Called (ScrollIntoViewIfNeeded page NEXT_BUTTON) (Ok tt);
          Called (Click page NEXT_BUTTON) (Ok tt)]
   /\ r = Ok tt)
  \/ (exists e,
        evs = [Called (ScrollIntoViewIfNeeded page NEXT_BUTTON) (Raise e);
               Called (EvaluateClick page NEXT_BUTTON) r])
  \/ (exists e,
        evs = [Called (ScrollIntoViewIfNeeded page NEXT_BUTTON) (Ok tt);
               Called (Click page NEXT_BUTTON) (Raise e);
               Called (EvaluateClick page NEXT_BUTTON) r]).

(** How [click_next] can end once it has clicked: the polls; on a change, the
    scroll to the top and the wait for the table. *)
Definition after_click_ends (page : handle) (prev_sig : string)
    (r : res bool) (evs : list event) : Prop :=
  exists rp polled rest,
    evs = polled ++ rest
    /\ poll_signature_ends page prev_sig 0 rp polled
    /\ match rp with
       | Raise e => rest = [] /\ r = Raise e
       | Ok false => rest = [] /\ r = Ok false
       | Ok true =>
           exists rs settled,
             rest = Called (Evaluate page "window.scrollTo(0, 0)") rs :: settled
             /\ match rs with
                | Raise e => settled = [] /\ r = Raise e
                | Ok _ =>
                    exists rw,
                      wait_table_ready_ends page 10000 rw settled
                      /\ r = match rw with
                             | Ok _ => Ok true
                             | Raise e => Raise e
                             end
                end
       end.

(** How [click_next] can end once the next control is known to be there
    ([rest] is what follows the count of the control). *)
Definition control_ends (page : handle) (prev_sig : string) (r : res bool)
    (rest : list event) : Prop :=
  exists ra rest2,
    rest = Called (GetAttribute page NEXT_BUTTON "class") ra :: rest2
    /\ match ra with
       | Raise e => rest2 = [] /\ r = Raise e
       | Ok c =>
           exists rb rest3,
             rest2 = Called (GetAttribute page NEXT_BUTTON "aria-disabled") rb
                       :: rest3
             /\ match rb with
                | Raise e => rest3 = [] /\ r = Raise e
                | Ok a =>
                    if next_disabled (Text.lower (or_empty c))
                         (Text.lower (or_empty a))
                    then rest3 = [Logged INFO MsgNextDisabled] /\ r = Ok false
                    else
                      exists rpress press rest4,
                        rest3 = press ++ rest4
                        /\ press_ends page rpress press
                        /\ match rpress with
                           | Raise e => rest4 = [] /\ r = Raise e
                           | Ok _ =>
                               exists post,
                                 rest4 = Logged INFO MsgClickedNext :: post
                                 /\ Forall (fun ev => is_watch_event ev = true)
                                      post
                                 /\ after_click_ends page prev_sig r post
                           end
                end
       end.

(** How [click_next] can end, with the events it added. *)
Definition click_next_ends (page : handle) (r : res bool) (evs : list event)
  : Prop :=
  exists rsig rest0,
    evs = Called (EvaluateAll page (Loc VISIBLE_ROW_LINK)) rsig :: rest0
    /\ match rsig with
       | Raise e => rest0 = [] /\ r = Raise e
       | Ok els0 =>
           exists nudge rc rest1,
             rest0 = nudge ++ Called (Count page NEXT_BUTTON) rc :: rest1
             /\ Forall (fun ev => is_watch_event ev = true) nudge
             /\ match rc with
                | Raise e => rest1 = [] /\ r = Raise e
                | Ok O => rest1 = [Logged INFO MsgNextNotFound] /\ r = Ok false
                | Ok (S _) => control_ends page (signature_of els0) r rest1
                end
       end.

(** A driver call (not a log record, not a fetch record). *)
Definition is_called (ev : event) : bool :=
  match ev with
  | Called _ _ => true
  | _ => false
  end.

(** The normalised text that follows a character of a word: [s] is what
    follows that character in the input. *)
Definition normalise_after (s : list ascii) : list ascii :=
  match s with
  | [] => []
  | x :: _ =>
      if Text.isspace x
      then match Text.normalise s with
           | [] => []
           | n => Text.space :: n
           end
      else Text.normalise s
  end.

(** A letter of a pattern that no whitespace character equals, ignoring
    case. *)
Definition is_mark (c : ascii) : bool :=
  negb (Text.isspace (Text.lower_char c)).

(** ** What follows an incomplete record *)








(** ** Further definitions

    Event classes and outcome shapes used by the properties of the second
    part. *)

(** A record whose present fields are tokens of the two patterns: a contract
    id of three or more characters among digits, '.', '/', '-', an amount of
    one or more characters among digits, '.', ','. *)
Definition contract_token (c : string) : bool :=
  (3 <=? String.length c)%nat
  && forallb contract_char (list_ascii_of_string c).

Definition amount_token (a : string) : bool :=
  (1 <=? String.length a)%nat
  && forallb amount_char (list_ascii_of_string a).

Definition tokens_ok (d : ContractData) : bool :=
  match contract d with Some c => contract_token c | None => true end
  && match amount d with Some a => amount_token a | None => true end.

(** A sleep of a polling loop. *)
Definition is_sleep_event (ev : event) : bool :=
  match ev with
  | @Called _ o _ =>
      match o with
      | WaitForTimeout _ _ => true
      | _ => false
      end
  | _ => false
  end.

(** The bound on what one polling loop adds to the trace: at most one count
    and one sleep per poll it can still make, three calls per poll. *)
Definition within_polls (polls : nat) (evs : list event) : Prop :=
  (count_events is_count_event evs <= polls)%nat
  /\ (count_events is_sleep_event evs <= polls)%nat
  /\ (length evs <= 3 * polls)%nat.

(** A click that went through: [btn.click()] or the scripted click,
    answered without an exception. *)
Definition is_done_click (ev : event) : bool :=
  match ev with
  | @Called _ o r =>
      match o in op T return res T -> bool with
      | Click _ _ | EvaluateClick _ _ =>
          fun r => match r with Ok _ => true | Raise _ => false end
      | _ => fun _ => false
      end r
  | _ => false
  end.

(** The log record "Clicked Next". *)
Definition is_clicked_log (ev : event) : bool :=
  match ev with
  | Logged INFO MsgClickedNext => true
  | _ => false
  end.

(** How the loop of [pick_ctx] over the frames can end: with the page, or with
    one of the frames, other than the main frame, on which the marker was
    counted; or with the failure of asking for the main frame. *)
Definition pick_frame_ends (page : handle) (frames : list handle)
    (r : res handle) (evs : list event) : Prop :=
  match r with
  | Ok h =>
      h = page
      \/ exists n m,
           h ∈ frames
           /\ Called (Count h DATA_MARKER) (Ok (S n)) ∈ evs
           /\ Called (MainFrame page) (Ok m) ∈ evs /\ h <> m
  | Raise e => exists pre, evs = pre ++ [Called (MainFrame page) (Raise e)]
  end.

(** How [pick_ctx] can end. *)
Definition pick_ctx_ends (page : handle) (r : res handle) (evs : list event)
  : Prop :=
  match r with
  | Ok h =>
      (h = page /\ exists n, evs = [Called (Count page DATA_MARKER) (Ok (S n))])
      \/ exists frames,
           Called (Count page DATA_MARKER) (Ok 0%nat) ∈ evs
           /\ Called (Frames page) (Ok frames) ∈ evs
           /\ (h = page
               \/ exists n m,
                    h ∈ frames
                    /\ Called (Count h DATA_MARKER) (Ok (S n)) ∈ evs
                    /\ Called (MainFrame page) (Ok m) ∈ evs /\ h <> m)
  | Raise e =>
      exists pre,
        evs = pre ++ [Called (Count page DATA_MARKER) (Raise e)]
        \/ evs = pre ++ [Called (Frames page) (Raise e)]
        \/ evs = pre ++ [Called (MainFrame page) (Raise e)]
  end.

(** The two quick reads of [extract_from_context]. *)
Definition contract_text : locator :=
  First (Loc "text=/Contrato\s+[0-9./-]{3,}/").
Definition amount_text : locator :=
  First (Loc "text=/Valor\s*total\s*R\$/").

(** The quick reads that lead [extract_from_context] to its second tier: one
    of them timed out, or both answered and the record read from their texts
    lacks a field. *)
Definition quick_reads_give_up (ctx : handle) (quick : list event) : Prop :=
  quick = [Called (InnerText ctx contract_text 2500) (Raise PWTimeout)]
  \/ (exists ct,
        quick = [Called (InnerText ctx contract_text 2500) (Ok ct);
                 Called (InnerText ctx amount_text 2500) (Raise PWTimeout)])
  \/ (exists ct vt,
        quick = [Called (InnerText ctx contract_text 2500) (Ok ct);
                 Called (InnerText ctx amount_text 2500) (Ok vt)]
        /\ complete (_extract (ct +:+ " " +:+ vt)) = false).

(** How [extract_from_context] can end: with the complete record of the two
    quick reads; with the failure of a quick read that is not a timeout; or,
    the quick reads given up, with what the whole markup gives (or the
    failure of reading the markup). *)
Definition extract_from_context_ends (get_text : string -> string)
    (ctx : handle) (r : res ContractData) (evs : list event) : Prop :=
  (exists ct vt,
     evs = [Called (InnerText ctx contract_text 2500) (Ok ct);
            Called (InnerText ctx amount_text 2500) (Ok vt)]
     /\ complete (_extract (ct +:+ " " +:+ vt)) = true
     /\ r = Ok (_extract (ct +:+ " " +:+ vt)))
  \/ (r = Raise Error
      /\ (evs = [Called (InnerText ctx contract_text 2500) (Raise Error)]
          \/ exists ct,
               evs = [Called (InnerText ctx contract_text 2500) (Ok ct);
                      Called (InnerText ctx amount_text 2500) (Raise Error)]))
  \/ (exists quick rc,
        quick_reads_give_up ctx quick
        /\ evs = quick ++ [Called (Content ctx) rc]
        /\ r = match rc with
               | Ok html => Ok (_extract (get_text html))
               | Raise e => Raise e
               end).

(** The calls made on a detail tab between opening and closing it. *)
Definition is_tab_event (ev : event) : bool :=
  match ev with
  | @Called _ o _ =>
      match o with
      | Goto _ _ | WaitForSelector _ _ _ | Count _ (First _) | Frames _
      | MainFrame _ | InnerText _ _ _ | Content _ => true
      | _ => false
      end
  | _ => false
  end.

(** How the body of [open_details_and_extract] can end: the address of the
    page could not be read; or no tab could be opened; or a tab was opened,
    sent to the absolute address of the row, read, and closed as the last
    call, the failure of closing it replacing the outcome. *)
Definition open_details_ends (page : handle) (href : string)
    (r : res ContractData) (evs : list event) : Prop :=
  (exists e, evs = [Called (Url page) (Raise e)] /\ r = Raise e)
  \/ (exists u e,
        evs = [Called (Url page) (Ok u); Called NewPage (Raise e)]
        /\ r = Raise e)
  \/ (exists u dp rg mid rc r0,
        evs = Called (Url page) (Ok u) :: Called NewPage (Ok dp)
                :: Called (Goto dp (make_abs_url u href)) rg
                :: mid ++ [Called (Close dp) rc]
        /\ Forall (fun ev => is_tab_event ev = true) mid
        /\ match rg with
           | Ok _ => True
           | Raise e => mid = [] /\ r0 = Raise e
           end
        /\ r = match rc with
               | Ok _ => r0
               | Raise e => Raise e
               end).

(** Writing the output file. *)
Definition is_write_event (ev : event) : bool :=
  match ev with
  | @Called _ o _ =>
      match o with
      | WriteLines _ _ => true
      | _ => false
      end
  | _ => false
  end.

(** What the crawl over the table pages can add to the trace: anything but
    starting the browser, writing the output file and closing the browser. *)
Definition is_crawl_event (ev : event) : bool :=
  match ev with
  | @Called _ o _ =>
      match o with
      | Launch | NewContext | SetDefaultTimeout _ _ | WriteLines _ _
      | CloseContext | CloseBrowser => false
      | _ => true
      end
  | Logged _ (MsgStarting _) | Logged _ MsgNavigating | Logged _ MsgLoaded
  | Logged _ (MsgWriting _ _) => false
  | _ => true
  end.

(** The calls and log records of the crawl that are not records of the
    detail fetcher. *)
Definition is_nav_event (ev : event) : bool :=
  is_plain_event ev && is_crawl_event ev.

(** What [scrape] does before the crawl: log records, starting the browser,
    opening the page and loading the table. *)
Definition is_opening_event (ev : event) : bool :=
  match ev with
  | @Called _ o _ =>
      match o with
      | Launch | NewContext | NewPage | SetDefaultTimeout _ _ | Goto _ _ =>
          true
      | _ => false
      end
  | Logged INFO (MsgStarting _) | Logged INFO MsgNavigating
  | Logged INFO MsgLoaded => true
  | _ => false
  end.

(** The books of a run, kept from [s0] to [s]: the trace has grown by crawl
    events, [visited] by exactly the tokens handed to the detail fetcher
    meanwhile, [stash] by exactly the complete records it returned meanwhile,
    in order; the fields of every record it returned are tokens of the two
    patterns; and it returned at most one record per token. *)
Definition follows {D : driver} (s0 s : state D) : Prop :=
  exists evs,
    trace s = trace s0 ++ evs
    /\ Forall (fun ev => is_crawl_event ev = true) evs
    /\ visited s = list_to_set (fetched evs) ∪ visited s0
    /\ stash s = stash s0 ++ List.filter complete (outcomes evs)
    /\ Forall (fun d => tokens_ok d = true) (outcomes evs)
    /\ (length (outcomes evs) <= length (fetched evs))%nat.

(** How [process_current_table] can end, [v] being the visited set it was
    called with: waiting for the table failed; or reading the batch failed; or
    the batch holds no new row and nothing else happens; or the number of new
    rows is logged and they are fetched in order, all of them when the outcome
    is a normal return. *)
Definition process_current_table_ends (page : handle) (v : gset string)
    (r : res unit) (evs : list event) : Prop :=
  exists waits,
    Forall (fun ev => is_wait_event ev = true) waits
    /\ ((exists e, r = Raise e /\ evs = waits)
        \/ (exists e,
              r = Raise e
              /\ evs = waits ++ [Called (EvaluateAll page (Loc VISIBLE_ROW_LINK))
                                   (Raise e)])
        \/ (exists els,
              filter_rows (js_items els) v ∅ [] = []
              /\ r = Ok tt
              /\ evs = waits ++ [Called (EvaluateAll page (Loc VISIBLE_ROW_LINK))
                                   (Ok els)])
        \/ (exists els fetches,
              let rows := filter_rows (js_items els) v ∅ [] in
              rows <> []
              /\ evs = waits
                         ++ Called (EvaluateAll page (Loc VISIBLE_ROW_LINK))
                              (Ok els)
                         :: Logged INFO (MsgFoundRows (length rows)) :: fetches
              /\ Forall (fun ev => is_evaluate_all ev = false) fetches
              /\ fetched fetches `prefix_of` rows.*1
              /\ (r = Ok tt -> fetched fetches = rows.*1))).

(** How [scrape] ends once the crawl is over, [items] being the stash: the
    count is logged, the file is written with the stash, the context and the
    browser are closed; the first of these calls to fail decides the
    outcome. *)
Definition closing_ends (items : list ContractData) (r : res progress)
    (closing : list event) : Prop :=
  exists rw rest,
    closing = Logged INFO (MsgWriting (length items) "contracts.jsonl")
                :: Called (WriteLines "contracts.jsonl" items) rw :: rest
    /\ match rw with
       | Raise e => rest = [] /\ r = Raise e
       | Ok _ =>
           exists rc rest',
             rest = Called CloseContext rc :: rest'
             /\ match rc with
                | Raise e => rest' = [] /\ r = Raise e
                | Ok _ =>
                    exists rb,
                      rest' = [Called CloseBrowser rb]
                      /\ r = match rb with
                             | Ok _ => Ok Finished
                             | Raise e => Raise e
                             end
                end
       end.

(** How [scrape] can end, from [s] to [s']: the opening, then the crawl (with
    the books kept), then, only when the crawl has seen the last page, the
    closing. *)
Definition scrape_ends {D : driver} (s s' : state D) (r : res progress)
  : Prop :=
  exists opening crawled closing,
    trace s' = trace s ++ opening ++ crawled ++ closing
    /\ Forall (fun ev => is_opening_event ev = true) opening
    /\ Forall (fun ev => is_crawl_event ev = true) crawled
    /\ visited s' = list_to_set (fetched crawled) ∪ visited s
    /\ stash s' = stash s ++ List.filter complete (outcomes crawled)
    /\ Forall (fun d => tokens_ok d = true) (outcomes crawled)
    /\ (length (outcomes crawled) <= length (fetched crawled))%nat
    /\ match closing with
       | [] => r <> Ok Finished
       | _ =>
           closing_ends (stash s') r closing
           /\ (no_failed_fetch (trace s) ->
               no_failed_fetch (trace s ++ opening ++ crawled))
       end.
(** * Properties *)

(** ** Whitespace normalisation *)

Lemma split_go_collapse (s w : list ascii) (in_run : bool) :
  (in_run = true -> w = []) ->
  Text.split_go w (Text.collapse_go in_run s) = Text.split_go w s.
Proof.
  revert w in_run. induction s as [|c s IH]; intros w in_run Hw.
  - reflexivity.
  - simpl. destruct (Text.isspace c) eqn:Hc.
    + destruct in_run.
      * rewrite (Hw eq_refl). apply IH. reflexivity.
      * simpl. destruct w; [apply IH | f_equal; apply IH]; reflexivity.
    + simpl. rewrite Hc. apply IH. discriminate.
Qed.

Lemma normalise_collapse (s : list ascii) :
  Text.normalise (Text.collapse s) = Text.normalise s.
Proof.
  unfold Text.normalise, Text.split, Text.collapse.
  rewrite split_go_collapse; [reflexivity | discriminate].
Qed.

Lemma extract_collapse (t : string) :
  _extract (Text.collapse_ws t) = _extract t.
Proof.
  unfold _extract, Text.collapse_ws.
  rewrite list_ascii_of_string_of_list_ascii, normalise_collapse.
  reflexivity.
Qed.

(** The result depends on the collapsed text only. *)
Lemma extract_depends_on_collapsed (t1 t2 : string) :
  Text.collapse_ws t1 = Text.collapse_ws t2 -> _extract t1 = _extract t2.
Proof.
  intros H. rewrite <- (extract_collapse t1), <- (extract_collapse t2), H.
  reflexivity.
Qed.

(** C10: [_extract] always returns a record with its two fields, and gives the
    same record on a text and on that text with every maximal run of
    whitespace replaced by one space. *)
Theorem extract_total_and_collapse_invariant (t : string) :
  (exists c a, _extract t = {| contract := c; amount := a |})
  /\ _extract (Text.collapse_ws t) = _extract t.
Proof.
  split.
  - eexists _, _. reflexivity.
  - apply extract_collapse.
Qed.

(** ** The two patterns of [_extract] *)

Section ManyFacts.
Context {R : Type}.
Implicit Types (p : ascii -> bool) (k : list ascii -> option R).

Lemma span_app p (s : list ascii) :
  (Spec.span p s).1 ++ (Spec.span p s).2 = s.
Proof.
  induction s as [|c s IH]; simpl; [reflexivity|].
  destruct (p c); [|reflexivity].
  destruct (Spec.span p s) as [a b]. simpl in *. by rewrite IH.
Qed.

Lemma span_cons_true p c (s : list ascii) :
  p c = true ->
  Spec.span p (c :: s) = (c :: (Spec.span p s).1, (Spec.span p s).2).
Proof. intros H. simpl. rewrite H. by destruct (Spec.span p s). Qed.

Lemma span_cons_false p c (s : list ascii) :
  p c = false -> Spec.span p (c :: s) = ([], c :: s).
Proof. intros H. simpl. by rewrite H. Qed.

Lemma many_ext p min (s : list ascii) k k' :
  (forall x, k x = k' x) -> Re.many p min s k = Re.many p min s k'.
Proof.
  intros Hk. revert min. induction s as [|c s IH]; intros min; simpl.
  - by rewrite Hk.
  - rewrite (IH (Nat.pred min)), Hk. reflexivity.
Qed.

(** A repetition followed by something that cannot start with a character
    of the repeated class never gives characters back. *)
Lemma many_span_guarded p min (s : list ascii) k :
  (forall c s', p c = true -> k (c :: s') = None) ->
  Re.many p min s k =
    if (min <=? length (Spec.span p s).1)%nat
    then k (Spec.span p s).2 else None.
Proof.
  intros Hk. revert min. induction s as [|c s IH]; intros min.
  - simpl. by destruct min.
  - simpl Re.many. destruct (p c) eqn:Hc.
    + rewrite (span_cons_true _ _ _ Hc), IH. simpl.
      destruct min as [|m]; simpl.
      * destruct (k (Spec.span p s).2) eqn:Hr; [reflexivity|].
        by apply Hk.
      * destruct (m <=? length (Spec.span p s).1)%nat; [|reflexivity].
        by destruct (k (Spec.span p s).2).
    + rewrite (span_cons_false _ _ _ Hc). simpl. by destruct min.
Qed.

(** A repetition whose continuation accepts the longest run keeps it. *)
Lemma many_span_greedy p min (s : list ascii) k :
  is_Some (k (Spec.span p s).2) ->
  Re.many p min s k =
    if (min <=? length (Spec.span p s).1)%nat
    then k (Spec.span p s).2 else None.
Proof.
  revert min. induction s as [|c s IH]; intros min Hk.
  - simpl. by destruct min.
  - simpl Re.many. destruct (p c) eqn:Hc.
    + rewrite (span_cons_true _ _ _ Hc) in Hk |- *. simpl in Hk |- *.
      rewrite (IH _ Hk). destruct Hk as [r Hr]. rewrite Hr.
      destruct min as [|m]; simpl; [reflexivity|].
      by destruct (m <=? length (Spec.span p s).1)%nat.
    + rewrite (span_cons_false _ _ _ Hc). simpl. by destruct min.
Qed.

Lemma run_lits (w s : list ascii) (g : Re.match_object)
    (k : list ascii -> Re.match_object -> option R) :
  Re.run true (Re.lits w) s g k =
    match Spec.strip_word w s with
    | Some s' => k s' g
    | None => None
    end.
Proof.
  revert s. induction w as [|c w IH]; intros s; simpl; [by destruct s|].
  destruct s as [|x s]; [reflexivity|].
  destruct (Re.ci_eq c x); [apply IH | reflexivity].
Qed.
End ManyFacts.

Lemma take_span_length (p : ascii -> bool) (s : list ascii) :
  take (length s - length (Spec.span p s).2) s = (Spec.span p s).1.
Proof.
  pose proof (span_app p s) as H.
  destruct (Spec.span p s) as [a b]. simpl in *. subst s.
  rewrite length_app.
  replace (length a + length b - length b)%nat with (length a) by lia.
  by rewrite take_app_length.
Qed.

Lemma space_not_contract_char (c : ascii) :
  Text.isspace c = true -> contract_char c = false.
Proof. destruct c as [[] [] [] [] [] [] [] []]; vm_compute; congruence. Qed.

Lemma space_not_amount_char (c : ascii) :
  Text.isspace c = true -> amount_char c = false.
Proof. destruct c as [[] [] [] [] [] [] [] []]; vm_compute; congruence. Qed.

Lemma space_not_letter (c : ascii) :
  Text.isspace c = true ->
  Re.ci_eq "t" c = false /\ Re.ci_eq "R" c = false.
Proof. destruct c as [[] [] [] [] [] [] [] []]; vm_compute; intuition congruence. Qed.

(** The captured token, read greedily at the end of a pattern. *)
Lemma run_group_many (min : nat) (p : ascii -> bool) (s : list ascii)
    (g : Re.match_object) :
  Re.run true (Re.Group (Re.Many min p)) s g (fun _ g' => Some g') =
    if (min <=? length (Spec.span p s).1)%nat
    then Some (Some (Spec.span p s).1) else None.
Proof.
  simpl. rewrite many_span_greedy by eauto.
  by rewrite take_span_length.
Qed.

Lemma match_contract_here (s : list ascii) :
  Re.match_at true contract_re s = Some <$> Spec.contract_here s.
Proof.
  unfold Re.match_at, contract_re, Re.word, Spec.contract_here.
  cbn [Re.run]. rewrite run_lits.
  destruct (Spec.strip_word _ s) as [s1|]; [|reflexivity].
  erewrite many_ext; [|intros x; apply (run_group_many 3 contract_char x None)].
  rewrite many_span_guarded.
  - destruct (Spec.span Text.isspace s1) as [ws s2]. cbn [fst snd].
    destruct (Spec.span contract_char s2) as [token rest]. cbn [fst snd].
    by destruct (1 <=? length ws)%nat, (3 <=? length token)%nat.
  - intros c s' Hc.
    by rewrite (span_cons_false _ _ _ (space_not_contract_char c Hc)).
Qed.

Lemma match_amount_here (s : list ascii) :
  Re.match_at true amount_re s = Some <$> Spec.amount_here s.
Proof.
  unfold Re.match_at, amount_re, Re.word, Spec.amount_here.
  cbn [Re.run]. rewrite run_lits.
  destruct (Spec.strip_word _ s) as [s1|]; [|reflexivity].
  rewrite many_span_guarded; cycle 1.
  { intros c s' Hc. rewrite run_lits. simpl.
    by rewrite (proj1 (space_not_letter c Hc)). }
  simpl (0 <=? _)%nat. cbv iota. rewrite run_lits.
  destruct (Spec.strip_word _ (Spec.span Text.isspace s1).2) as [s2|];
    [|reflexivity].
  rewrite many_span_guarded; cycle 1.
  { intros c s' Hc. rewrite run_lits. simpl.
    by rewrite (proj2 (space_not_letter c Hc)). }
  simpl (0 <=? _)%nat. cbv iota. rewrite run_lits.
  destruct (Spec.strip_word _ (Spec.span Text.isspace s2).2) as [s3|];
    [|reflexivity].
  erewrite many_ext; [|intros x; apply (run_group_many 1 amount_char x None)].
  rewrite many_span_guarded; cycle 1.
  { intros c s' Hc.
    by rewrite (span_cons_false _ _ _ (space_not_amount_char c Hc)). }
  simpl (0 <=? _)%nat. cbv iota.
  destruct (Spec.span amount_char (Spec.span Text.isspace s3).2)
    as [token rest]. cbn [fst snd].
  by destruct (1 <=? length token)%nat.
Qed.

Lemma search_first_match (r : Re.regex)
    (here : list ascii -> option (list ascii)) (s : list ascii) :
  (forall x, Re.match_at true r x = Some <$> here x) ->
  Re.search true r s = Some <$> Spec.first_match here s.
Proof.
  intros H. induction s as [|c s IH]; simpl; rewrite H.
  - by destruct (here []).
  - destruct (here (c :: s)); [reflexivity | apply IH].
Qed.

Lemma group1_fmap (x : option (list ascii)) :
  group1 (Some <$> x) = string_of_list_ascii <$> x.
Proof. by destruct x. Qed.

Lemma extract_contract (text : string) :
  contract (_extract text) =
    string_of_list_ascii <$>
      Spec.first_match Spec.contract_here
        (Text.normalise (list_ascii_of_string text)).
Proof.
  unfold _extract. simpl.
  by rewrite (search_first_match _ _ _ match_contract_here), group1_fmap.
Qed.

Lemma extract_amount (text : string) :
  amount (_extract text) =
    string_of_list_ascii <$>
      Spec.first_match Spec.amount_here
        (Text.normalise (list_ascii_of_string text)).
Proof.
  unfold _extract. simpl.
  by rewrite (search_first_match _ _ _ match_amount_here), group1_fmap.
Qed.

Lemma first_match_Some (here : list ascii -> option (list ascii))
    (s token : list ascii) :
  Spec.first_match here s = Some token <->
  exists i, here (drop i s) = Some token
            /\ forall j, (j < i)%nat -> here (drop j s) = None.
Proof.
  revert token. induction s as [|c s IH]; intros token; simpl.
  - split.
    + destruct (here []) eqn:H; [|discriminate].
      intros [= <-]. exists 0%nat. split; [done | lia].
    + intros (i & Hi & _). rewrite drop_nil in Hi. by rewrite Hi.
  - destruct (here (c :: s)) eqn:H.
    + split.
      * intros [= <-]. exists 0%nat. split; [done | lia].
      * intros ([|i] & Hi & Hlt).
        -- simpl in Hi. congruence.
        -- specialize (Hlt 0%nat ltac:(lia)). simpl in Hlt. congruence.
    + rewrite IH. split.
      * intros (i & Hi & Hlt). exists (S i). split; [done|].
        intros [|j] ?; [done|]. apply Hlt. lia.
      * intros ([|i] & Hi & Hlt).
        -- simpl in Hi. congruence.
        -- exists i. split; [done|]. intros j ?. apply (Hlt (S j)). lia.
Qed.

(** ** Matches in the input and in the normalised text *)

Lemma split_go_words (s w : list ascii) : [] ∉ Text.split_go w s.
Proof.
  assert (Hrev : forall (y : ascii) (l : list ascii), [] <> rev (y :: l)).
  { intros y l H. apply (f_equal (@length ascii)) in H.
    by rewrite length_rev in H. }
  revert w. induction s as [|x s IH]; intros w; simpl.
  - destruct w as [|y w]; [by intros H%elem_of_nil|].
    intros H%list_elem_of_singleton. by apply Hrev in H.
  - destruct (Text.isspace x); [|apply IH].
    destruct w as [|y w]; [apply IH|].
    intros [H|H]%elem_of_cons; [by apply Hrev in H | by apply IH in H].
Qed.

Lemma split_go_word (s w : list ascii) (c : ascii) :
  w <> [] ->
  Text.split_go (w ++ [c]) s =
    match Text.split_go w s with
    | first :: rest => (c :: first) :: rest
    | [] => []
    end.
Proof.
  revert w. induction s as [|d s IH]; intros w Hw; simpl.
  - destruct w as [|x w]; [done|]. destruct (_ ++ [c]) eqn:E.
    { by destruct w. }
    rewrite <- E, rev_app_distr. reflexivity.
  - destruct (Text.isspace d).
    + destruct w as [|x w]; [done|]. destruct (_ ++ [c]) eqn:E.
      { by destruct w. }
      rewrite <- E, rev_app_distr. reflexivity.
    + apply (IH (d :: w)). discriminate.
Qed.

Lemma split_go_nonempty (s w : list ascii) :
  w <> [] -> Text.split_go w s <> [].
Proof.
  revert w. induction s as [|d s IH]; intros w Hw; simpl.
  - by destruct w.
  - destruct (Text.isspace d); [by destruct w | by apply IH].
Qed.

Lemma normalise_space (c : ascii) (s : list ascii) :
  Text.isspace c = true -> Text.normalise (c :: s) = Text.normalise s.
Proof. intros H. unfold Text.normalise, Text.split. simpl. by rewrite H. Qed.

Lemma join_cons_word (c : ascii) (first : list ascii)
    (rest : list (list ascii)) :
  Text.join [Text.space] ((c :: first) :: rest) =
    c :: Text.join [Text.space] (first :: rest).
Proof. by destruct rest. Qed.

Lemma normalise_word (c : ascii) (s : list ascii) :
  Text.isspace c = false ->
  Text.normalise (c :: s) = c :: normalise_after s.
Proof.
  intros Hc. unfold Text.normalise, Text.split. simpl. rewrite Hc.
  destruct s as [|d s]; [reflexivity|].
  unfold normalise_after. destruct (Text.isspace d) eqn:Hd.
  - simpl. rewrite Hd. rewrite (normalise_space d s Hd).
    unfold Text.normalise, Text.split.
    pose proof (split_go_words s []) as Hne.
    destruct (Text.split_go [] s) as [|w ws]; [reflexivity|].
    change (Text.join [Text.space] ([c] :: w :: ws))
      with (c :: Text.space :: Text.join [Text.space] (w :: ws)).
    f_equal. destruct (Text.join [Text.space] (w :: ws)) eqn:Ej; [|done].
    exfalso. apply Hne. destruct w; [by left|].
    by destruct ws.
  - simpl. rewrite Hd.
    change [d; c] with ([d] ++ [c]). rewrite split_go_word by done.
    unfold Text.normalise, Text.split. simpl. rewrite Hd.
    destruct (Text.split_go [d] s) as [|w ws] eqn:E.
    + by apply split_go_nonempty in E.
    + apply join_cons_word.
Qed.

Lemma normalise_head (s n : list ascii) (c : ascii) :
  Text.normalise s = c :: n -> Text.isspace c = false.
Proof.
  induction s as [|x s IH]; [discriminate|].
  destruct (Text.isspace x) eqn:Hx.
  - rewrite (normalise_space x s Hx). exact IH.
  - rewrite (normalise_word x s Hx). by intros [= <- _].
Qed.

Lemma normalise_after_word (x : ascii) (a : list ascii) :
  Text.isspace x = false ->
  normalise_after (x :: a) = x :: normalise_after a.
Proof.
  intros Hx. unfold normalise_after at 1. rewrite Hx.
  by apply normalise_word.
Qed.

Lemma normalise_after_space (x : ascii) (a : list ascii) :
  Text.isspace x = true ->
  normalise_after (x :: a) = []
  \/ exists c n, normalise_after (x :: a) = Text.space :: c :: n
                 /\ Text.normalise (x :: a) = c :: n
                 /\ Text.isspace c = false.
Proof.
  intros Hx. unfold normalise_after. rewrite Hx.
  destruct (Text.normalise (x :: a)) as [|c n] eqn:E; [by left|].
  right. exists c, n. split_and!; [done..|]. by eapply normalise_head.
Qed.

Lemma normalise_drop_space (a : list ascii) :
  Text.normalise a = Text.normalise (Spec.span Text.isspace a).2.
Proof.
  induction a as [|x a IH]; [reflexivity|].
  destruct (Text.isspace x) eqn:Hx.
  - rewrite (span_cons_true _ _ _ Hx), (normalise_space _ _ Hx). exact IH.
  - by rewrite (span_cons_false _ _ _ Hx).
Qed.

Lemma span_rest_head (p : ascii -> bool) (a r : list ascii) (y : ascii) :
  (Spec.span p a).2 = y :: r -> p y = false.
Proof.
  induction a as [|x a IH]; [discriminate|].
  destruct (p x) eqn:Hx.
  - rewrite (span_cons_true _ _ _ Hx). exact IH.
  - rewrite (span_cons_false _ _ _ Hx). by intros [= <- _].
Qed.

Lemma lower_space (x : ascii) :
  Text.isspace x = true -> Text.lower_char x = x.
Proof. destruct x as [[] [] [] [] [] [] [] []]; vm_compute; congruence. Qed.

Lemma mark_not_space (c x : ascii) :
  is_mark c = true -> Text.isspace x = true -> Re.ci_eq c x = false.
Proof.
  unfold is_mark, Re.ci_eq. intros Hc Hx. rewrite (lower_space x Hx).
  destruct (Ascii.eqb_spec (Text.lower_char c) x) as [E|]; [|done].
  rewrite E, Hx in Hc. discriminate.
Qed.

Lemma strip_word_after (w a : list ascii) :
  w <> [] -> forallb is_mark w = true ->
  Spec.strip_word w (normalise_after a) =
    normalise_after <$> Spec.strip_word w a.
Proof.
  revert a. induction w as [|c w IH]; intros a Hw Hmark; [done|].
  simpl in Hmark. apply andb_true_iff in Hmark as [Hc Hmark].
  destruct a as [|x a]; [reflexivity|].
  destruct (Text.isspace x) eqn:Hx.
  - cbn [Spec.strip_word]. rewrite (mark_not_space c x Hc Hx).
    destruct (normalise_after_space x a Hx) as [->|(y & n & -> & _)];
      [reflexivity|].
    cbn [Spec.strip_word]. by rewrite (mark_not_space c Text.space Hc).
  - rewrite (normalise_after_word x a Hx). cbn [Spec.strip_word].
    destruct (Re.ci_eq c x); [|reflexivity].
    destruct w as [|c' w]; [reflexivity|]. by apply IH.
Qed.

Lemma span_space_after (a : list ascii) :
  (Spec.span Text.isspace (normalise_after a)).2 =
    normalise_after (Spec.span Text.isspace a).2.
Proof.
  destruct a as [|x a]; [reflexivity|].
  destruct (Text.isspace x) eqn:Hx.
  - pose proof (normalise_drop_space (x :: a)) as Hn.
    destruct (Spec.span Text.isspace (x :: a)).2 as [|y r] eqn:Er.
    + destruct (normalise_after_space x a Hx) as [->|(c & n & _ & E & _)];
        [reflexivity|]. rewrite E in Hn. discriminate.
    + pose proof (span_rest_head _ _ _ _ Er) as Hy.
      rewrite (normalise_word y r Hy) in Hn.
      rewrite (normalise_after_word y r Hy).
      destruct (normalise_after_space x a Hx) as [E|(c & n & -> & E & Hc)].
      * unfold normalise_after in E. rewrite Hx, Hn in E. discriminate.
      * rewrite (span_cons_true Text.isspace Text.space _ eq_refl),
          (span_cons_false _ _ _ Hc).
        simpl. congruence.
  - rewrite (normalise_after_word x a Hx), !(span_cons_false _ _ _ Hx).
    cbn [snd]. symmetry. by apply normalise_after_word.
Qed.

Lemma span_token_after (p : ascii -> bool) (b : list ascii) :
  (forall c, Text.isspace c = true -> p c = false) ->
  (Spec.span p (normalise_after b)).1 = (Spec.span p b).1.
Proof.
  intros Hp. induction b as [|x b IH]; [reflexivity|].
  destruct (Text.isspace x) eqn:Hx.
  - rewrite (span_cons_false _ _ _ (Hp x Hx)).
    destruct (normalise_after_space x b Hx) as [->|(c & n & -> & _)];
      [reflexivity|].
    by rewrite (span_cons_false p _ _ (Hp Text.space eq_refl)).
  - rewrite (normalise_after_word x b Hx). destruct (p x) eqn:Hpx.
    + rewrite !(span_cons_true _ _ _ Hpx). simpl. by rewrite IH.
    + by rewrite !(span_cons_false _ _ _ Hpx).
Qed.

Lemma span_space_length_after (a : list ascii) :
  (1 <=? length (Spec.span Text.isspace (normalise_after a)).1)%nat =
    (1 <=? length (Spec.span Text.isspace a).1)%nat
    && match (Spec.span Text.isspace a).2 with [] => false | _ => true end.
Proof.
  destruct a as [|x a]; [reflexivity|].
  destruct (Text.isspace x) eqn:Hx.
  - pose proof (normalise_drop_space (x :: a)) as Hn.
    rewrite (span_cons_true _ _ _ Hx) in *. cbn [fst snd length] in *.
    destruct (Spec.span Text.isspace a).2 as [|y r] eqn:Er.
    + destruct (normalise_after_space x a Hx) as [->|(c & n & _ & E & _)];
        [reflexivity|]. rewrite E in Hn. discriminate.
    + pose proof (span_rest_head _ _ _ _ Er) as Hy.
      rewrite (normalise_word y r Hy) in Hn.
      destruct (normalise_after_space x a Hx) as [E|(c & n & -> & E & Hc)].
      * unfold normalise_after in E. rewrite Hx, Hn in E. discriminate.
      * rewrite (span_cons_true Text.isspace Text.space _ eq_refl).
        reflexivity.
  - rewrite (normalise_after_word x a Hx), !(span_cons_false _ _ _ Hx).
    reflexivity.
Qed.

Lemma contract_here_after (a : list ascii) :
  Spec.contract_here (normalise_after a) = Spec.contract_here a.
Proof.
  unfold Spec.contract_here. rewrite strip_word_after by done.
  destruct (Spec.strip_word _ a) as [s1|]; [|reflexivity]. cbn [fmap option_fmap option_map].
  pose proof (span_space_after s1) as H2.
  pose proof (span_space_length_after s1) as Hl.
  destruct (Spec.span Text.isspace (normalise_after s1)) as [ws' s2'].
  destruct (Spec.span Text.isspace s1) as [ws s2]. cbn [fst snd] in *.
  subst s2'.
  pose proof (span_token_after contract_char s2 space_not_contract_char) as Ht.
  destruct (Spec.span contract_char (normalise_after s2)) as [tok' r'].
  destruct (Spec.span contract_char s2) as [tok r] eqn:Et. cbn [fst] in Ht.
  subst tok'. rewrite Hl.
  destruct s2 as [|y s2]; [|by rewrite andb_true_r].
  simpl in Et. injection Et as <- <-. by rewrite !andb_false_r.
Qed.

Lemma amount_here_after (a : list ascii) :
  Spec.amount_here (normalise_after a) = Spec.amount_here a.
Proof.
  unfold Spec.amount_here. rewrite strip_word_after by done.
  destruct (Spec.strip_word _ a) as [s1|]; [|reflexivity]. cbn [fmap option_fmap option_map].
  rewrite span_space_after, strip_word_after by done.
  destruct (Spec.strip_word _ (Spec.span Text.isspace s1).2) as [s2|];
    [|reflexivity]. cbn [fmap option_fmap option_map].
  rewrite span_space_after, strip_word_after by done.
  destruct (Spec.strip_word _ (Spec.span Text.isspace s2).2) as [s3|];
    [|reflexivity]. cbn [fmap option_fmap option_map].
  rewrite span_space_after.
  pose proof (span_token_after amount_char (Spec.span Text.isspace s3).2
                space_not_amount_char) as Ht.
  destruct (Spec.span amount_char (normalise_after _)) as [tok' r'].
  destruct (Spec.span amount_char _) as [tok r]. cbn [fst] in Ht.
  by subst tok'.
Qed.

Lemma first_match_normalise (here : list ascii -> option (list ascii))
    (s : list ascii) :
  (forall a, here (normalise_after a) = here a) ->
  (forall c x, Text.isspace c = true -> here (c :: x) = None) ->
  here [] = None ->
  Spec.first_match here (Text.normalise s) = Spec.first_match here s.
Proof.
  intros Hafter Hspace Hnil.
  assert (Hfm : forall a,
    Spec.first_match here (normalise_after a) =
    Spec.first_match here (Text.normalise a)).
  { intros [|x a]; [reflexivity|]. unfold normalise_after.
    destruct (Text.isspace x); [|reflexivity].
    destruct (Text.normalise (x :: a)) as [|c n]; [reflexivity|].
    cbn [Spec.first_match]. by rewrite (Hspace Text.space _ eq_refl). }
  induction s as [|c s IH]; [reflexivity|].
  destruct (Text.isspace c) eqn:Hc.
  - rewrite (normalise_space c s Hc), IH. cbn [Spec.first_match].
    by rewrite (Hspace c s Hc).
  - rewrite (normalise_word c s Hc). cbn [Spec.first_match].
    rewrite <- (normalise_after_word c s Hc), Hafter.
    destruct (here (c :: s)); [reflexivity|]. by rewrite Hfm, IH.
Qed.

Lemma contract_here_space (c : ascii) (x : list ascii) :
  Text.isspace c = true -> Spec.contract_here (c :: x) = None.
Proof.
  intros Hc. unfold Spec.contract_here.
  cbn [Spec.strip_word list_ascii_of_string].
  by rewrite (mark_not_space "C" c eq_refl Hc).
Qed.

Lemma amount_here_space (c : ascii) (x : list ascii) :
  Text.isspace c = true -> Spec.amount_here (c :: x) = None.
Proof.
  intros Hc. unfold Spec.amount_here.
  cbn [Spec.strip_word list_ascii_of_string].
  by rewrite (mark_not_space "V" c eq_refl Hc).
Qed.

Lemma first_contract_normalise (s : list ascii) :
  Spec.first_match Spec.contract_here (Text.normalise s) =
  Spec.first_match Spec.contract_here s.
Proof.
  apply first_match_normalise;
    [apply contract_here_after | apply contract_here_space | reflexivity].
Qed.

Lemma first_amount_normalise (s : list ascii) :
  Spec.first_match Spec.amount_here (Text.normalise s) =
  Spec.first_match Spec.amount_here s.
Proof.
  apply first_match_normalise;
    [apply amount_here_after | apply amount_here_space | reflexivity].
Qed.

(** The fallback tier: when the first quick read times out, the record is
    extracted from the stripped markup of the whole container. *)
Lemma extract_from_context_fallback (D : driver) (get_text : string -> string)
    (ctx : handle) (s : state D) (html : string) (w1 w2 : world D) :
  answer D (InnerText ctx (First (Loc "text=/Contrato\s+[0-9./-]{3,}/")) 2500)
    (st_world s) = (Raise PWTimeout, w1) ->
  answer D (Content ctx) w1 = (Ok html, w2) ->
  (extract_from_context get_text ctx s).1 = Ok (_extract (get_text html)).
Proof.
  intros H1 H2.
  unfold extract_from_context, bind, try_except, call, ret. simpl.
  rewrite H1. simpl. rewrite H2. reflexivity.
Qed.

(** C5: [_extract] returns as contract the first match of "Contrato",
    whitespace and a token of three or more characters among digits, '.',
    '/', '-', and as amount the first match of "Valor total R$" (whitespace
    free between its parts) and a token of digits, '.', ','; letters are
    compared ignoring case; a field without a match is absent and the record
    is returned all the same; and on a container whose quick reads time out
    and whose markup holds "Contrato 123.456-7" and "Valor total R$ 1.234,56"
    the fallback tier returns these two tokens. *)
Theorem extract_returns_first_matches :
  (forall text : string,
     let t := list_ascii_of_string text in
     contract (_extract text) =
       string_of_list_ascii <$> Spec.first_match Spec.contract_here t
     /\ amount (_extract text) =
       string_of_list_ascii <$> Spec.first_match Spec.amount_here t)
  /\ _extract "no fields on this page" = {| contract := None; amount := None |}
  /\ _extract "contrato 12/2024, sem valor"
     = {| contract := Some "12/2024"; amount := None |}
  /\ (extract_from_context (Portal.strip_tags false) 1%nat
        (on_portal
           (Portal.detail_tab
              "<h1>Dados do contrato</h1><p>Contrato 123.456-7</p><p>Valor total R$ 1.234,56</p>"))).1
     = Ok {| contract := Some "123.456-7"; amount := Some "1.234,56" |}.
Proof.
  split; [|split; [|split]].
  - intros text t. split.
    + rewrite extract_contract. by rewrite first_contract_normalise.
    + rewrite extract_amount. by rewrite first_amount_normalise.
  - vm_compute. reflexivity.
  - vm_compute. reflexivity.
  - erewrite extract_from_context_fallback by reflexivity.
    vm_compute. reflexivity.
Qed.

(** ** Rules for the engine monad *)

Section LogicFacts.

Context {D : driver}.
Implicit Types (s : state D) (P Q : event -> bool).

Lemma extends_refl P s : extends P s s.
Proof.
  repeat split. exists []. by rewrite app_nil_r.
Qed.

Lemma extends_trans P s1 s2 s3 :
  extends P s1 s2 -> extends P s2 s3 -> extends P s1 s3.
Proof.
  intros (Hv1 & Hs1 & evs1 & Ht1 & HP1) (Hv2 & Hs2 & evs2 & Ht2 & HP2).
  repeat split; [congruence | congruence |].
  exists (evs1 ++ evs2). split.
  - by rewrite Ht2, Ht1, app_assoc.
  - by apply Forall_app.
Qed.

Lemma extends_mono P Q s s' :
  (forall ev, P ev = true -> Q ev = true) -> extends P s s' -> extends Q s s'.
Proof.
  intros HPQ (Hv & Hs & evs & Ht & HP). repeat split; [done..|].
  exists evs. split; [done|]. eapply Forall_impl; eauto.
Qed.

Lemma extends_new_events P s s' :
  extends P s s' ->
  trace s' = trace s ++ new_events s s'
  /\ Forall (fun ev => P ev = true) (new_events s s').
Proof.
  intros (_ & _ & evs & Ht & HP). unfold new_events.
  by rewrite Ht, drop_app_length.
Qed.

Lemma call_run {X : Type} (o : op X) s :
  call o s =
    ((answer D o (st_world s)).1,
     {| st_world := (answer D o (st_world s)).2; visited := visited s;
        stash := stash s;
        trace := trace s ++ [Called o (answer D o (st_world s)).1] |}).
Proof. unfold call. by destruct (answer D o (st_world s)). Qed.

Lemma quiet_ret {A : Type} P (a : A) : quiet P (ret (D := D) a).
Proof. intros s. apply extends_refl. Qed.

Lemma quiet_raise {A : Type} P (e : exn) : quiet P (raise (D := D) (A := A) e).
Proof. intros s. apply extends_refl. Qed.

Lemma quiet_bind {A B : Type} P (m : M D A) (f : A -> M D B) :
  quiet P m -> (forall a, quiet P (f a)) -> quiet P (bind m f).
Proof.
  intros Hm Hf s. unfold bind. specialize (Hm s).
  destruct (m s) as [[a|e] s1]; simpl in *; [|done].
  eapply extends_trans; [exact Hm | apply Hf].
Qed.

Lemma quiet_call {X : Type} P (o : op X) :
  (forall r, P (Called o r) = true) -> quiet P (call (D := D) o).
Proof.
  intros HP s. rewrite call_run. simpl. repeat split.
  eexists. split; [reflexivity|]. repeat constructor. apply HP.
Qed.

Lemma quiet_emit P (ev : event) : P ev = true -> quiet P (emit (D := D) ev).
Proof.
  intros HP s. unfold emit. simpl. repeat split.
  eexists. split; [reflexivity|]. by repeat constructor.
Qed.

Lemma quiet_log P lv msg :
  P (Logged lv msg) = true -> quiet P (log (D := D) lv msg).
Proof. apply quiet_emit. Qed.

Lemma quiet_try_except {A : Type} P (m handler : M D A) handles :
  quiet P m -> quiet P handler -> quiet P (try_except m handles handler).
Proof.
  intros Hm Hh s. unfold try_except. specialize (Hm s).
  destruct (m s) as [[a|e] s1]; simpl in *; [done|].
  destruct (handles e); [|done].
  eapply extends_trans; [exact Hm | apply Hh].
Qed.

Lemma quiet_try_finally {A : Type} P (m : M D A) (fin : M D unit) :
  quiet P m -> quiet P fin -> quiet P (try_finally m fin).
Proof.
  intros Hm Hf s. unfold try_finally. specialize (Hm s).
  destruct (m s) as [r s1]. specialize (Hf s1).
  destruct (fin s1) as [[[]|e] s2]; simpl in *;
    eapply extends_trans; eauto.
Qed.

Lemma quiet_get_visited P : quiet P (get_visited (D := D)).
Proof. intros s. apply extends_refl. Qed.

Lemma quiet_get_stash P : quiet P (get_stash (D := D)).
Proof. intros s. apply extends_refl. Qed.

Lemma quiet_mono {A : Type} P Q (m : M D A) :
  (forall ev, P ev = true -> Q ev = true) -> quiet P m -> quiet Q m.
Proof. intros HPQ Hm s. eapply extends_mono; eauto. Qed.

Lemma returns_ret {A : Type} (a : A) (P : A -> Prop) :
  P a -> returns (D := D) (ret a) P.
Proof. intros HP s a' [= <-]. done. Qed.

Lemma returns_bind {A B : Type} (m : M D A) (f : A -> M D B)
    (P : B -> Prop) :
  (forall a, returns (f a) P) -> returns (bind m f) P.
Proof.
  intros Hf s b. unfold bind.
  destruct (m s) as [[a|e] s1]; simpl; [apply Hf | discriminate].
Qed.

Lemma returns_try_except {A : Type} (m handler : M D A) handles
    (P : A -> Prop) :
  returns m P -> returns handler P -> returns (try_except m handles handler) P.
Proof.
  intros Hm Hh s a. unfold try_except. specialize (Hm s).
  destruct (m s) as [[a'|e] s1]; simpl in *; [apply Hm|].
  destruct (handles e); [apply Hh | discriminate].
Qed.

Lemma returns_try_finally {A : Type} (m : M D A) (fin : M D unit)
    (P : A -> Prop) :
  returns m P -> returns (try_finally m fin) P.
Proof.
  intros Hm s a. unfold try_finally. specialize (Hm s).
  destruct (m s) as [r s1].
  destruct (fin s1) as [[[]|e] s2]; simpl in *; [apply Hm | discriminate].
Qed.

Lemma hoare_bind {A B : Type} (P : state D -> Prop) (m : M D A)
    (f : A -> M D B) (Q1 : res A -> state D -> Prop)
    (Q : res B -> state D -> Prop) :
  hoare P m Q1 ->
  (forall a, hoare (Q1 (Ok a)) (f a) Q) ->
  (forall e s, Q1 (Raise e) s -> Q (Raise e) s) ->
  hoare P (bind m f) Q.
Proof.
  intros Hm Hf He s HP. unfold bind. specialize (Hm s HP).
  destruct (m s) as [[a|e] s1]; simpl in *; [by apply Hf | by apply He].
Qed.

Lemma hoare_weaken {A : Type} (P P' : state D -> Prop) (m : M D A)
    (Q Q' : res A -> state D -> Prop) :
  hoare P' m Q' ->
  (forall s, P s -> P' s) -> (forall r s, Q' r s -> Q r s) ->
  hoare P m Q.
Proof. intros H HP HQ s Hs. apply HQ, H, HP, Hs. Qed.

End LogicFacts.

Create HintDb quiet.

Ltac quiet_step :=
  lazymatch goal with
  | |- quiet _ (ret _) => apply quiet_ret
  | |- quiet _ (raise _) => apply quiet_raise
  | |- quiet _ get_visited => apply quiet_get_visited
  | |- quiet _ get_stash => apply quiet_get_stash
  | |- quiet _ (call _) => apply quiet_call; intros; reflexivity
  | |- quiet _ (log _ _) => apply quiet_log; reflexivity
  | |- quiet _ (bind _ _) => apply quiet_bind; [|intros]
  | |- quiet _ (try_except _ _ _) => apply quiet_try_except
  | |- quiet _ (try_finally _ _) => apply quiet_try_finally
  | |- quiet _ (if ?b then _ else _) => destruct b
  | |- quiet _ (match ?x with _ => _ end) => destruct x
  | |- quiet _ _ => solve [eauto with quiet]
  end.

Ltac quiet_tac := repeat quiet_step.

(** ** The two polling loops, unfolded once *)

Section Loops.

Context {D : driver}.

Lemma wait_rows_step (page : handle) (timeout_ms waited : Z) :
  wait_rows (D := D) page timeout_ms waited =
    if decide (waited < timeout_ms)
    then
      bind (call (Count page (Loc VISIBLE_ROW_LINK)))
        (fun n =>
           if (0 <? n)%nat then ret (Some tt)
           else
             bind (try_except (call (MouseWheel page 0 600)) any_exception
                     (ret tt))
               (fun _ =>
                  bind (call (WaitForTimeout page 200))
                    (fun _ => wait_rows page timeout_ms (waited + 200))))
    else ret None.
Proof.
  rewrite wait_rows_equation_1. unfold wait_rows_unfold_clause_1.
  by destruct (decide (waited < timeout_ms)).
Qed.

Lemma poll_signature_step (page : handle) (prev_sig : string) (waited : Z) :
  poll_signature (D := D) page prev_sig waited =
    if decide (waited < 10000)
    then
      bind (page_signature page)
        (fun sig =>
           if sig_changed prev_sig sig then ret true
           else
             bind (call (WaitForTimeout page 200))
               (fun _ => poll_signature page prev_sig (waited + 200)))
    else ret false.
Proof.
  rewrite poll_signature_equation_1. unfold poll_signature_unfold_clause_1.
  by destruct (decide (waited < 10000)).
Qed.

(** Induction on the budget left: a property of the loop at every [waited]
    follows from the property at [waited + 200] whenever [waited] is under
    the bound. *)
Lemma budget_ind (bound : Z) (P : Z -> Prop) :
  (forall waited,
     (waited < bound -> P (waited + 200)) -> P waited) ->
  forall waited, P waited.
Proof.
  intros Hstep waited.
  remember (Z.to_nat (bound - waited)) as n eqn:Hn.
  revert waited Hn. induction n as [n IH] using lt_wf_ind.
  intros waited Hn. apply Hstep. intros Hlt.
  apply (IH (Z.to_nat (bound - (waited + 200)))); [lia | reflexivity].
Qed.

Lemma quiet_wait_rows (page : handle) (timeout_ms waited : Z) :
  quiet is_wait_event (wait_rows (D := D) page timeout_ms waited).
Proof.
  revert waited. apply (budget_ind timeout_ms). intros waited IH.
  rewrite wait_rows_step. destruct (decide (waited < timeout_ms)).
  - quiet_tac.
  - quiet_tac.
Qed.
Hint Resolve quiet_wait_rows : quiet.

Lemma quiet_wait_table_ready (page : handle) (timeout_ms : Z) :
  quiet is_wait_event (wait_table_ready (D := D) page timeout_ms).
Proof. unfold wait_table_ready. quiet_tac. Qed.
Hint Resolve quiet_wait_table_ready : quiet.

Lemma wait_is_watch (ev : event) :
  is_wait_event ev = true -> is_watch_event ev = true.
Proof. destruct ev as [X o r| | |]; [|done..]. by destruct o as [? []| | | | | | | | | | | | | | | | | | | | | | |]. Qed.

Lemma quiet_watch_of_wait {A : Type} (m : M D A) :
  quiet is_wait_event m -> quiet is_watch_event m.
Proof. apply quiet_mono, wait_is_watch. Qed.

Lemma quiet_page_signature (page : handle) :
  quiet is_watch_event (page_signature (D := D) page).
Proof. unfold page_signature. quiet_tac. Qed.
Hint Resolve quiet_page_signature : quiet.

Lemma quiet_poll_signature (page : handle) (prev_sig : string) (waited : Z) :
  quiet is_watch_event (poll_signature (D := D) page prev_sig waited).
Proof.
  revert waited. apply (budget_ind 10000). intros waited IH.
  rewrite poll_signature_step. destruct (decide (waited < 10000)).
  - quiet_tac.
  - quiet_tac.
Qed.
Hint Resolve quiet_poll_signature : quiet.

Lemma quiet_collect_rows (page : handle) (v : gset string) :
  quiet is_watch_event (collect_rows (D := D) page v).
Proof. unfold collect_rows. quiet_tac. Qed.
Hint Resolve quiet_collect_rows : quiet.

Lemma watch_is_plain (ev : event) :
  is_watch_event ev = true -> is_plain_event ev = true.
Proof. by destruct ev. Qed.

Lemma detail_is_plain (ev : event) :
  is_detail_event ev = true -> is_plain_event ev = true.
Proof. by destruct ev. Qed.

Lemma quiet_plain_of_watch {A : Type} (m : M D A) :
  quiet is_watch_event m -> quiet is_plain_event m.
Proof. apply quiet_mono, watch_is_plain. Qed.

Lemma quiet_plain_of_detail {A : Type} (m : M D A) :
  quiet is_detail_event m -> quiet is_plain_event m.
Proof. apply quiet_mono, detail_is_plain. Qed.

Lemma quiet_click_next (page : handle) :
  quiet is_plain_event (click_next (D := D) page).
Proof.
  unfold click_next. quiet_tac; apply quiet_plain_of_watch;
    eauto using quiet_watch_of_wait with quiet.
Qed.
Hint Resolve quiet_click_next : quiet.

Lemma quiet_extract_from_context (get_text : string -> string) (ctx : handle) :
  quiet is_detail_event (extract_from_context (D := D) get_text ctx).
Proof. unfold extract_from_context. quiet_tac. Qed.
Hint Resolve quiet_extract_from_context : quiet.

Lemma quiet_pick_frame (page : handle) (frames : list handle) :
  quiet is_detail_event (pick_frame (D := D) page frames).
Proof.
  induction frames as [|fr rest IH]; simpl; quiet_tac; apply IH.
Qed.
Hint Resolve quiet_pick_frame : quiet.

Lemma quiet_pick_ctx (page : handle) :
  quiet is_detail_event (pick_ctx (D := D) page).
Proof. unfold pick_ctx. quiet_tac. Qed.
Hint Resolve quiet_pick_ctx : quiet.

Lemma quiet_open_details (get_text : string -> string) (page : handle)
    (href : string) :
  quiet is_detail_event (open_details (D := D) get_text page href).
Proof. unfold open_details. quiet_tac. Qed.
Hint Resolve quiet_open_details : quiet.

End Loops.

#[global] Hint Resolve quiet_wait_rows quiet_wait_table_ready
  quiet_page_signature quiet_poll_signature quiet_collect_rows
  quiet_click_next quiet_extract_from_context quiet_pick_frame quiet_pick_ctx
  quiet_open_details : quiet.

(** ** Row enumeration *)

Lemma filter_rows_spec_from (items : list (string * string))
    (v seen : gset string) (out earlier : list (string * string)) :
  (forall h, h ∈ seen <->
             h ∈ earlier.*1 /\ Text.nonempty h = true
             /\ Text.contains DETAIL_URL_PART h = true /\ h ∉ v) ->
  filter_rows items v seen out =
    out ++ omap id
             (imap (fun i entry =>
                      if Spec.is_new_row v (earlier ++ take i items) entry
                      then Some entry else None)
                items).
Proof.
  revert seen out earlier.
  induction items as [|[href text] rest IH]; intros seen out earlier Hseen.
  - simpl. by rewrite app_nil_r.
  - rewrite imap_cons. cbn [filter_rows omap take]. rewrite app_nil_r.
    assert (Hext : forall seen' out',
      (forall h, h ∈ seen' <->
                 h ∈ (earlier ++ [(href, text)]).*1 /\ Text.nonempty h = true
                 /\ Text.contains DETAIL_URL_PART h = true /\ h ∉ v) ->
      filter_rows rest v seen' out' =
        out' ++ omap id
          (imap ((fun i entry =>
                    if Spec.is_new_row v (earlier ++ take i ((href, text) :: rest))
                         entry
                    then Some entry else None) ∘ S) rest)).
    { intros seen' out' Hseen'. rewrite (IH _ _ _ Hseen'). do 2 f_equal.
      apply imap_ext. intros i entry _. simpl.
      by rewrite <- app_assoc. }
    unfold Spec.is_new_row at 1. cbn [fst].
    destruct (Text.nonempty href) eqn:Hne; cbn [negb orb andb].
    2:{ apply Hext. intros h. rewrite Hseen, fmap_app, elem_of_app.
        cbn. rewrite list_elem_of_singleton.
        intuition (subst; auto; congruence). }
    destruct (Text.contains DETAIL_URL_PART href) eqn:Hc; cbn [negb orb andb].
    2:{ apply Hext. intros h. rewrite Hseen, fmap_app, elem_of_app.
        cbn. rewrite list_elem_of_singleton.
        intuition (subst; auto; congruence). }
    destruct (decide (href ∈ v)) as [Hv|Hv].
    { rewrite (bool_decide_eq_true_2 _ Hv).
      rewrite (bool_decide_eq_false_2 (href ∉ v)) by tauto.
      cbn [orb andb]. apply Hext. intros h.
      rewrite Hseen, fmap_app, elem_of_app.
      cbn. rewrite list_elem_of_singleton.
      intuition (subst; auto; congruence). }
    rewrite (bool_decide_eq_false_2 _ Hv), (bool_decide_eq_true_2 _ Hv).
    cbn [orb andb].
    destruct (decide (href ∈ seen)) as [Hs|Hs].
    { rewrite (bool_decide_eq_true_2 _ Hs).
      rewrite bool_decide_eq_false_2 by (apply Hseen in Hs; tauto).
      apply Hext. intros h. rewrite Hseen, fmap_app, elem_of_app.
      cbn. rewrite list_elem_of_singleton.
      split; [tauto|]. intros [[?| ->] ?]; [tauto|]. by apply Hseen. }
    rewrite (bool_decide_eq_false_2 _ Hs).
    rewrite bool_decide_eq_true_2 by (rewrite Hseen in Hs; tauto).
    cbn [omap id]. rewrite Hext with (seen' := {[href]} ∪ seen).
    + cbn. by rewrite <- app_assoc.
    + intros h. rewrite elem_of_union, elem_of_singleton, Hseen.
      rewrite fmap_app, elem_of_app. cbn. rewrite list_elem_of_singleton.
      intuition (subst; auto; congruence).
Qed.

Lemma filter_rows_spec (items : list (string * string)) (v : gset string) :
  filter_rows items v ∅ [] = Spec.enumerateNewRows items v.
Proof.
  rewrite (filter_rows_spec_from items v ∅ [] []); [reflexivity|].
  intros h. split; [set_solver|]. intros [H _]. by apply elem_of_nil in H.
Qed.

Lemma filter_rows_props (items : list (string * string))
    (v seen : gset string) (out : list (string * string)) :
  (forall h, h ∈ seen <-> h ∈ out.*1) ->
  NoDup out.*1 ->
  (forall h, h ∈ out.*1 -> h ∉ v) ->
  NoDup (filter_rows items v seen out).*1
  /\ (forall h, h ∈ (filter_rows items v seen out).*1 -> h ∉ v)
  /\ (forall h, h ∈ out.*1 -> h ∈ (filter_rows items v seen out).*1)
  /\ (forall h t, (h, t) ∈ items -> Text.nonempty h = true ->
        Text.contains DETAIL_URL_PART h = true ->
        h ∈ v \/ h ∈ (filter_rows items v seen out).*1).
Proof.
  revert seen out.
  induction items as [|[href text] rest IH]; intros seen out Hseen Hnd Hv.
  - simpl. repeat split; auto. intros h t H. by apply elem_of_nil in H.
  - cbn [filter_rows].
    assert (Hdrop :
      (Text.nonempty href = true ->
       Text.contains DETAIL_URL_PART href = true ->
       href ∈ v \/ href ∈ seen) ->
      NoDup (filter_rows rest v seen out).*1
      /\ (forall h, h ∈ (filter_rows rest v seen out).*1 -> h ∉ v)
      /\ (forall h, h ∈ out.*1 -> h ∈ (filter_rows rest v seen out).*1)
      /\ (forall h t, (h, t) ∈ (href, text) :: rest ->
            Text.nonempty h = true ->
            Text.contains DETAIL_URL_PART h = true ->
            h ∈ v \/ h ∈ (filter_rows rest v seen out).*1)).
    { intros Hhead.
      destruct (IH seen out Hseen Hnd Hv) as (H1 & H2 & H3 & H4).
      repeat split; auto. intros h t Hin Hne Hc.
      apply elem_of_cons in Hin as [[= -> ->]|Hin]; [|eauto].
      destruct (Hhead Hne Hc) as [?|Hs]; [by left|].
      right. by apply H3, Hseen. }
    destruct (Text.nonempty href) eqn:Hne; cbn [negb orb];
      [|apply Hdrop; discriminate].
    destruct (Text.contains DETAIL_URL_PART href) eqn:Hc; cbn [negb orb];
      [|apply Hdrop; discriminate].
    destruct (decide (href ∈ v)) as [Hhv|Hhv].
    { rewrite (bool_decide_eq_true_2 _ Hhv). cbn [orb]. apply Hdrop. auto. }
    rewrite (bool_decide_eq_false_2 _ Hhv). cbn [orb].
    destruct (decide (href ∈ seen)) as [Hs|Hs].
    { rewrite (bool_decide_eq_true_2 _ Hs). apply Hdrop. auto. }
    rewrite (bool_decide_eq_false_2 _ Hs).
    destruct (IH ({[href]} ∪ seen) (out ++ [(href, text)]))
      as (H1 & H2 & H3 & H4).
    + intros h. rewrite elem_of_union, elem_of_singleton, fmap_app,
        elem_of_app, Hseen. cbn. rewrite list_elem_of_singleton. tauto.
    + rewrite fmap_app. apply NoDup_app. repeat split; [done| |].
      * intros h Hin. cbn. rewrite list_elem_of_singleton. intros ->.
        by apply Hs, Hseen.
      * cbn. apply NoDup_singleton.
    + intros h. rewrite fmap_app, elem_of_app. cbn.
      rewrite list_elem_of_singleton. intros [?| ->]; auto.
    + repeat split; auto.
      * intros h Hin. apply H3. rewrite fmap_app, elem_of_app. by left.
      * intros h t Hin Hne' Hc'.
        apply elem_of_cons in Hin as [[= -> ->]|Hin]; [|eauto].
        right. apply H3. rewrite fmap_app, elem_of_app. right.
        cbn. by apply list_elem_of_singleton.
Qed.

Lemma filter_rows_fresh (items : list (string * string)) (v : gset string) :
  NoDup (filter_rows items v ∅ []).*1
  /\ (forall h, h ∈ (filter_rows items v ∅ []).*1 -> h ∉ v)
  /\ (forall h t, (h, t) ∈ items -> Text.nonempty h = true ->
        Text.contains DETAIL_URL_PART h = true ->
        h ∈ v \/ h ∈ (filter_rows items v ∅ []).*1).
Proof.
  destruct (filter_rows_props items v ∅ []) as (H1 & H2 & _ & H4).
  - intros h. split; intros H.
    + by apply elem_of_empty in H.
    + by apply elem_of_nil in H.
  - constructor.
  - intros h H. by apply elem_of_nil in H.
  - auto.
Qed.

Lemma filter_rows_visited (items : list (string * string))
    (v seen : gset string) (out : list (string * string)) :
  (forall h t, (h, t) ∈ items -> Text.nonempty h = true ->
     Text.contains DETAIL_URL_PART h = true -> h ∈ v) ->
  filter_rows items v seen out = out.
Proof.
  revert seen out. induction items as [|[href text] rest IH];
    intros seen out Hall; [reflexivity|].
  cbn [filter_rows].
  assert (Hrest : filter_rows rest v seen out = out).
  { apply IH. intros h t Hin. apply (Hall h t). by right. }
  destruct (Text.nonempty href) eqn:Hne; cbn [negb orb]; [|exact Hrest].
  destruct (Text.contains DETAIL_URL_PART href) eqn:Hc; cbn [negb orb];
    [|exact Hrest].
  rewrite bool_decide_eq_true_2; [exact Hrest|].
  apply (Hall href text); [by left | done..].
Qed.

Lemma collect_rows_run {D : driver} (page : handle) (v : gset string)
    (s : state D) :
  (collect_rows page v s).1 =
    match (answer D (EvaluateAll page (Loc VISIBLE_ROW_LINK)) (st_world s)).1
    with
    | Ok els => Ok (filter_rows (js_items els) v ∅ [])
    | Raise e => Raise e
    end
  /\ trace (collect_rows page v s).2 =
       trace s ++ [Called (EvaluateAll page (Loc VISIBLE_ROW_LINK))
                     (answer D (EvaluateAll page (Loc VISIBLE_ROW_LINK))
                        (st_world s)).1]
  /\ visited (collect_rows page v s).2 = visited s
  /\ stash (collect_rows page v s).2 = stash s.
Proof.
  unfold collect_rows, bind. rewrite call_run.
  by destruct (answer D _ (st_world s)) as [[els|e] w].
Qed.

(** C6: [collect_rows] returns exactly the entries of the batch it read whose
    token is non-empty, contains the detail-link pattern, is not in [visited]
    and has not occurred earlier in the batch, in render order (so the first
    occurrence of a repeated token is the one kept). *)
Theorem collect_rows_enumerates_new_rows (D : driver) (page : handle)
    (v : gset string) (s : state D) :
  (forall batch, filter_rows batch v ∅ [] = Spec.enumerateNewRows batch v)
  /\ (collect_rows page v s).1 =
       match (answer D (EvaluateAll page (Loc VISIBLE_ROW_LINK))
                (st_world s)).1 with
       | Ok els => Ok (Spec.enumerateNewRows (js_items els) v)
       | Raise e => Raise e
       end.
Proof.
  split; [intros batch; apply filter_rows_spec|].
  destruct (collect_rows_run page v s) as (-> & _).
  destruct (answer D _ (st_world s)).1; [|reflexivity].
  by rewrite filter_rows_spec.
Qed.

(** ** Records returned by the detail fetcher *)

Lemma first_match_here (here : list ascii -> option (list ascii))
    (s token : list ascii) :
  Spec.first_match here s = Some token -> exists s', here s' = Some token.
Proof.
  intros H. apply first_match_Some in H as (i & Hi & _). eauto.
Qed.

Lemma contract_here_length (s token : list ascii) :
  Spec.contract_here s = Some token -> (3 <= length token)%nat.
Proof.
  unfold Spec.contract_here.
  destruct (Spec.strip_word _ s) as [s1|]; [|discriminate].
  destruct (Spec.span Text.isspace s1) as [ws s2].
  destruct (Spec.span contract_char s2) as [tok rest].
  destruct (1 <=? length ws)%nat; [|discriminate].
  destruct (3 <=? length tok)%nat eqn:H; [|discriminate].
  intros [= <-]. by apply Nat.leb_le.
Qed.

Lemma amount_here_length (s token : list ascii) :
  Spec.amount_here s = Some token -> (1 <= length token)%nat.
Proof.
  unfold Spec.amount_here.
  destruct (Spec.strip_word _ s) as [s1|]; [|discriminate].
  destruct (Spec.strip_word _ (Spec.span Text.isspace s1).2) as [s2|];
    [|discriminate].
  destruct (Spec.strip_word _ (Spec.span Text.isspace s2).2) as [s3|];
    [|discriminate].
  destruct (Spec.span amount_char _) as [tok rest].
  destruct (1 <=? length tok)%nat eqn:H; [|discriminate].
  intros [= <-]. by apply Nat.leb_le.
Qed.

Lemma extract_well_formed (text : string) : well_formed (_extract text).
Proof.
  split.
  - rewrite extract_contract.
    destruct (Spec.first_match _ _) as [tok|] eqn:H; [|discriminate].
    apply first_match_here in H as [s' H]. apply contract_here_length in H.
    destruct tok; [simpl in H; lia | discriminate].
  - rewrite extract_amount.
    destruct (Spec.first_match _ _) as [tok|] eqn:H; [|discriminate].
    apply first_match_here in H as [s' H]. apply amount_here_length in H.
    destruct tok; [simpl in H; lia | discriminate].
Qed.

(** On a well-formed record the truth test of the orchestrator is the
    presence of both fields. *)
Lemma truthy_complete (d : ContractData) :
  well_formed d ->
  Text.truthy (contract d) && Text.truthy (amount d) = complete d.
Proof.
  intros [Hc Ha]. unfold complete.
  destruct (contract d) as [[|]|], (amount d) as [[|]|]; simpl; congruence.
Qed.

Section Returns.

Context {D : driver}.

Lemma returns_bind_with {A B : Type} (m : M D A) (f : A -> M D B)
    (P1 : A -> Prop) (P : B -> Prop) :
  returns m P1 -> (forall a, P1 a -> returns (f a) P) -> returns (bind m f) P.
Proof.
  intros Hm Hf s b. unfold bind. specialize (Hm s).
  destruct (m s) as [[a|e] s1]; simpl in *; [|discriminate].
  apply Hf. by apply Hm.
Qed.

Lemma returns_extract_from_context (get_text : string -> string)
    (ctx : handle) :
  returns (extract_from_context (D := D) get_text ctx) well_formed.
Proof.
  unfold extract_from_context.
  apply returns_bind_with
    with (P1 := fun q => forall d, q = Some d -> well_formed d).
  - apply returns_try_except.
    + do 2 (apply returns_bind; intros ?).
      destruct (_ && _); apply returns_ret; intros d [= <-];
        apply extract_well_formed.
    + apply returns_ret. discriminate.
  - intros [d|] Hq.
    + apply returns_ret. by apply Hq.
    + apply returns_bind. intros html. apply returns_ret.
      apply extract_well_formed.
Qed.

Lemma returns_open_details (get_text : string -> string) (page : handle)
    (href : string) :
  returns (open_details (D := D) get_text page href) well_formed.
Proof.
  unfold open_details. do 2 (apply returns_bind; intros ?).
  apply returns_try_finally. do 3 (apply returns_bind; intros ?).
  apply returns_extract_from_context.
Qed.

End Returns.

(** ** One row *)

Ltac set_tac :=
  apply set_eq; intros ?;
  rewrite ?elem_of_union, ?elem_of_list_to_set, ?elem_of_cons,
    ?elem_of_union, ?elem_of_singleton, ?elem_of_nil, ?elem_of_empty;
  tauto.

Ltac list_assoc :=
  repeat (progress (rewrite <- ?app_assoc; cbn [app])); reflexivity.

Section Rows.

Context {D : driver} (get_text : string -> string).
Implicit Types (s : state D).

Lemma open_details_and_extract_run (page : handle) (h : string) s :
  exists evs,
    trace (open_details_and_extract get_text page h s).2 =
      trace s ++ FetchCall h :: evs
        ++ [FetchReturn h (open_details_and_extract get_text page h s).1]
    /\ Forall (fun ev => is_detail_event ev = true) evs
    /\ visited (open_details_and_extract get_text page h s).2 = visited s
    /\ stash (open_details_and_extract get_text page h s).2 = stash s
    /\ forall d, (open_details_and_extract get_text page h s).1 = Ok d ->
                 well_formed d.
Proof.
  unfold open_details_and_extract, bind, emit. simpl.
  match goal with |- context [open_details _ _ _ ?s1] => set (s1' := s1) end.
  destruct (quiet_open_details get_text page h s1') as (Hv & Hs & evs & Ht & HP).
  pose proof (returns_open_details get_text page h s1') as Hwf.
  destruct (open_details get_text page h s1') as [r0 s2]. simpl in *.
  exists evs. rewrite Ht. split_and!; auto.
  by rewrite <- !app_assoc.
Qed.

(** What processing one row does, in full. *)
Lemma process_row_run (page : handle) (idx : Z) (h t : string) s :
  exists evs r0 tail,
    trace (process_row get_text page idx (h, t) s).2 =
      trace s ++ Logged INFO (MsgClickingRow idx t) :: FetchCall h :: evs
        ++ FetchReturn h r0 :: tail
    /\ Forall (fun ev => is_detail_event ev = true) evs
    /\ visited (process_row get_text page idx (h, t) s).2 = {[h]} ∪ visited s
    /\ match r0 with
       | Raise e =>
           (process_row get_text page idx (h, t) s).1 = Raise e
           /\ tail = []
           /\ stash (process_row get_text page idx (h, t) s).2 = stash s
       | Ok d =>
           (process_row get_text page idx (h, t) s).1 = Ok tt
           /\ well_formed d
           /\ if complete d
              then tail = [Logged INFO (MsgExtracted d)]
                   /\ stash (process_row get_text page idx (h, t) s).2 =
                        stash s ++ [d]
              else tail = [Logged WARNING (MsgFailedToExtract h)]
                   /\ stash (process_row get_text page idx (h, t) s).2 =
                        stash s
       end.
Proof.
  destruct (process_row get_text page idx (h, t) s) as [r s'] eqn:E.
  unfold process_row, bind, log, emit, try_finally, visited_add in E.
  simpl in E.
  match type of E with
  | context [open_details_and_extract _ _ _ ?s1] => set (s1' := s1) in E
  end.
  destruct (open_details_and_extract_run page h s1')
    as (evs & Ht & HP & Hv & Hs & Hwf).
  destruct (open_details_and_extract get_text page h s1') as [[d|e] s2];
    simpl in *.
  - specialize (Hwf d eq_refl). rewrite (truthy_complete d Hwf) in E.
    exists evs, (Ok d). destruct (complete d); simpl in E;
      injection E as <- <-; simpl; eexists; rewrite Ht, Hv, Hs;
      (split_and!; [|done..]); list_assoc.
  - injection E as <- <-. exists evs, (Raise e), []. simpl.
    rewrite Ht, Hv, Hs. split_and!; [|done..]. list_assoc.
Qed.

End Rows.

(** ** Reading traces *)

Lemma fetched_app (a b : list event) : fetched (a ++ b) = fetched a ++ fetched b.
Proof. apply omap_app. Qed.

Lemma outcomes_app (a b : list event) :
  outcomes (a ++ b) = outcomes a ++ outcomes b.
Proof. apply omap_app. Qed.

Lemma fetched_plain (evs : list event) :
  Forall (fun ev => is_plain_event ev = true) evs -> fetched evs = [].
Proof.
  induction 1 as [|ev evs Hev _ IH]; [reflexivity|].
  destruct ev; try discriminate; exact IH.
Qed.

Lemma outcomes_plain (evs : list event) :
  Forall (fun ev => is_plain_event ev = true) evs -> outcomes evs = [].
Proof.
  induction 1 as [|ev evs Hev _ IH]; [reflexivity|].
  destruct ev; try discriminate; exact IH.
Qed.

Lemma plain_not_fetch_return (evs : list event) (h : string)
    (r : res ContractData) :
  Forall (fun ev => is_plain_event ev = true) evs -> FetchReturn h r ∉ evs.
Proof.
  intros HP Hin. rewrite Forall_forall in HP. by apply HP in Hin.
Qed.

Lemma detail_events_plain (evs : list event) :
  Forall (fun ev => is_detail_event ev = true) evs ->
  Forall (fun ev => is_plain_event ev = true) evs.
Proof. intros H. eapply Forall_impl; [exact H | apply detail_is_plain]. Qed.

Lemma detail_not_evaluate_all (ev : event) :
  is_detail_event ev = true -> is_evaluate_all ev = false.
Proof. destruct ev as [X o r| | |]; [|done..]. by destruct o. Qed.

Lemma wait_not_evaluate_all (ev : event) :
  is_wait_event ev = true -> is_evaluate_all ev = false.
Proof. destruct ev as [X o r| | |]; [|done..]. by destruct o. Qed.

Section Invariants.

Context {D : driver} (get_text : string -> string).
Implicit Types (s : state D).

Lemma quiet_fetched_once {A : Type} (m : M D A) :
  quiet is_plain_event m -> hoare fetched_once m (fun _ => fetched_once).
Proof.
  intros Hm s [Hnd Hin]. destruct (Hm s) as (Hv & _ & evs & Ht & HP).
  unfold fetched_once.
  rewrite Ht, fetched_app, (fetched_plain _ HP), app_nil_r, Hv. auto.
Qed.

Lemma quiet_stash_complete {A : Type} (m : M D A) :
  quiet is_plain_event m -> hoare stash_complete m (fun _ => stash_complete).
Proof.
  intros Hm s [Hst Hlog]. destruct (Hm s) as (_ & Hs & evs & Ht & HP).
  unfold stash_complete.
  rewrite Ht, outcomes_app, (outcomes_plain _ HP), app_nil_r, Hs.
  split; [done|]. intros h d Hin Hc. apply elem_of_app. left.
  apply elem_of_app in Hin as [Hin|Hin]; [eauto|].
  by apply plain_not_fetch_return in Hin.
Qed.

Lemma quiet_failure_is_final {A : Type} (m : M D A) :
  quiet is_plain_event m ->
  hoare (fun s => no_failed_fetch (trace s)) m failure_is_final.
Proof.
  intros Hm s Hclean. destruct (Hm s) as (_ & _ & evs & Ht & HP).
  intros h e Hin. rewrite Ht in Hin.
  apply elem_of_app in Hin as [Hin|Hin]; [by apply Hclean in Hin|].
  by apply plain_not_fetch_return in Hin.
Qed.

Lemma failure_is_final_ok {A : Type} (a : A) s :
  failure_is_final (Ok a) s -> no_failed_fetch (trace s).
Proof. intros H h e Hin. by destruct (H h e Hin) as [? _]. Qed.

Lemma failure_is_final_raise {A B : Type} (e : exn) s :
  failure_is_final (Raise e : res A) s -> failure_is_final (Raise e : res B) s.
Proof.
  intros H h e' Hin. destruct (H h e' Hin) as [[= ->] ?]. by split.
Qed.

(** The fetches, the outcomes and the shape of the events of one row. *)
Lemma process_row_events (page : handle) (idx : Z) (h t : string) s :
  exists evs r0,
    trace (process_row get_text page idx (h, t) s).2 = trace s ++ evs
    /\ fetched evs = [h]
    /\ outcomes evs = match r0 with Ok d => [d] | Raise _ => [] end
    /\ Forall (fun ev => is_evaluate_all ev = false) evs
    /\ visited (process_row get_text page idx (h, t) s).2 = {[h]} ∪ visited s
    /\ (forall h' r', FetchReturn h' r' ∈ evs -> h' = h /\ r' = r0)
    /\ match r0 with
       | Raise e =>
           (process_row get_text page idx (h, t) s).1 = Raise e
           /\ (exists evs', evs = evs' ++ [FetchReturn h (Raise e)]
                            /\ no_failed_fetch evs')
           /\ stash (process_row get_text page idx (h, t) s).2 = stash s
       | Ok d =>
           (process_row get_text page idx (h, t) s).1 = Ok tt
           /\ well_formed d
           /\ stash (process_row get_text page idx (h, t) s).2 =
                stash s ++ List.filter complete [d]
           /\ (complete d = false ->
               Logged WARNING (MsgFailedToExtract h) ∈ evs)
       end.
Proof.
  destruct (process_row_run get_text page idx h t s)
    as (evs & r0 & tail & Ht & HP & Hv & Hr).
  pose proof (detail_events_plain _ HP) as HP'.
  assert (Htail : Forall (fun ev => is_plain_event ev = true) tail
                  /\ Forall (fun ev => is_evaluate_all ev = false) tail).
  { destruct r0 as [d|e].
    - destruct Hr as (_ & _ & Hr). destruct (complete d);
        destruct Hr as [-> _]; split; by repeat constructor.
    - destruct Hr as (_ & -> & _). split; constructor. }
  destruct Htail as [Htp Hte].
  exists ([Logged INFO (MsgClickingRow idx t); FetchCall h] ++ evs
            ++ [FetchReturn h r0] ++ tail), r0.
  split_and!; [done| | | |done| |].
  - rewrite !fetched_app, (fetched_plain _ HP'), (fetched_plain _ Htp).
    reflexivity.
  - rewrite !outcomes_app, (outcomes_plain _ HP'), (outcomes_plain _ Htp).
    by destruct r0.
  - apply Forall_app. split; [by repeat constructor|].
    apply Forall_app. split.
    + eapply Forall_impl; [exact HP | apply detail_not_evaluate_all].
    + by constructor.
  - intros h' r' Hin.
    apply elem_of_app in Hin as [Hin|Hin].
    { apply elem_of_cons in Hin as [?|Hin]; [done|].
      apply elem_of_cons in Hin as [?|Hin]; [done|].
      by apply elem_of_nil in Hin. }
    apply elem_of_app in Hin as [Hin|Hin];
      [by apply plain_not_fetch_return in Hin|].
    apply elem_of_cons in Hin as [[= -> ->]|Hin]; [done|].
    by apply plain_not_fetch_return in Hin.
  - destruct r0 as [d|e].
    + destruct Hr as (Hr & Hwf & Hc). split_and!; [done..| |].
      * unfold List.filter. destruct (complete d); destruct Hc as [_ Hc];
          rewrite Hc; [done | by rewrite app_nil_r].
      * intros Hcd. rewrite Hcd in Hc. destruct Hc as [-> _].
        rewrite !elem_of_app. right. right. right. by left.
    + destruct Hr as (Hr & -> & Hs). split_and!; [done| |done].
      exists ([Logged INFO (MsgClickingRow idx t); FetchCall h] ++ evs).
      split; [list_assoc|]. intros h' e' Hin.
      apply elem_of_app in Hin as [Hin|Hin].
      { apply elem_of_cons in Hin as [?|Hin]; [done|].
        apply elem_of_cons in Hin as [?|Hin]; [done|].
        by apply elem_of_nil in Hin. }
      by apply plain_not_fetch_return in Hin.
Qed.

End Invariants.

(** ** The rows of one page *)

Section Pages.

Context {D : driver} (get_text : string -> string).
Implicit Types (s : state D).

Lemma process_rows_run (page : handle) (rows : list (string * string))
    (idx : Z) s :
  exists evs,
    trace (process_rows get_text page idx rows s).2 = trace s ++ evs
    /\ Forall (fun ev => is_evaluate_all ev = false) evs
    /\ visited (process_rows get_text page idx rows s).2 =
         list_to_set (fetched evs) ∪ visited s
    /\ fetched evs `prefix_of` rows.*1
    /\ ((process_rows get_text page idx rows s).1 = Ok tt ->
        fetched evs = rows.*1).
Proof.
  revert idx s. induction rows as [|[h t] rest IH]; intros idx s.
  - exists []. simpl. rewrite app_nil_r. split_and!; auto.
    set_tac.
  - cbn [process_rows]. unfold bind.
    destruct (process_row_events get_text page idx h t s)
      as (evs1 & r0 & Ht1 & Hf1 & _ & He1 & Hv1 & _ & Hr).
    destruct (process_row get_text page idx (h, t) s) as [[[]|e] s1];
      simpl in *.
    + destruct (IH (idx + 1) s1) as (evs2 & Ht2 & He2 & Hv2 & Hp2 & Hok2).
      exists (evs1 ++ evs2). rewrite fetched_app, Hf1.
      split_and!.
      * by rewrite Ht2, Ht1, app_assoc.
      * by apply Forall_app.
      * rewrite Hv2, Hv1. simpl. set_tac.
      * simpl. by apply prefix_cons.
      * intros Hok. simpl. f_equal. by apply Hok2.
    + exists evs1. rewrite Hf1. split_and!; auto.
      * rewrite Hv1. simpl. set_tac.
      * simpl. apply prefix_cons, prefix_nil.
      * discriminate.
Qed.

Lemma process_row_stash_complete (page : handle) (idx : Z)
    (row : string * string) :
  hoare stash_complete (process_row (D := D) get_text page idx row)
    (fun _ => stash_complete).
Proof.
  destruct row as [h t]. intros s [Hst Hlog].
  destruct (process_row_events get_text page idx h t s)
    as (evs & r0 & Ht & _ & Ho & _ & _ & Hret & Hr).
  unfold stash_complete. rewrite Ht, outcomes_app, Ho, List.filter_app.
  split.
  - destruct r0 as [d|e].
    + destruct Hr as (_ & _ & -> & _). by rewrite Hst.
    + destruct Hr as (_ & _ & ->). simpl. by rewrite app_nil_r.
  - intros h' d' Hin Hc. apply elem_of_app.
    apply elem_of_app in Hin as [Hin|Hin]; [left; eauto|right].
    destruct (Hret _ _ Hin) as [-> <-].
    destruct Hr as (_ & _ & _ & Hw). by apply Hw.
Qed.

Lemma process_row_failure_is_final (page : handle) (idx : Z)
    (row : string * string) :
  hoare (fun s => no_failed_fetch (trace s))
    (process_row (D := D) get_text page idx row) failure_is_final.
Proof.
  destruct row as [h t]. intros s Hclean.
  destruct (process_row_events get_text page idx h t s)
    as (evs & r0 & Ht & _ & _ & _ & _ & Hret & Hr).
  intros h' e' Hin. rewrite Ht in Hin |- *.
  apply elem_of_app in Hin as [Hin|Hin]; [by apply Hclean in Hin|].
  destruct (Hret _ _ Hin) as [-> <-].
  destruct Hr as (Hr & (evs' & -> & Hc') & _). split; [done|].
  exists (trace s ++ evs'). split; [by rewrite app_assoc|].
  intros h'' e'' Hin''. apply elem_of_app in Hin'' as [H|H];
    [by apply Hclean in H | by apply Hc' in H].
Qed.

Lemma process_rows_stash_complete (page : handle) (idx : Z)
    (rows : list (string * string)) :
  hoare stash_complete (process_rows (D := D) get_text page idx rows)
    (fun _ => stash_complete).
Proof.
  revert idx. induction rows as [|row rest IH]; intros idx.
  - by intros s.
  - cbn [process_rows]. eapply hoare_bind.
    + apply process_row_stash_complete.
    + intros a. apply IH.
    + auto.
Qed.

Lemma process_rows_failure_is_final (page : handle) (idx : Z)
    (rows : list (string * string)) :
  hoare (fun s => no_failed_fetch (trace s))
    (process_rows (D := D) get_text page idx rows) failure_is_final.
Proof.
  revert idx. induction rows as [|row rest IH]; intros idx.
  - intros s Hc h e Hin. by apply Hc in Hin.
  - cbn [process_rows]. eapply hoare_bind.
    + apply process_row_failure_is_final.
    + intros a s Hs. apply IH. by apply failure_is_final_ok in Hs.
    + intros e s. apply failure_is_final_raise.
Qed.

End Pages.

(** ** One table page *)

Section Table.

Context {D : driver} (get_text : string -> string).
Implicit Types (s : state D).

(** What processing the current table does: it waits, reads one batch, and
    fetches the new rows of that batch in order, stopping at the first
    failure. *)
Lemma process_current_table_run (page : handle) s :
  exists evs0,
    Forall (fun ev => is_wait_event ev = true) evs0
    /\ ((exists e,
           (process_current_table get_text page s).1 = Raise e
           /\ trace (process_current_table get_text page s).2 = trace s ++ evs0
           /\ visited (process_current_table get_text page s).2 = visited s)
        \/ exists rc evs1,
             trace (process_current_table get_text page s).2 =
               trace s ++ evs0
                 ++ Called (EvaluateAll page (Loc VISIBLE_ROW_LINK)) rc :: evs1
             /\ Forall (fun ev => is_evaluate_all ev = false) evs1
             /\ visited (process_current_table get_text page s).2 =
                  list_to_set (fetched evs1) ∪ visited s
             /\ match rc with
                | Raise e =>
                    (process_current_table get_text page s).1 = Raise e
                    /\ evs1 = []
                | Ok els =>
                    fetched evs1 `prefix_of`
                      (filter_rows (js_items els) (visited s) ∅ []).*1
                    /\ ((process_current_table get_text page s).1 = Ok tt ->
                        fetched evs1 =
                          (filter_rows (js_items els) (visited s) ∅ []).*1)
                end).
Proof.
  unfold process_current_table, bind.
  destruct (quiet_wait_table_ready (D := D) page 10000 s)
    as (Hv0 & _ & evs0 & Ht0 & HP0).
  exists evs0. split; [done|].
  destruct (wait_table_ready page 10000 s) as [[[]|e] s1]; simpl in *;
    [|left; eauto].
  right. unfold get_visited. simpl.
  destruct (collect_rows_run page (visited s1) s1) as (Hr & Ht & Hv & _).
  destruct (collect_rows page (visited s1) s1) as [rr s2]. simpl in *.
  match type of Ht with
  | _ = _ ++ [Called _ ?x] => set (rc := x) in *
  end.
  exists rc. rewrite Hv0 in *.
  destruct rc as [els|e]; subst rr.
  - destruct (filter_rows (js_items els) (visited s) ∅ []) as [|row rows] eqn:Hrows.
    + exists []. simpl. rewrite Ht, Ht0, Hv, <- app_assoc.
      split_and!; auto. set_tac.
    + unfold bind, log, emit. cbv beta iota zeta.
      match goal with
      | |- context [process_rows _ _ _ _ ?s3] => set (s3' := s3)
      end.
      destruct (process_rows_run get_text page (row :: rows) 1 s3')
        as (evs & Hte & He & Hve & Hpe & Hoke).
      exists (Logged INFO (MsgFoundRows (length (row :: rows))) :: evs).
      rewrite Hte, Hve. simpl. rewrite Ht, Ht0, Hv.
      split_and!; auto; try list_assoc; try by constructor.
  - exists []. simpl. rewrite Ht, Ht0, Hv, <- app_assoc.
    split_and!; auto. set_tac.
Qed.

Lemma process_current_table_fetched_once (page : handle) :
  hoare fetched_once (process_current_table (D := D) get_text page)
    (fun _ => fetched_once).
Proof.
  intros s [Hnd Hin].
  destruct (process_current_table_run page s) as (evs0 & HP0 & Hrun).
  assert (Hf0 : fetched evs0 = []).
  { apply fetched_plain. eapply Forall_impl; [exact HP0|].
    intros ev Hev. by apply watch_is_plain, wait_is_watch. }
  unfold fetched_once.
  destruct Hrun as [(e & _ & -> & ->)|(rc & evs1 & -> & _ & -> & Hrc)].
  { rewrite fetched_app, Hf0, app_nil_r. auto. }
  rewrite !fetched_app, Hf0. cbn [app].
  change (fetched (Called (EvaluateAll page (Loc VISIBLE_ROW_LINK)) rc :: evs1))
    with (fetched evs1).
  destruct rc as [els|e].
  2:{ destruct Hrc as [_ ->]. simpl. rewrite app_nil_r. split; [done|].
      intros h Hh. apply elem_of_union. right. auto. }
  destruct Hrc as [Hpre _].
  destruct (filter_rows_fresh (js_items els) (visited s)) as (Hnd' & Hnv & _).
  destruct Hpre as [rest Hrest]. rewrite Hrest in Hnd', Hnv.
  apply NoDup_app in Hnd' as (Hnd1 & _ & _).
  split.
  - apply NoDup_app. split_and!; [done| |done].
    intros h Hh Hh'. apply (Hnv h); [apply elem_of_app; by left|auto].
  - intros h Hh. apply elem_of_union. rewrite elem_of_list_to_set.
    apply elem_of_app in Hh as [Hh|Hh]; auto.
Qed.

End Table.

(** ** Whole runs *)

Section Runs.

Context {D : driver} (get_text : string -> string).
Implicit Types (s : state D).

Lemma invariant_bind {A B : Type} (I : state D -> Prop) (m : M D A)
    (f : A -> M D B) :
  hoare I m (fun _ => I) -> (forall a, hoare I (f a) (fun _ => I)) ->
  hoare I (bind m f) (fun _ => I).
Proof. intros Hm Hf. eapply hoare_bind; eauto. Qed.

Lemma failure_bind {A B : Type} (m : M D A) (f : A -> M D B) :
  hoare (fun s => no_failed_fetch (trace s)) m failure_is_final ->
  (forall a, hoare (fun s => no_failed_fetch (trace s)) (f a)
               failure_is_final) ->
  hoare (fun s => no_failed_fetch (trace s)) (bind m f) failure_is_final.
Proof.
  intros Hm Hf. eapply hoare_bind; [exact Hm | |].
  - intros a s Hs. apply Hf. by apply failure_is_final_ok in Hs.
  - intros e s. apply failure_is_final_raise.
Qed.

Lemma process_current_table_stash_complete (page : handle) :
  hoare stash_complete (process_current_table (D := D) get_text page)
    (fun _ => stash_complete).
Proof.
  unfold process_current_table.
  apply invariant_bind;
    [apply quiet_stash_complete, quiet_plain_of_watch, quiet_watch_of_wait;
     eauto with quiet|].
  intros _. apply invariant_bind; [by intros s|]. intros v.
  apply invariant_bind;
    [apply quiet_stash_complete, quiet_plain_of_watch; eauto with quiet|].
  intros [|row rows]; [by intros s|].
  apply invariant_bind; [apply quiet_stash_complete; quiet_tac|].
  intros _. apply process_rows_stash_complete.
Qed.

Lemma process_current_table_failure_is_final (page : handle) :
  hoare (fun s => no_failed_fetch (trace s))
    (process_current_table (D := D) get_text page) failure_is_final.
Proof.
  unfold process_current_table.
  apply failure_bind;
    [apply quiet_failure_is_final, quiet_plain_of_watch, quiet_watch_of_wait;
     eauto with quiet|].
  intros _. apply failure_bind;
    [apply quiet_failure_is_final; quiet_tac|]. intros v.
  apply failure_bind;
    [apply quiet_failure_is_final, quiet_plain_of_watch; eauto with quiet|].
  intros [|row rows]; [apply quiet_failure_is_final; quiet_tac|].
  apply failure_bind; [apply quiet_failure_is_final; quiet_tac|].
  intros _. apply process_rows_failure_is_final.
Qed.

Lemma crawl_fetched_once (fuel : nat) (page : handle) (page_idx : Z) :
  hoare fetched_once (crawl (D := D) get_text fuel page page_idx)
    (fun _ => fetched_once).
Proof.
  revert page_idx. induction fuel as [|fuel IH]; intros page_idx;
    [by intros s|].
  cbn [crawl].
  apply invariant_bind; [apply quiet_fetched_once; quiet_tac|]. intros _.
  apply invariant_bind; [apply process_current_table_fetched_once|].
  intros _.
  apply invariant_bind; [apply quiet_fetched_once; eauto with quiet|].
  intros [|]; cbn [negb]; [apply IH | apply quiet_fetched_once; quiet_tac].
Qed.

Lemma crawl_stash_complete (fuel : nat) (page : handle) (page_idx : Z) :
  hoare stash_complete (crawl (D := D) get_text fuel page page_idx)
    (fun _ => stash_complete).
Proof.
  revert page_idx. induction fuel as [|fuel IH]; intros page_idx;
    [by intros s|].
  cbn [crawl].
  apply invariant_bind; [apply quiet_stash_complete; quiet_tac|]. intros _.
  apply invariant_bind; [apply process_current_table_stash_complete|].
  intros _.
  apply invariant_bind; [apply quiet_stash_complete; eauto with quiet|].
  intros [|]; cbn [negb]; [apply IH | apply quiet_stash_complete; quiet_tac].
Qed.

Lemma crawl_failure_is_final (fuel : nat) (page : handle) (page_idx : Z) :
  hoare (fun s => no_failed_fetch (trace s))
    (crawl (D := D) get_text fuel page page_idx) failure_is_final.
Proof.
  revert page_idx. induction fuel as [|fuel IH]; intros page_idx;
    [cbn [crawl]; apply quiet_failure_is_final; quiet_tac|].
  cbn [crawl].
  apply failure_bind; [apply quiet_failure_is_final; quiet_tac|]. intros _.
  apply failure_bind; [apply process_current_table_failure_is_final|].
  intros _.
  apply failure_bind; [apply quiet_failure_is_final; eauto with quiet|].
  intros [|]; cbn [negb];
    [apply IH | apply quiet_failure_is_final; quiet_tac].
Qed.

Lemma scrape_fetched_once (fuel : nat) :
  hoare fetched_once (scrape (D := D) get_text fuel) (fun _ => fetched_once).
Proof.
  unfold scrape.
  do 4 (apply invariant_bind; [apply quiet_fetched_once; quiet_tac|];
        intros ?).
  do 4 (apply invariant_bind; [apply quiet_fetched_once; quiet_tac|];
        intros ?).
  apply invariant_bind; [apply crawl_fetched_once|].
  intros [|]; apply quiet_fetched_once; quiet_tac.
Qed.

Lemma scrape_stash_complete (fuel : nat) :
  hoare stash_complete (scrape (D := D) get_text fuel)
    (fun _ => stash_complete).
Proof.
  unfold scrape.
  do 8 (apply invariant_bind; [apply quiet_stash_complete; quiet_tac|];
        intros ?).
  apply invariant_bind; [apply crawl_stash_complete|].
  intros [|]; apply quiet_stash_complete; quiet_tac.
Qed.

Lemma scrape_failure_is_final (fuel : nat) :
  hoare (fun s => no_failed_fetch (trace s)) (scrape (D := D) get_text fuel)
    failure_is_final.
Proof.
  unfold scrape.
  do 8 (apply failure_bind; [apply quiet_failure_is_final; quiet_tac|];
        intros ?).
  apply failure_bind; [apply crawl_failure_is_final|].
  intros [|]; apply quiet_failure_is_final; quiet_tac.
Qed.

Lemma initial_fetched_once (w : world D) : fetched_once (initial w).
Proof. split; [constructor | intros h H; by apply elem_of_nil in H]. Qed.

Lemma initial_stash_complete (w : world D) : stash_complete (initial w).
Proof. split; [done | intros h d H; by apply elem_of_nil in H]. Qed.

Lemma initial_no_failed_fetch (w : world D) :
  no_failed_fetch (trace (initial w)).
Proof. intros h e H. by apply elem_of_nil in H. Qed.

End Runs.

(** ** The orchestrator's guarantees *)

Lemma collect_rows_fresh {D : driver} (page : handle) (v : gset string)
    (s : state D) (rows : list (string * string)) :
  (collect_rows page v s).1 = Ok rows ->
  NoDup rows.*1 /\ forall h, h ∈ rows.*1 -> h ∉ v.
Proof.
  destruct (collect_rows_run page v s) as (-> & _).
  destruct (answer D _ (st_world s)).1 as [els|e]; [|discriminate].
  intros [= <-].
  by destruct (filter_rows_fresh (js_items els) v) as (Hnd & Hnv & _).
Qed.

(** C1: in every run (cut after any number of table pages) the tokens passed
    to the detail fetcher are pairwise distinct, and each of them is in the
    visited set; an enumeration returns distinct tokens, none of them
    visited. *)
Theorem fetched_tokens_are_a_set (D : driver) (get_text : string -> string)
    (fuel : nat) (w : world D) :
  let s' := (scrape get_text fuel (initial w)).2 in
  NoDup (fetched (trace s'))
  /\ (forall h, h ∈ fetched (trace s') -> h ∈ visited s')
  /\ (forall page (v : gset string) (s : state D) rows,
        (collect_rows page v s).1 = Ok rows ->
        NoDup rows.*1 /\ forall h, h ∈ rows.*1 -> h ∉ v).
Proof.
  intros s'.
  destruct (scrape_fetched_once get_text fuel (initial w)
              (initial_fetched_once w)) as [Hnd Hin].
  split_and!; [exact Hnd | exact Hin |].
  intros page v s rows. apply collect_rows_fresh.
Qed.

(** C8: processing a row keeps the stash equal to the outcomes with both
    fields present, in fetch order, and leaves a warning in the log for every
    outcome with a field missing; so it is after every run, however far it
    got. *)
Theorem stash_holds_exactly_the_complete_outcomes (D : driver)
    (get_text : string -> string) :
  (forall (w : world D), stash_complete (initial w))
  /\ (forall page idx row (s : state D),
        stash_complete s ->
        stash_complete (process_row get_text page idx row s).2)
  /\ (forall fuel (w : world D),
        stash_complete (scrape get_text fuel (initial w)).2).
Proof.
  split_and!.
  - apply initial_stash_complete.
  - intros page idx row s. apply process_row_stash_complete.
  - intros fuel w.
    apply scrape_stash_complete, initial_stash_complete.
Qed.

Lemma stash_holds_exactly_the_complete_outcomes_witness :
  stash_complete
    (process_row Portal.plain 0%nat 1 (Portal.href "2", "Contrato 2")
       (on_portal Portal.two_pages)).2.
Proof.
  apply (proj1 (proj2 (stash_holds_exactly_the_complete_outcomes
                         Portal.portal Portal.plain))).
  split; [reflexivity|].
  intros h d H. by apply elem_of_nil in H.
Defined.

(** ** After an incomplete record *)










Section Absorbed.

Context {D : driver} (get_text : string -> string).
Implicit Types (s : state D).









End Absorbed.



(** ** Following a run call by call *)

Section RunsRules.

Context {D : driver}.

Lemma runs_ret {A : Type} (a : A) (Q : res A -> list event -> Prop) :
  Q (Ok a) [] -> runs (D := D) (ret a) Q.
Proof. intros HQ s. exists []. by rewrite app_nil_r. Qed.

Lemma runs_call {X : Type} (o : op X) (Q : res X -> list event -> Prop) :
  (forall r, Q r [Called o r]) -> runs (D := D) (call o) Q.
Proof. intros HQ s. rewrite call_run. simpl. eauto. Qed.

Lemma runs_log (lv : level) (msg : message)
    (Q : res unit -> list event -> Prop) :
  Q (Ok tt) [Logged lv msg] -> runs (D := D) (log lv msg) Q.
Proof. intros HQ s. unfold log, emit. simpl. eauto. Qed.

Lemma runs_bind {A B : Type} (m : M D A) (f : A -> M D B)
    (Q : res B -> list event -> Prop) :
  runs m (fun r1 evs1 =>
            match r1 with
            | Ok a => runs (f a) (fun r evs2 => Q r (evs1 ++ evs2))
            | Raise e => Q (Raise e) evs1
            end) ->
  runs (bind m f) Q.
Proof.
  intros Hm s. unfold bind. destruct (Hm s) as (evs1 & Ht1 & H1).
  destruct (m s) as [[a|e] s1]; simpl in *; [|eauto].
  destruct (H1 s1) as (evs2 & Ht2 & H2).
  exists (evs1 ++ evs2). by rewrite Ht2, Ht1, app_assoc.
Qed.

Lemma runs_try_except {A : Type} (m handler : M D A) (handles : exn -> bool)
    (Q : res A -> list event -> Prop) :
  runs m (fun r1 evs1 =>
            match r1 with
            | Ok a => Q (Ok a) evs1
            | Raise e =>
                if handles e
                then runs handler (fun r evs2 => Q r (evs1 ++ evs2))
                else Q (Raise e) evs1
            end) ->
  runs (try_except m handles handler) Q.
Proof.
  intros Hm s. unfold try_except. destruct (Hm s) as (evs1 & Ht1 & H1).
  destruct (m s) as [[a|e] s1]; simpl in *; [eauto|].
  destruct (handles e); [|eauto].
  destruct (H1 s1) as (evs2 & Ht2 & H2).
  exists (evs1 ++ evs2). by rewrite Ht2, Ht1, app_assoc.
Qed.

Lemma runs_conseq {A : Type} (m : M D A)
    (Q1 Q : res A -> list event -> Prop) :
  runs m Q1 -> (forall r evs, Q1 r evs -> Q r evs) -> runs m Q.
Proof.
  intros Hm HQ s. destruct (Hm s) as (evs & Ht & H). eauto.
Qed.

Lemma runs_new_events {A : Type} (m : M D A)
    (Q : res A -> list event -> Prop) (s : state D) :
  runs m Q -> Q (m s).1 (new_events s (m s).2).
Proof.
  intros Hm. destruct (Hm s) as (evs & Ht & H). unfold new_events.
  by rewrite Ht, drop_app_length.
Qed.

Lemma quiet_runs {A : Type} (P : event -> bool) (m : M D A) :
  quiet P m -> runs m (fun _ evs => Forall (fun ev => P ev = true) evs).
Proof. intros Hm s. by destruct (Hm s) as (_ & _ & evs & Ht & HP); eauto. Qed.

End RunsRules.

Lemma polls_left_done (budget waited : Z) :
  ~ waited < budget -> polls_left budget waited = 0%nat.
Proof.
  intros H. unfold polls_left.
  assert ((budget - waited + 199) / 200 <= 0); [|lia].
  apply Z.lt_succ_r, Z.div_lt_upper_bound; lia.
Qed.

Lemma polls_left_step (budget waited : Z) :
  waited < budget ->
  polls_left budget waited = S (polls_left budget (waited + 200)).
Proof.
  intros H. unfold polls_left.
  replace (budget - waited + 199) with (1 * 200 + (budget - (waited + 200) + 199))
    by lia.
  rewrite Z.div_add_l by lia.
  assert (0 <= (budget - (waited + 200) + 199) / 200); [|lia].
  apply Z.div_pos; lia.
Qed.

Lemma count_events_app (p : event -> bool) (a b : list event) :
  count_events p (a ++ b) = (count_events p a + count_events p b)%nat.
Proof. unfold count_events. by rewrite List.filter_app, length_app. Qed.

Section LoopsEnd.

Context {D : driver}.

Lemma wait_rows_runs (page : handle) (timeout_ms waited : Z) :
  runs (wait_rows (D := D) page timeout_ms waited)
    (wait_rows_ends page timeout_ms waited).
Proof.
  revert waited. apply (budget_ind timeout_ms). intros waited IH.
  rewrite wait_rows_step. destruct (decide (waited < timeout_ms)) as [Hlt|Hge].
  2:{ apply runs_ret. exists []. split; [constructor|]. split; [done|].
      by rewrite polls_left_done. }
  apply runs_bind, runs_call. intros [n|e].
  2:{ exists []. split; [constructor|]. by left. }
  destruct (0 <? n)%nat eqn:Hn.
  { apply runs_ret. exists []. split; [constructor|].
    exists n. split; [done|]. by apply Nat.ltb_lt. }
  apply Nat.ltb_ge in Hn. assert (n = 0%nat) as -> by lia.
  apply runs_bind, runs_try_except, runs_call.
  assert (Hrest : forall rm : res unit,
    runs (bind (call (WaitForTimeout page 200))
            (fun _ => wait_rows (D := D) page timeout_ms (waited + 200)))
      (fun r evs2 =>
         wait_rows_ends page timeout_ms waited r
           ([Called (Count page (Loc VISIBLE_ROW_LINK)) (Ok 0%nat)]
              ++ [Called (MouseWheel page 0 600) rm] ++ evs2))).
  { intros rm. apply runs_bind, runs_call. intros [[]|e].
    - eapply runs_conseq; [apply (IH Hlt)|].
      intros r evs (polls & Hidle & Hr).
      exists ([Called (Count page (Loc VISIBLE_ROW_LINK)) (Ok 0%nat);
               Called (MouseWheel page 0 600) rm;
               Called (WaitForTimeout page 200) (Ok tt)] ++ polls).
      split; [by repeat constructor|].
      destruct r as [[[]|]|e].
      + destruct Hr as (n & -> & Hn'). exists n. split; [list_assoc|done].
      + destruct Hr as [-> Hc]. split; [list_assoc|].
        rewrite count_events_app, Hc, (polls_left_step _ _ Hlt). reflexivity.
      + destruct Hr as [-> | ->]; [left|right]; list_assoc.
    - exists [Called (Count page (Loc VISIBLE_ROW_LINK)) (Ok 0%nat);
              Called (MouseWheel page 0 600) rm].
      split; [by repeat constructor|]. right. list_assoc. }
  intros [[]|e]; [apply Hrest|]. cbn [any_exception].
  apply runs_ret.
  eapply runs_conseq; [apply (Hrest (Raise e))|].
  intros r evs. by rewrite app_nil_r.
Qed.

Lemma wait_table_ready_runs (page : handle) (timeout_ms : Z) :
  runs (wait_table_ready (D := D) page timeout_ms)
    (wait_table_ready_ends page timeout_ms).
Proof.
  unfold wait_table_ready. apply runs_bind.
  eapply runs_conseq; [apply wait_rows_runs|].
  intros [[[]|]|e] evs (polls & Hidle & Hr).
  - apply runs_ret. exists polls. split; [done|]. left.
    destruct Hr as (n & -> & Hn). exists n. by rewrite app_nil_r.
  - apply runs_call. intros r. exists polls. split; [done|]. right. left.
    by destruct Hr as [-> Hc].
  - exists polls. split; [done|]. right. right. eauto.
Qed.

End LoopsEnd.

Section ClickNext.

Context {D : driver}.

Lemma runs_and_quiet {A : Type} (P : event -> bool) (m : M D A)
    (Q : res A -> list event -> Prop) :
  runs m Q -> quiet P m ->
  runs m (fun r evs => Q r evs /\ Forall (fun ev => P ev = true) evs).
Proof.
  intros Hr Hq s. destruct (Hr s) as (evs & Ht & HQ).
  destruct (Hq s) as (_ & _ & evs' & Ht' & HP).
  rewrite Ht in Ht'. apply app_inv_head in Ht'. subst evs'. eauto.
Qed.

Lemma page_signature_runs (page : handle) :
  runs (page_signature (D := D) page)
    (fun r evs =>
       exists rsig,
         evs = [Called (EvaluateAll page (Loc VISIBLE_ROW_LINK)) rsig]
         /\ r = match rsig with
                | Ok els => Ok (signature_of els)
                | Raise e => Raise e
                end).
Proof.
  unfold page_signature. apply runs_bind, runs_call. intros [els|e].
  - apply runs_ret. exists (Ok els). by rewrite app_nil_r.
  - by exists (Raise e).
Qed.

Lemma poll_signature_runs (page : handle) (prev_sig : string) (waited : Z) :
  runs (poll_signature (D := D) page prev_sig waited)
    (poll_signature_ends page prev_sig waited).
Proof.
  revert waited. apply (budget_ind 10000). intros waited IH.
  rewrite poll_signature_step. destruct (decide (waited < 10000)) as [Hlt|Hge].
  2:{ apply runs_ret. exists []. split; [constructor|]. split; [done|].
      by rewrite polls_left_done. }
  apply runs_bind. eapply runs_conseq; [apply page_signature_runs|].
  intros r evs (rsig & -> & ->). destruct rsig as [els|e].
  2:{ exists []. split; [constructor|]. by left. }
  destruct (sig_changed prev_sig (signature_of els)) eqn:Hch.
  { apply runs_ret. exists []. split; [constructor|]. by exists els. }
  apply runs_bind, runs_call. intros [[]|e].
  - eapply runs_conseq; [apply (IH Hlt)|].
    intros r evs (polls & Hstale & Hr).
    exists ([Called (EvaluateAll page (Loc VISIBLE_ROW_LINK)) (Ok els);
             Called (WaitForTimeout page 200) (Ok tt)] ++ polls).
    split.
    { repeat constructor; [|done]. simpl. by rewrite Hch. }
    destruct r as [[|]|e].
    + destruct Hr as (els' & -> & Hch'). exists els'. split; [list_assoc|done].
    + destruct Hr as [-> Hc]. split; [list_assoc|].
      rewrite count_events_app, Hc, (polls_left_step _ _ Hlt). reflexivity.
    + destruct Hr as [-> | ->]; [left|right]; list_assoc.
  - exists [Called (EvaluateAll page (Loc VISIBLE_ROW_LINK)) (Ok els)].
    split; [|by right]. repeat constructor. simpl. by rewrite Hch.
Qed.

Lemma nudge_runs (page : handle) (js : string) (ms : Z) :
  runs (D := D)
    (try_except (bind (call (Evaluate page js))
                   (fun _ => call (WaitForTimeout page ms)))
       any_exception (ret tt))
    (fun r evs =>
       r = Ok tt /\ Forall (fun ev => is_watch_event ev = true) evs).
Proof.
  apply runs_try_except, runs_bind, runs_call. intros [[]|e].
  - apply runs_call. intros [[]|e]; cbn [any_exception].
    + split; [done|]. by repeat constructor.
    + apply runs_ret. split; [done|]. by repeat constructor.
  - cbn [any_exception]. apply runs_ret. split; [done|]. by repeat constructor.
Qed.

Lemma press_runs (page : handle) :
  runs (D := D)
    (try_except
       (bind (call (ScrollIntoViewIfNeeded page NEXT_BUTTON))
          (fun _ => call (Click page NEXT_BUTTON)))
       any_exception (call (EvaluateClick page NEXT_BUTTON)))
    (press_ends page).
Proof.
  apply runs_try_except, runs_bind, runs_call. intros [[]|e].
  - apply runs_call. intros [[]|e]; cbn [any_exception].
    + by left.
    + apply runs_call. intros r. right. right. by exists e.
  - cbn [any_exception]. apply runs_call. intros r. right. left. by exists e.
Qed.

Lemma after_click_runs (page : handle) (prev_sig : string) :
  runs (D := D)
    (bind (poll_signature page prev_sig 0)
       (fun changed =>
          if negb changed then ret false
          else
            bind (call (Evaluate page "window.scrollTo(0, 0)"))
              (fun _ => bind (wait_table_ready page 10000)
                          (fun _ => ret true))))
    (fun r evs =>
       Forall (fun ev => is_watch_event ev = true) evs
       /\ after_click_ends page prev_sig r evs).
Proof.
  apply runs_bind.
  eapply runs_conseq;
    [apply (runs_and_quiet _ _ _ (poll_signature_runs page prev_sig 0)
              (quiet_poll_signature page prev_sig 0))|].
  intros [[|]|e] polled [Hp Hw]; cbn [negb].
  - apply runs_bind, runs_call. intros [[]|e].
    + apply runs_bind.
      eapply runs_conseq;
        [apply (runs_and_quiet _ _ _ (wait_table_ready_runs page 10000)
                  (quiet_watch_of_wait _ (quiet_wait_table_ready page 10000)))|].
      intros rw settled [Hs Hsw].
      assert (Hall : Forall (fun ev => is_watch_event ev = true)
                       (polled ++ [Called (Evaluate page "window.scrollTo(0, 0)")
                                     (Ok tt)] ++ settled)).
      { apply Forall_app. split; [done|]. by constructor. }
      destruct rw as [[]|e].
      * apply runs_ret. rewrite app_nil_r. split; [done|].
        eexists (Ok true), polled, _. split; [reflexivity|]. split; [done|].
        exists (Ok tt), settled. split; [done|]. by exists (Ok tt).
      * split; [done|].
        eexists (Ok true), polled, _. split; [reflexivity|]. split; [done|].
        exists (Ok tt), settled. split; [done|]. by exists (Raise e).
    + split.
      * apply Forall_app. split; [done|]. by repeat constructor.
      * eexists (Ok true), polled, _. split; [reflexivity|]. split; [done|].
        by exists (Raise e), [].
  - apply runs_ret. rewrite app_nil_r. split; [done|].
    exists (Ok false), polled, []. by rewrite app_nil_r.
  - split; [done|]. exists (Raise e), polled, []. by rewrite app_nil_r.
Qed.

Lemma click_next_runs (page : handle) :
  runs (click_next (D := D) page) (click_next_ends page).
Proof.
  unfold click_next. apply runs_bind.
  eapply runs_conseq; [apply page_signature_runs|].
  intros r evs (rsig & -> & ->). destruct rsig as [els0|e].
  2:{ by exists (Raise e), []. }
  apply runs_bind. eapply runs_conseq; [apply nudge_runs|].
  intros r nudge [-> Hnudge].
  apply runs_bind, runs_call. intros [n|e].
  2:{ eexists (Ok els0), _. split; [reflexivity|].
      by exists nudge, (Raise e), []. }
  destruct n as [|n]; cbn [Nat.eqb].
  { apply runs_bind, runs_log, runs_ret.
    eexists (Ok els0), _. split; [reflexivity|].
    eexists nudge, (Ok 0%nat), _. split; [reflexivity|]. split; [done|].
    by rewrite app_nil_r. }
  assert (Hctl : forall r rest,
    control_ends page (signature_of els0) r rest ->
    click_next_ends page r
      ([Called (EvaluateAll page (Loc VISIBLE_ROW_LINK)) (Ok els0)]
         ++ nudge ++ [Called (Count page NEXT_BUTTON) (Ok (S n))] ++ rest)).
  { intros r' rest Hrest. eexists (Ok els0), _. split; [reflexivity|].
    by exists nudge, (Ok (S n)), rest. }
  apply runs_bind, runs_call. intros [c|e].
  2:{ apply Hctl. by exists (Raise e), []. }
  apply runs_bind, runs_call. intros [a|e].
  2:{ apply Hctl. eexists (Ok c), _. split; [reflexivity|].
      by exists (Raise e), []. }
  assert (Hattr : forall r rest3,
    match
      next_disabled (Text.lower (or_empty c)) (Text.lower (or_empty a))
    with
    | true => rest3 = [Logged INFO MsgNextDisabled] /\ r = Ok false
    | false =>
        exists rpress press rest4,
          rest3 = press ++ rest4
          /\ press_ends page rpress press
          /\ match rpress with
             | Raise e => rest4 = [] /\ r = Raise e
             | Ok _ =>
                 exists post,
                   rest4 = Logged INFO MsgClickedNext :: post
                   /\ Forall (fun ev => is_watch_event ev = true) post
                   /\ after_click_ends page (signature_of els0) r post
             end
    end ->
    click_next_ends page r
      ([Called (EvaluateAll page (Loc VISIBLE_ROW_LINK)) (Ok els0)]
         ++ nudge ++ [Called (Count page NEXT_BUTTON) (Ok (S n))]
         ++ [Called (GetAttribute page NEXT_BUTTON "class") (Ok c)]
         ++ [Called (GetAttribute page NEXT_BUTTON "aria-disabled") (Ok a)]
         ++ rest3)).
  { intros r' rest3 H3. apply Hctl. eexists (Ok c), _. split; [reflexivity|].
    by exists (Ok a), rest3. }
  destruct (next_disabled _ _) eqn:Hdis.
  { apply runs_bind, runs_log, runs_ret. by apply Hattr. }
  apply runs_bind. eapply runs_conseq; [apply press_runs|].
  intros rpress press Hpress. destruct rpress as [[]|e].
  2:{ apply Hattr. exists (Raise e), press, [].
      by rewrite app_nil_r. }
  apply runs_bind, runs_log.
  eapply runs_conseq; [apply after_click_runs|].
  intros r' post [Hw Hpost]. apply Hattr.
  eexists (Ok tt), press, _. split; [reflexivity|]. split; [done|].
  by exists post.
Qed.

End ClickNext.

(** ** Looking events up in a run *)

Lemma Forall_elem (P : event -> bool) (l : list event) (ev : event) :
  Forall (fun ev => P ev = true) l -> ev ∈ l -> P ev = true.
Proof. intros H Hin. rewrite Forall_forall in H. by apply H. Qed.

Lemma press_ends_events (page : handle) (r : res unit) (evs : list event) :
  press_ends page r evs -> Forall (fun ev => is_press_event ev = true) evs.
Proof.
  intros [[-> _]|[[e ->]|[e ->]]]; by repeat constructor.
Qed.

Lemma watch_is_called (ev : event) :
  is_watch_event ev = true -> is_called ev = true.
Proof. by destruct ev. Qed.

Lemma press_is_called (ev : event) :
  is_press_event ev = true -> is_called ev = true.
Proof. by destruct ev. Qed.

Lemma watch_not_click (ev : event) :
  is_watch_event ev = true -> is_click ev = false.
Proof.
  destruct ev as [X o r| | |]; [|done..].
  by destruct o as [? []| | | | | | | | | | | | | | | | | | | | | | |].
Qed.

Lemma after_click_app (l rest : list event) :
  Forall (fun ev => is_called ev = true) l ->
  after_click (l ++ rest) = after_click rest.
Proof.
  induction 1 as [|ev l Hev _ IH]; [reflexivity|].
  destruct ev; try discriminate. exact IH.
Qed.

Lemma next_disabled_true (cls aria : string) :
  next_disabled cls aria = true <->
  Text.contains "disabled" cls = true \/ aria = "true" \/ aria = "disabled".
Proof.
  unfold next_disabled. rewrite !orb_true_iff, !String.eqb_eq. tauto.
Qed.

Lemma sig_changed_true (prev_sig sig : string) :
  sig_changed prev_sig sig = true <-> sig <> "" /\ sig <> prev_sig.
Proof.
  unfold sig_changed. rewrite andb_true_iff, negb_true_iff, String.eqb_neq.
  destruct sig; simpl; intuition congruence.
Qed.

(** Split a membership in an explicit list of events into its cases. *)
Ltac mem_cases H :=
  repeat match type of H with
         | _ ∈ [] => by apply elem_of_nil in H
         | _ ∈ _ :: _ => apply elem_of_cons in H as [H|H]
         | _ ∈ _ ++ _ => apply elem_of_app in H as [H|H]
         end.

(** Close a goal whose hypothesis [H] puts an event where it cannot be. *)
Ltac refute_event H :=
  solve
    [ match type of H with
      | ?ev ∈ ?l =>
          match goal with
          | Hl : Forall (fun ev => ?P ev = true) l |- _ =>
              apply (Forall_elem P l ev Hl) in H; cbv in H; discriminate H
          end
      end
    | apply (f_equal count_answer) in H; cbv in H; congruence
    | apply (f_equal attribute_answer) in H; cbv in H; congruence
    | apply (f_equal elements_answer) in H; cbv in H; congruence
    | apply (f_equal selector_answer) in H; cbv in H; congruence
    | apply (f_equal is_called) in H; cbv in H; congruence ].

Ltac mem_find H := mem_cases H; try refute_event H.

(** Open [click_next_ends] into its eight ways to end. *)
Ltac click_cases H :=
  let els0 := fresh "els0" in
  let nudge := fresh "nudge" in
  let Hnudge := fresh "Hnudge" in
  let press := fresh "press" in
  let Hpress := fresh "Hpress" in
  let Hpress' := fresh "Hpress'" in
  let post := fresh "post" in
  let Hpost := fresh "Hpost" in
  let Hafter := fresh "Hafter" in
  let Hdis := fresh "Hdis" in
  let c := fresh "c" in
  let a := fresh "a" in
  let n := fresh "n" in
  let e := fresh "e" in
  let rsig := fresh "rsig" in
  let rc := fresh "rc" in
  let ra := fresh "ra" in
  let rb := fresh "rb" in
  let rpress := fresh "rpress" in
  let rest0 := fresh "rest0" in
  let rest1 := fresh "rest1" in
  let rest2 := fresh "rest2" in
  let rest3 := fresh "rest3" in
  let rest4 := fresh "rest4" in
  destruct H as (rsig & rest0 & -> & H);
  destruct rsig as [els0|e];
  [ destruct H as (nudge & rc & rest1 & -> & Hnudge & H);
    destruct rc as [[|n]|e];
    [ destruct H as [-> ->]
    | destruct H as (ra & rest2 & -> & H);
      destruct ra as [c|e];
      [ destruct H as (rb & rest3 & -> & H);
        destruct rb as [a|e];
        [ destruct (next_disabled (Text.lower (or_empty c))
                      (Text.lower (or_empty a))) eqn:Hdis;
          [ destruct H as [-> ->]
          | destruct H as (rpress & press & rest4 & -> & Hpress & H);
            pose proof (press_ends_events _ _ _ Hpress) as Hpress';
            destruct rpress as [[]|e];
            [ destruct H as (post & -> & Hpost & Hafter)
            | destruct H as [-> ->] ] ]
        | destruct H as [-> ->] ]
      | destruct H as [-> ->] ]
    | destruct H as [-> ->] ]
  | destruct H as [-> ->] ].

(** C4, as the code has it: [wait_table_ready] ends in one of three ways.
    A poll found a visible row link and it returns; or every poll of the
    budget found none and the wait for the table container decides: its
    answer, a timeout included, is the outcome; or a poll's own count or
    sleep failed and that failure is the outcome. *)
Theorem wait_table_ready_outcome (D : driver) (page : handle)
    (timeout_ms : Z) (s : state D) :
  wait_table_ready_ends page timeout_ms
    (wait_table_ready page timeout_ms s).1
    (new_events s (wait_table_ready page timeout_ms s).2).
Proof. apply runs_new_events, wait_table_ready_runs. Qed.

(** C4 fails as stated: on a view with no row link and no table, the fifty
    polls of the 10 s budget find nothing and the fallback wait times out;
    the timeout is raised to the caller. *)
Lemma wait_table_ready_raises_on_timeout :
  let run := wait_table_ready 0%nat 10000 (on_portal Portal.empty_view) in
  run.1 = Raise PWTimeout
  /\ last (trace run.2)
     = Some (Called (WaitForSelector 0%nat "table tbody" 4000)
               (Raise PWTimeout))
  /\ count_events is_count_event (trace run.2) = 50%nat.
Proof. vm_compute. repeat split. Qed.

(** ** Terminal detection in [click_next] *)

Lemma watch_events_no_click (l : list event) :
  Forall (fun ev => is_watch_event ev = true) l ->
  Forall (fun ev => is_click ev = false) l.
Proof. intros H. eapply Forall_impl; [exact H | apply watch_not_click]. Qed.

Lemma click_next_ends_absent (page : handle) (r : res bool)
    (evs : list event) :
  click_next_ends page r evs ->
  Called (Count page NEXT_BUTTON) (Ok 0%nat) ∈ evs ->
  r = Ok false /\ Forall (fun ev => is_click ev = false) evs.
Proof.
  intros H Hin. click_cases H; try (exfalso; mem_find Hin; fail).
  split; [done|]. constructor; [done|].
  apply Forall_app. split; [by apply watch_events_no_click|].
  by repeat constructor.
Qed.

Lemma click_next_ends_disabled (page : handle) (r : res bool)
    (evs : list event) (c a : option string) :
  click_next_ends page r evs ->
  Called (GetAttribute page NEXT_BUTTON "class") (Ok c) ∈ evs ->
  Called (GetAttribute page NEXT_BUTTON "aria-disabled") (Ok a) ∈ evs ->
  next_disabled (Text.lower (or_empty c)) (Text.lower (or_empty a)) = true ->
  r = Ok false /\ Forall (fun ev => is_click ev = false) evs.
Proof.
  intros H Hc Ha Hd.
  click_cases H; try (exfalso; mem_find Hc; fail);
    try (exfalso; mem_find Ha; fail).
  - split; [done|]. constructor; [done|].
    apply Forall_app. split; [by apply watch_events_no_click|].
    by repeat constructor.
  - exfalso. mem_find Hc. mem_find Ha.
    apply (f_equal attribute_answer) in Hc, Ha. cbv in Hc, Ha.
    injection Hc as ->. injection Ha as ->. congruence.
  - exfalso. mem_find Hc. mem_find Ha.
    apply (f_equal attribute_answer) in Hc, Ha. cbv in Hc, Ha.
    injection Hc as ->. injection Ha as ->. congruence.
Qed.

Lemma click_next_ends_class_disabled (page : handle) (r : res bool)
    (evs : list event) (c : option string) :
  click_next_ends page r evs ->
  Called (GetAttribute page NEXT_BUTTON "class") (Ok c) ∈ evs ->
  Text.contains "disabled" (Text.lower (or_empty c)) = true ->
  Forall (fun ev => is_click ev = false) evs.
Proof.
  intros H Hc Hd.
  assert (Hdis : forall a,
    next_disabled (Text.lower (or_empty c)) (Text.lower (or_empty a)) = true).
  { intros a. apply next_disabled_true. by left. }
  click_cases H; try (exfalso; mem_find Hc; fail);
    first
      [ constructor; [done|];
        apply Forall_app; split; [by apply watch_events_no_click|];
        by repeat constructor
      | exfalso; mem_find Hc; apply (f_equal attribute_answer) in Hc;
        cbv in Hc; injection Hc as ->;
        match goal with
        | Hf : next_disabled _ (Text.lower (or_empty ?a)) = false |- _ =>
            specialize (Hdis a); congruence
        end ].
Qed.

(** C7: [click_next] returns [False] and attempts no click when the count of
    the next control is zero, and when the class read contains "disabled" or
    the aria-disabled read is "true" or "disabled", both compared in lower
    case; a class that contains "disabled" rules a click out even if the
    aria-disabled read then fails. *)
Theorem click_next_stops_without_clicking (D : driver) (page : handle)
    (s : state D) :
  let r := (click_next page s).1 in
  let evs := new_events s (click_next page s).2 in
  (Called (Count page NEXT_BUTTON) (Ok 0%nat) ∈ evs ->
   r = Ok false /\ Forall (fun ev => is_click ev = false) evs)
  /\ (forall c a,
        Called (GetAttribute page NEXT_BUTTON "class") (Ok c) ∈ evs ->
        Called (GetAttribute page NEXT_BUTTON "aria-disabled") (Ok a) ∈ evs ->
        Text.contains "disabled" (Text.lower (or_empty c)) = true
        \/ Text.lower (or_empty a) = "true"
        \/ Text.lower (or_empty a) = "disabled" ->
        r = Ok false /\ Forall (fun ev => is_click ev = false) evs)
  /\ (forall c,
        Called (GetAttribute page NEXT_BUTTON "class") (Ok c) ∈ evs ->
        Text.contains "disabled" (Text.lower (or_empty c)) = true ->
        Forall (fun ev => is_click ev = false) evs).
Proof.
  intros r evs.
  pose proof (runs_new_events _ _ s (click_next_runs page)) as H.
  fold r evs in H. split_and!.
  - by apply click_next_ends_absent.
  - intros c a Hc Ha Hd. eapply click_next_ends_disabled; eauto.
    by apply next_disabled_true.
  - intros c. by apply (click_next_ends_class_disabled page r).
Qed.

(** ** Change detection in [click_next] *)

Lemma stale_events_called (prev_sig : string) (l : list event) :
  Forall (fun ev => is_stale_poll_event prev_sig ev = true) l ->
  Forall (fun ev => is_called ev = true) l.
Proof.
  intros H. eapply Forall_impl; [exact H|]. intros ev. by destruct ev.
Qed.

Lemma after_click_ends_true (page : handle) (prev_sig : string)
    (post : list event) :
  after_click_ends page prev_sig (Ok true) post ->
  exists els,
    Called (EvaluateAll page (Loc VISIBLE_ROW_LINK)) (Ok els) ∈ post
    /\ signature_of els <> "" /\ signature_of els <> prev_sig.
Proof.
  intros (rp & polled & rest & -> & Hp & Hr).
  destruct rp as [[|]|e]; [|by destruct Hr..].
  destruct Hp as (polls & _ & els & -> & Hch).
  exists els. split; [|by apply sig_changed_true].
  rewrite !elem_of_app, list_elem_of_singleton. auto.
Qed.

Lemma after_click_ends_stale (page : handle) (prev_sig : string)
    (r : res bool) (post : list event) :
  after_click_ends page prev_sig r post ->
  Forall (fun ev => is_stale_poll_event prev_sig ev = true) post ->
  r = Ok false /\ count_events is_evaluate_all post = 50%nat.
Proof.
  intros (rp & polled & rest & -> & Hp & Hr) Hstale.
  apply Forall_app in Hstale as [Hpolled Hrest].
  destruct Hp as (polls & _ & Hp).
  destruct rp as [[|]|e].
  - exfalso. destruct Hp as (els & -> & Hch).
    apply Forall_app in Hpolled as [_ Hlast].
    rewrite Forall_singleton in Hlast. cbn [is_stale_poll_event] in Hlast.
    rewrite Hch in Hlast. discriminate.
  - destruct Hr as [-> ->]. destruct Hp as [-> Hc].
    by rewrite app_nil_r.
  - exfalso. destruct Hp as [-> | ->];
      apply Forall_app in Hpolled as [_ Hlast];
      rewrite Forall_singleton in Hlast; discriminate.
Qed.

Lemma click_next_ends_true (page : handle) (r : res bool)
    (evs : list event) :
  click_next_ends page r evs -> r = Ok true ->
  exists prev_sig post els,
    signature_before evs = Some prev_sig
    /\ after_click evs = Some post
    /\ Called (EvaluateAll page (Loc VISIBLE_ROW_LINK)) (Ok els) ∈ post
    /\ signature_of els <> "" /\ signature_of els <> prev_sig.
Proof.
  intros H Hr. click_cases H; try discriminate. subst r.
  destruct (after_click_ends_true _ _ _ Hafter) as (els & Hin & Hne & Hch).
  exists (signature_of els0), post, els. split_and!; try done.
  cbn [after_click].
  rewrite after_click_app
    by (eapply Forall_impl; [exact Hnudge | apply watch_is_called]).
  cbn [after_click].
  rewrite after_click_app
    by (eapply Forall_impl; [exact Hpress' | apply press_is_called]).
  reflexivity.
Qed.

Lemma click_next_ends_stale (page : handle) (r : res bool)
    (evs post : list event) (prev_sig : string) :
  click_next_ends page r evs ->
  signature_before evs = Some prev_sig ->
  after_click evs = Some post ->
  Forall (fun ev => is_stale_poll_event prev_sig ev = true) post ->
  r = Ok false /\ count_events is_evaluate_all post = 50%nat.
Proof.
  intros H Hsig Hpost' Hstale.
  click_cases H; cbn [after_click signature_before elements_answer] in *;
    try discriminate;
    rewrite ?after_click_app in Hpost'
      by (eapply Forall_impl; [eassumption | apply watch_is_called]);
    cbn [after_click] in Hpost'; try discriminate;
    rewrite ?after_click_app in Hpost'
      by (eapply Forall_impl; [eassumption | apply press_is_called]);
    cbn [after_click] in Hpost'; try discriminate.
  injection Hsig as <-. injection Hpost' as <-.
  by eapply after_click_ends_stale.
Qed.

(** C2: when [click_next] returns [True], one of the signatures read after
    the click was non-empty and different from the signature read before it
    (an empty one never counts, whatever the signature before was); and when
    every poll after the click answers with an empty or unchanged signature,
    [click_next] returns [False], after the fifty reads of its budget. *)
Theorem click_next_true_only_on_changed_signature (D : driver)
    (page : handle) (s : state D) :
  let r := (click_next page s).1 in
  let evs := new_events s (click_next page s).2 in
  (r = Ok true ->
   exists prev_sig post els,
     signature_before evs = Some prev_sig
     /\ after_click evs = Some post
     /\ Called (EvaluateAll page (Loc VISIBLE_ROW_LINK)) (Ok els) ∈ post
     /\ signature_of els <> "" /\ signature_of els <> prev_sig)
  /\ (forall prev_sig post,
        signature_before evs = Some prev_sig ->
        after_click evs = Some post ->
        Forall (fun ev => is_stale_poll_event prev_sig ev = true) post ->
        r = Ok false /\ count_events is_evaluate_all post = 50%nat).
Proof.
  intros r evs.
  pose proof (runs_new_events _ _ s (click_next_runs page)) as H.
  fold r evs in H. split.
  - by apply click_next_ends_true.
  - intros prev_sig post. by apply (click_next_ends_stale page).
Qed.

(** ** Enumerating a settled view twice *)

Lemma process_current_table_covers {D : driver} (get_text : string -> string)
    (page : handle) (s : state D) (els : list element) :
  (process_current_table get_text page s).1 = Ok tt ->
  Called (EvaluateAll page (Loc VISIBLE_ROW_LINK)) (Ok els)
    ∈ new_events s (process_current_table get_text page s).2 ->
  forall h t,
    (h, t) ∈ js_items els -> Text.nonempty h = true ->
    Text.contains DETAIL_URL_PART h = true ->
    h ∈ visited (process_current_table get_text page s).2.
Proof.
  intros Hok Hin.
  destruct (process_current_table_run get_text page s) as (evs0 & HP0 & Hrun).
  destruct Hrun as [(e & He & _)|(rc & evs1 & Ht & He1 & Hv & Hrc)];
    [congruence|].
  unfold new_events in Hin. rewrite Ht, drop_app_length in Hin.
  assert (rc = Ok els) as ->.
  { mem_find Hin.
    rewrite Forall_forall in He1. apply He1 in Hin. discriminate. }
  destruct Hrc as [_ Hall]. specialize (Hall Hok).
  intros h t Hht Hne Hc. rewrite Hv, Hall.
  destruct (filter_rows_fresh (js_items els) (visited s)) as (_ & _ & Hcov).
  rewrite elem_of_union, elem_of_list_to_set.
  destruct (Hcov h t Hht Hne Hc); auto.
Qed.

(** C9: once [process_current_table] has gone through a batch, enumerating
    again a view that still shows that batch returns no row: every token of
    the batch that could be returned is in the visited set by then. *)
Theorem second_enumeration_is_empty (D : driver) (get_text : string -> string)
    (page : handle) (s : state D) (els : list element) :
  let s' := (process_current_table get_text page s).2 in
  (process_current_table get_text page s).1 = Ok tt ->
  Called (EvaluateAll page (Loc VISIBLE_ROW_LINK)) (Ok els)
    ∈ new_events s s' ->
  (answer D (EvaluateAll page (Loc VISIBLE_ROW_LINK)) (st_world s')).1
    = Ok els ->
  (collect_rows page (visited s') s').1 = Ok [].
Proof.
  intros s' Hok Hin Hsame.
  destruct (collect_rows_run page (visited s') s') as (-> & _).
  rewrite Hsame. f_equal. apply filter_rows_visited.
  intros h t. by apply process_current_table_covers.
Qed.

Ltac mem_compute :=
  vm_compute; repeat first [apply list_elem_of_here | apply list_elem_of_further].

Lemma second_enumeration_is_empty_witness :
  (collect_rows 0%nat
     (visited (process_current_table Portal.plain 0%nat
                 (on_portal Portal.two_pages)).2)
     (process_current_table Portal.plain 0%nat
        (on_portal Portal.two_pages)).2).1 = Ok [].
Proof.
  apply (second_enumeration_is_empty Portal.portal Portal.plain 0%nat
           (on_portal Portal.two_pages)
           [Portal.link "1"; Portal.link "2"; Portal.link "3"]).
  - vm_compute. reflexivity.
  - mem_compute.
  - vm_compute. reflexivity.
Defined.

Lemma Forall_forallb (p : event -> bool) (l : list event) :
  forallb p l = true -> Forall (fun ev => p ev = true) l.
Proof.
  induction l as [|ev l IH]; simpl; [constructor|].
  intros [H1 H2]%andb_true_iff. constructor; auto.
Qed.

(** On the two-page portal the click shows the second page and [click_next]
    returns [True]: a changed signature was read after the click.  On a
    one-page portal whose next control is not marked disabled the click
    changes nothing: [click_next] returns [False] after its fifty reads. *)
Lemma click_next_true_only_on_changed_signature_witness :
  (exists prev_sig post els,
     signature_before
       (new_events (on_portal Portal.two_pages)
          (click_next 0%nat (on_portal Portal.two_pages)).2) = Some prev_sig
     /\ after_click
          (new_events (on_portal Portal.two_pages)
             (click_next 0%nat (on_portal Portal.two_pages)).2) = Some post
     /\ Called (EvaluateAll 0%nat (Loc VISIBLE_ROW_LINK)) (Ok els) ∈ post
     /\ signature_of els <> "" /\ signature_of els <> prev_sig)
  /\ (click_next 0%nat
        (on_portal (Portal.last_page (Some "pagination-next") None))).1
     = Ok false.
Proof.
  split.
  - apply (proj1 (click_next_true_only_on_changed_signature Portal.portal
                    0%nat (on_portal Portal.two_pages))).
    vm_compute. reflexivity.
  - pose (s := on_portal (Portal.last_page (Some "pagination-next") None)).
    refine (proj1 (proj2 (click_next_true_only_on_changed_signature
                            Portal.portal 0%nat s)
                     (default "" (signature_before
                                    (new_events s (click_next 0%nat s).2)))
                     (default [] (after_click
                                    (new_events s (click_next 0%nat s).2)))
                     _ _ _)).
    + vm_compute. reflexivity.
    + vm_compute. reflexivity.
    + apply Forall_forallb. vm_compute. reflexivity.
Defined.

(** A view without a next control, and a last page whose control carries the
    class "disabled" in capitals, or aria-disabled "TRUE". *)
Lemma click_next_stops_without_clicking_witness :
  (click_next 0%nat (on_portal Portal.empty_view)).1 = Ok false
  /\ (click_next 0%nat
        (on_portal (Portal.last_page (Some "pagination-next DISABLED") None))).1
     = Ok false
  /\ (click_next 0%nat
        (on_portal (Portal.last_page (Some "pagination-next") (Some "TRUE")))).1
     = Ok false.
Proof.
  split_and!.
  - apply (proj1 (click_next_stops_without_clicking Portal.portal 0%nat
                    (on_portal Portal.empty_view))).
    mem_compute.
  - eapply (proj1 (proj2 (click_next_stops_without_clicking Portal.portal
                            0%nat _))
              (Some "pagination-next DISABLED") None).
    + mem_compute.
    + mem_compute.
    + left. vm_compute. reflexivity.
  - eapply (proj1 (proj2 (click_next_stops_without_clicking Portal.portal
                            0%nat _))
              (Some "pagination-next") (Some "TRUE")).
    + mem_compute.
    + mem_compute.
    + right. left. vm_compute. reflexivity.
Defined.

(** ** A whole run on the scripted portal

    Two pages; three rows on the first (one detail view without an amount),
    one row on the second: three records are stashed, four tokens visited,
    and the run ends when the second click changes nothing. *)
Example two_page_run :
  let run := scrape Portal.plain 5 (on_portal Portal.two_pages) in
  run.1 = Ok Finished
  /\ stash run.2 =
       [ {| contract := Some "001/2024"; amount := Some "10.000,00" |};
         {| contract := Some "003/2024"; amount := Some "3,50" |};
         {| contract := Some "004/2024"; amount := Some "1.234,56" |} ]
  /\ size (visited run.2) = 4%nat
  /\ fetched (trace run.2) =
       [Portal.href "1"; Portal.href "2"; Portal.href "3"; Portal.href "4"]
  /\ count_events is_click (trace run.2) = 2%nat.
Proof. vm_compute. repeat split. Qed.

(** * Further properties of the code *)

(** ** [make_abs_url] *)

Lemma split_head_app (sep : ascii) (s t : string) :
  Text.split_head sep (Text.split_head sep s +:+ String sep t) =
    Text.split_head sep s.
Proof.
  induction s as [|c s IH]; simpl.
  - by rewrite Ascii.eqb_refl.
  - destruct (Ascii.eqb c sep) eqn:E; simpl.
    + by rewrite Ascii.eqb_refl.
    + by rewrite E, IH.
Qed.

Lemma split_head_fresh (sep : ascii) (s : string) :
  Text.contains (String sep EmptyString) s = false ->
  Text.split_head sep s = s.
Proof.
  induction s as [|c s IH]; [reflexivity|]. simpl.
  destruct (ascii_dec sep c) as [->|Hne].
  - by destruct s.
  - simpl. intros H. rewrite (proj2 (Ascii.eqb_neq c sep)) by congruence.
    by rewrite IH.
Qed.

(** X1: a fragment link is resolved against the current address without its
    own fragment: from [base#frag], and from [base] alone, the link [#h] leads
    to [base#h] (for a [base] that holds no '#'). *)
Theorem make_abs_url_replaces_fragment (base frag h : string) :
  Text.contains "#" base = false ->
  make_abs_url (base +:+ "#" +:+ frag) ("#" +:+ h) = base +:+ "#" +:+ h
  /\ make_abs_url base ("#" +:+ h) = base +:+ "#" +:+ h.
Proof.
  intros Hbase. unfold make_abs_url.
  change ("#" +:+ h) with (String "#" h).
  change ("#" +:+ frag) with (String "#" frag).
  assert (Hp : Text.startswith (String "#" h) "#" = true) by by destruct h.
  rewrite Hp. split.
  - rewrite <- (split_head_fresh "#" base Hbase) at 1.
    by rewrite split_head_app, (split_head_fresh "#" base Hbase).
  - by rewrite (split_head_fresh "#" base Hbase).
Qed.

Lemma make_abs_url_replaces_fragment_witness :
  make_abs_url START_URL (Portal.href "7") = Portal.base +:+ Portal.href "7".
Proof.
  exact (proj1 (make_abs_url_replaces_fragment Portal.base
                  "/palmeira/portal/compras/contratoTable"
                  "/palmeira/portal/compras/contratoView/7" eq_refl)).
Defined.

(** X2: resolving the same link again from the address it led to gives that
    address again; a link that does not start with '#' is its own
    resolution. *)
Theorem make_abs_url_stable (current_url href : string) :
  make_abs_url (make_abs_url current_url href) href =
    make_abs_url current_url href
  /\ (Text.startswith href "#" = false ->
      make_abs_url current_url href = href).
Proof.
  unfold make_abs_url.
  destruct (Text.startswith href "#") eqn:E; [|by split].
  split; [|done]. f_equal.
  destruct href as [|c href]; [done|].
  unfold Text.startswith in E. cbn [String.prefix] in E.
  destruct (ascii_dec "#" c) as [<-|]; [|done].
  apply split_head_app.
Qed.

(** ** [_extract] *)

Lemma string_length_list (s : string) :
  String.length s = length (list_ascii_of_string s).
Proof. induction s as [|c s IH]; simpl; [done | by rewrite IH]. Qed.

Lemma list_of_append (s t : string) :
  list_ascii_of_string (s +:+ t) =
    list_ascii_of_string s ++ list_ascii_of_string t.
Proof. induction s as [|c s IH]; simpl; [done | by rewrite IH]. Qed.

Lemma span_all (p : ascii -> bool) (s : list ascii) :
  forallb p (Spec.span p s).1 = true.
Proof.
  induction s as [|c s IH]; [reflexivity|].
  destruct (p c) eqn:Hc.
  - rewrite (span_cons_true _ _ _ Hc). simpl. by rewrite Hc.
  - by rewrite (span_cons_false _ _ _ Hc).
Qed.

Lemma span_token (p : ascii -> bool) (l r : list ascii) :
  forallb p l = true ->
  match r with [] => True | x :: _ => p x = false end ->
  Spec.span p (l ++ r) = (l, r).
Proof.
  intros Hl Hr. induction l as [|c l IH].
  - destruct r as [|x r]; [reflexivity|]. by apply span_cons_false.
  - simpl in Hl. apply andb_true_iff in Hl as [Hc Hl].
    cbn [app]. rewrite (span_cons_true _ _ _ Hc), (IH Hl). reflexivity.
Qed.

Lemma contract_here_token (s token : list ascii) :
  Spec.contract_here s = Some token -> forallb contract_char token = true.
Proof.
  unfold Spec.contract_here.
  destruct (Spec.strip_word _ s) as [s1|]; [|discriminate].
  destruct (Spec.span Text.isspace s1) as [ws s2].
  pose proof (span_all contract_char s2) as H.
  destruct (Spec.span contract_char s2) as [tok rest].
  destruct (_ && _); [|discriminate]. by intros [= <-].
Qed.

Lemma amount_here_token (s token : list ascii) :
  Spec.amount_here s = Some token -> forallb amount_char token = true.
Proof.
  unfold Spec.amount_here.
  destruct (Spec.strip_word _ s) as [s1|]; [|discriminate].
  destruct (Spec.strip_word _ (Spec.span Text.isspace s1).2) as [s2|];
    [|discriminate].
  destruct (Spec.strip_word _ (Spec.span Text.isspace s2).2) as [s3|];
    [|discriminate].
  pose proof (span_all amount_char (Spec.span Text.isspace s3).2) as H.
  destruct (Spec.span amount_char _) as [tok rest].
  destruct (1 <=? _)%nat; [|discriminate]. by intros [= <-].
Qed.

Lemma extract_tokens_ok (text : string) : tokens_ok (_extract text) = true.
Proof.
  unfold tokens_ok, contract_token, amount_token.
  rewrite extract_contract, extract_amount.
  apply andb_true_iff. split.
  - destruct (Spec.first_match Spec.contract_here _) as [tok|] eqn:H;
      [|reflexivity].
    apply first_match_here in H as [s' H]. cbn [fmap option_fmap option_map].
    rewrite string_length_list, list_ascii_of_string_of_list_ascii.
    apply andb_true_iff. split.
    + apply Nat.leb_le. by eapply contract_here_length.
    + by eapply contract_here_token.
  - destruct (Spec.first_match Spec.amount_here _) as [tok|] eqn:H;
      [|reflexivity].
    apply first_match_here in H as [s' H]. cbn [fmap option_fmap option_map].
    rewrite string_length_list, list_ascii_of_string_of_list_ascii.
    apply andb_true_iff. split.
    + apply Nat.leb_le. by eapply amount_here_length.
    + by eapply amount_here_token.
Qed.

Lemma forallb_all {A : Type} (p : A -> bool) (l : list A) :
  forallb p l = true <-> Forall (fun x => p x = true) l.
Proof.
  induction l as [|x l IH]; simpl.
  - split; [constructor | done].
  - rewrite andb_true_iff, Forall_cons. by rewrite IH.
Qed.

(** X3: whatever the text, a contract id returned by [_extract] has three or
    more characters, all of them digits, '.', '/' or '-', and an amount
    returned has one or more characters, all of them digits, '.' or ',': a
    returned field is never empty and never holds a letter or a blank. *)
Theorem extract_tokens_have_their_alphabet (text : string) :
  match contract (_extract text) with
  | Some c =>
      (3 <= String.length c)%nat
      /\ Forall (fun x => contract_char x = true) (list_ascii_of_string c)
  | None => True
  end
  /\ match amount (_extract text) with
     | Some a =>
         (1 <= String.length a)%nat
         /\ Forall (fun x => amount_char x = true) (list_ascii_of_string a)
     | None => True
     end.
Proof.
  pose proof (extract_tokens_ok text) as H. unfold tokens_ok in H.
  apply andb_true_iff in H as [Hc Ha]. split.
  - destruct (contract (_extract text)) as [c|]; [|done].
    apply andb_true_iff in Hc as [Hlen Hall]. split.
    + by apply Nat.leb_le.
    + by apply forallb_all.
  - destruct (amount (_extract text)) as [a|]; [|done].
    apply andb_true_iff in Ha as [Hlen Hall]. split.
    + by apply Nat.leb_le.
    + by apply forallb_all.
Qed.

(** *** Letter case *)

Lemma lower_char_idemp (c : ascii) :
  Text.lower_char (Text.lower_char c) = Text.lower_char c.
Proof. by destruct c as [[] [] [] [] [] [] [] []]. Qed.

Lemma isspace_lower (c : ascii) :
  Text.isspace (Text.lower_char c) = Text.isspace c.
Proof. by destruct c as [[] [] [] [] [] [] [] []]. Qed.

Lemma contract_char_lower (c : ascii) :
  contract_char (Text.lower_char c) = contract_char c
  /\ (contract_char c = true -> Text.lower_char c = c).
Proof. by destruct c as [[] [] [] [] [] [] [] []]. Qed.

Lemma amount_char_lower (c : ascii) :
  amount_char (Text.lower_char c) = amount_char c
  /\ (amount_char c = true -> Text.lower_char c = c).
Proof. by destruct c as [[] [] [] [] [] [] [] []]. Qed.

Lemma list_of_lower (t : string) :
  list_ascii_of_string (Text.lower t) =
    Text.lower_char <$> list_ascii_of_string t.
Proof. induction t as [|c t IH]; simpl; [done | by rewrite IH]. Qed.

Lemma strip_word_lower (w s : list ascii) :
  Spec.strip_word w (Text.lower_char <$> s) =
    fmap (M := list) Text.lower_char <$> Spec.strip_word w s.
Proof.
  revert s. induction w as [|c w IH]; intros s; [reflexivity|].
  destruct s as [|x s]; [reflexivity|]. cbn [fmap list_fmap Spec.strip_word].
  unfold Re.ci_eq at 1. rewrite lower_char_idemp.
  fold (Re.ci_eq c x). destruct (Re.ci_eq c x); [apply IH | reflexivity].
Qed.

Lemma span_lower (p : ascii -> bool) (s : list ascii) :
  (forall c, p (Text.lower_char c) = p c) ->
  Spec.span p (Text.lower_char <$> s) =
    (Text.lower_char <$> (Spec.span p s).1,
     Text.lower_char <$> (Spec.span p s).2).
Proof.
  intros Hp. induction s as [|c s IH]; [reflexivity|].
  cbn [fmap list_fmap]. destruct (p c) eqn:Hc.
  - rewrite (span_cons_true p c s Hc).
    rewrite (span_cons_true p _ _ (eq_trans (Hp c) Hc)).
    fold (fmap (M := list) Text.lower_char s). by rewrite IH.
  - rewrite (span_cons_false p c s Hc).
    by rewrite (span_cons_false p _ _ (eq_trans (Hp c) Hc)).
Qed.

Lemma token_lower (p : ascii -> bool) (l : list ascii) :
  (forall c, p c = true -> Text.lower_char c = c) ->
  forallb p l = true -> Text.lower_char <$> l = l.
Proof.
  intros Hp. induction l as [|c l IH]; [reflexivity|]. simpl.
  intros [Hc Hl]%andb_true_iff.
  cbn [fmap list_fmap]. rewrite (Hp c Hc). f_equal. by apply IH.
Qed.

Lemma contract_here_lower (s : list ascii) :
  Spec.contract_here (Text.lower_char <$> s) = Spec.contract_here s.
Proof.
  unfold Spec.contract_here. rewrite strip_word_lower.
  destruct (Spec.strip_word _ s) as [s1|]; [|reflexivity].
  cbn [fmap option_fmap option_map].
  rewrite (span_lower Text.isspace s1 isspace_lower).
  destruct (Spec.span Text.isspace s1) as [ws s2]. cbn [fst snd].
  rewrite (span_lower contract_char s2 (fun c => proj1 (contract_char_lower c))).
  pose proof (span_all contract_char s2) as Hall.
  destruct (Spec.span contract_char s2) as [tok rest]. cbn [fst snd] in *.
  rewrite !length_fmap.
  by rewrite (token_lower contract_char tok
                (fun c => proj2 (contract_char_lower c)) Hall).
Qed.

Lemma amount_here_lower (s : list ascii) :
  Spec.amount_here (Text.lower_char <$> s) = Spec.amount_here s.
Proof.
  unfold Spec.amount_here. rewrite strip_word_lower.
  destruct (Spec.strip_word _ s) as [s1|]; [|reflexivity].
  cbn [fmap option_fmap option_map].
  rewrite (span_lower Text.isspace s1 isspace_lower). cbn [snd].
  rewrite strip_word_lower.
  destruct (Spec.strip_word _ (Spec.span Text.isspace s1).2) as [s2|];
    [|reflexivity].
  cbn [fmap option_fmap option_map].
  rewrite (span_lower Text.isspace s2 isspace_lower). cbn [snd].
  rewrite strip_word_lower.
  destruct (Spec.strip_word _ (Spec.span Text.isspace s2).2) as [s3|];
    [|reflexivity].
  cbn [fmap option_fmap option_map].
  rewrite (span_lower Text.isspace s3 isspace_lower). cbn [snd].
  rewrite (span_lower amount_char _ (fun c => proj1 (amount_char_lower c))).
  pose proof (span_all amount_char (Spec.span Text.isspace s3).2) as Hall.
  destruct (Spec.span amount_char _) as [tok rest]. cbn [fst snd] in *.
  rewrite !length_fmap.
  by rewrite (token_lower amount_char tok
                (fun c => proj2 (amount_char_lower c)) Hall).
Qed.

Lemma first_match_lower (here : list ascii -> option (list ascii))
    (s : list ascii) :
  (forall a, here (Text.lower_char <$> a) = here a) ->
  Spec.first_match here (Text.lower_char <$> s) = Spec.first_match here s.
Proof.
  intros Hh. induction s as [|c s IH].
  - cbn [fmap list_fmap Spec.first_match]. reflexivity.
  - change (Text.lower_char <$> c :: s)
      with (Text.lower_char c :: (Text.lower_char <$> s)).
    cbn [Spec.first_match].
    change (Text.lower_char c :: (Text.lower_char <$> s))
      with (Text.lower_char <$> c :: s).
    rewrite Hh. destruct (here (c :: s)); [reflexivity | exact IH].
Qed.

(** X4: [_extract] ignores letter case in its whole input: the text in lower
    case gives the same record. *)
Theorem extract_ignores_case (text : string) :
  _extract (Text.lower text) = _extract text.
Proof.
  pose proof (extract_contract (Text.lower text)) as Hc.
  pose proof (extract_amount (Text.lower text)) as Ha.
  rewrite first_contract_normalise, list_of_lower,
    (first_match_lower _ _ contract_here_lower),
    <- first_contract_normalise, <- extract_contract in Hc.
  rewrite first_amount_normalise, list_of_lower,
    (first_match_lower _ _ amount_here_lower),
    <- first_amount_normalise, <- extract_amount in Ha.
  destruct (_extract (Text.lower text)), (_extract text). simpl in *.
  congruence.
Qed.

(** *** A rendered record *)

Lemma strip_word_self (w r : list ascii) : Spec.strip_word w (w ++ r) = Some r.
Proof.
  induction w as [|c w IH]; [by destruct r|].
  cbn [app Spec.strip_word]. unfold Re.ci_eq. by rewrite Ascii.eqb_refl.
Qed.

Lemma span_space_word (w r : list ascii) :
  match w with x :: _ => Text.isspace x = false | [] => False end ->
  (Spec.span Text.isspace (Text.space :: w ++ r)).2 = w ++ r.
Proof.
  destruct w as [|x w]; [done|]. intros Hx.
  rewrite (span_cons_true Text.isspace Text.space _ eq_refl). cbn [snd app].
  by rewrite (span_cons_false _ _ _ Hx).
Qed.

Lemma token_not_space (x : ascii) :
  contract_char x = true \/ amount_char x = true ->
  Text.isspace x = false /\ Re.ci_eq "V" x = false.
Proof.
  destruct x as [[] [] [] [] [] [] [] []]; vm_compute; intuition congruence.
Qed.

Lemma first_match_skip (here : list ascii -> option (list ascii))
    (pre s : list ascii) :
  (forall x r, x ∈ pre -> here (x :: r) = None) ->
  Spec.first_match here (pre ++ s) = Spec.first_match here s.
Proof.
  induction pre as [|x pre IH]; intros Hpre; [reflexivity|].
  cbn [app Spec.first_match]. rewrite (Hpre x _ (list_elem_of_here _ _)).
  apply IH. intros y r Hy. apply Hpre. by apply list_elem_of_further.
Qed.

Lemma first_match_head (here : list ascii -> option (list ascii))
    (s token : list ascii) :
  here s = Some token -> Spec.first_match here s = Some token.
Proof. intros H. destruct s; simpl; by rewrite H. Qed.

Lemma contract_here_rendered (lc rest : list ascii) :
  forallb contract_char lc = true -> (3 <= length lc)%nat ->
  match rest with [] => True | x :: _ => contract_char x = false end ->
  Spec.contract_here
    (list_ascii_of_string "Contrato" ++ Text.space :: lc ++ rest) = Some lc.
Proof.
  intros Hall Hlen Hrest. unfold Spec.contract_here.
  rewrite strip_word_self.
  pose proof (span_space_word (lc ++ rest) []) as Hsp.
  rewrite app_nil_r in Hsp.
  pose proof (span_app Text.isspace (Text.space :: lc ++ rest)) as Happ.
  destruct lc as [|x lc]; [simpl in Hlen; lia|].
  assert (Hx : Text.isspace x = false).
  { simpl in Hall. apply andb_true_iff in Hall as [Hx _].
    apply token_not_space. by left. }
  rewrite (span_cons_true Text.isspace Text.space _ eq_refl).
  cbn [app]. rewrite (span_cons_false _ _ _ Hx). cbn [fst snd].
  change (x :: lc ++ rest) with ((x :: lc) ++ rest).
  rewrite (span_token contract_char (x :: lc) rest Hall Hrest).
  apply Nat.leb_le in Hlen. by rewrite Hlen.
Qed.

Lemma amount_here_rendered (la : list ascii) :
  forallb amount_char la = true -> (1 <= length la)%nat ->
  Spec.amount_here
    (list_ascii_of_string "Valor" ++ Text.space ::
     list_ascii_of_string "total" ++ Text.space ::
     list_ascii_of_string "R$" ++ Text.space :: la) = Some la.
Proof.
  intros Hall Hlen. unfold Spec.amount_here.
  rewrite strip_word_self, span_space_word by reflexivity.
  rewrite strip_word_self, span_space_word by reflexivity.
  rewrite strip_word_self.
  destruct la as [|y la]; [simpl in Hlen; lia|].
  assert (Hy : Text.isspace y = false).
  { simpl in Hall. apply andb_true_iff in Hall as [Hy _].
    apply token_not_space. by right. }
  rewrite (span_cons_true Text.isspace Text.space _ eq_refl).
  rewrite (span_cons_false _ _ _ Hy). cbn [snd].
  pose proof (span_token amount_char (y :: la) [] Hall I) as Hs.
  rewrite app_nil_r in Hs. rewrite Hs. reflexivity.
Qed.

(** X5: a text written as "Contrato <id> Valor total R$ <amount>", with an id
    and an amount made of the characters the two patterns accept, is read back
    field by field. *)
Theorem extract_reads_back_a_rendered_record (c a : string) :
  contract_token c = true -> amount_token a = true ->
  _extract ("Contrato " +:+ c +:+ " Valor total R$ " +:+ a) =
    {| contract := Some c; amount := Some a |}.
Proof.
  intros [Hclen Hc]%andb_true_iff [Halen Ha]%andb_true_iff.
  apply Nat.leb_le in Hclen, Halen.
  rewrite string_length_list in Hclen, Halen.
  set (text := "Contrato " +:+ c +:+ " Valor total R$ " +:+ a).
  set (lc := list_ascii_of_string c) in *.
  set (la := list_ascii_of_string a) in *.
  set (valor := list_ascii_of_string "Valor" ++ Text.space ::
                list_ascii_of_string "total" ++ Text.space ::
                list_ascii_of_string "R$" ++ Text.space :: la).
  assert (Htext1 : list_ascii_of_string text =
            list_ascii_of_string "Contrato" ++ Text.space :: lc
              ++ Text.space :: valor).
  { unfold text. rewrite !list_of_append. reflexivity. }
  assert (Htext2 : list_ascii_of_string text =
            (list_ascii_of_string "Contrato" ++ Text.space :: lc
               ++ [Text.space]) ++ valor).
  { rewrite Htext1. list_assoc. }
  pose proof (extract_contract text) as H1.
  pose proof (extract_amount text) as H2.
  rewrite first_contract_normalise, Htext1 in H1.
  rewrite first_amount_normalise, Htext2 in H2.
  assert (Hhere : Spec.contract_here
            (list_ascii_of_string "Contrato" ++ Text.space :: lc
               ++ Text.space :: valor) = Some lc).
  { by apply contract_here_rendered. }
  rewrite (first_match_head _ _ _ Hhere) in H1.
  rewrite first_match_skip in H2.
  2:{ intros x r Hx. unfold Spec.amount_here.
      cbn [list_ascii_of_string Spec.strip_word].
      assert (Hv : Re.ci_eq "V" x = false); [|by rewrite Hv].
      apply elem_of_app in Hx as [Hx|Hx].
      - repeat (apply elem_of_cons in Hx as [->|Hx]; [reflexivity|]).
        by apply elem_of_nil in Hx.
      - apply elem_of_cons in Hx as [->|Hx]; [reflexivity|].
        apply elem_of_app in Hx as [Hx|Hx].
        + apply token_not_space. left.
          apply forallb_all in Hc. by eapply Forall_forall in Hc.
        + apply list_elem_of_singleton in Hx as ->. reflexivity. }
  pose proof (amount_here_rendered la Ha Halen) as Ham. fold valor in Ham.
  rewrite (first_match_head _ _ _ Ham) in H2.
  cbn [fmap option_fmap option_map] in H1, H2.
  unfold lc in H1. unfold la in H2.
  rewrite string_of_list_ascii_of_string in H1, H2.
  destruct (_extract text). simpl in *. congruence.
Qed.

Lemma extract_reads_back_a_rendered_record_witness :
  _extract "Contrato 123.456-7 Valor total R$ 1.234,56" =
    {| contract := Some "123.456-7"; amount := Some "1.234,56" |}.
Proof.
  exact (extract_reads_back_a_rendered_record "123.456-7" "1.234,56"
           eq_refl eq_refl).
Defined.

(** ** [page_signature] and [collect_rows] *)

Lemma contains_nonempty (h : string) :
  Text.contains DETAIL_URL_PART h = true -> Text.nonempty h = true.
Proof. by destruct h. Qed.

Lemma concat_empty (sep : string) (l : list string) :
  Forall (fun h => Text.nonempty h = true) l ->
  String.concat sep l = "" <-> l = [].
Proof.
  intros Hl. split; [|by intros ->].
  destruct Hl as [|h l Hh Hl]; [done|].
  destruct h as [|c h]; [done|]. by destruct l.
Qed.

Lemma signature_tokens (els : list element) :
  List.filter (Text.contains DETAIL_URL_PART) (js_hrefs els) =
    List.filter (Text.contains DETAIL_URL_PART) (js_items els).*1.
Proof.
  induction els as [|el els IH]; [reflexivity|].
  unfold js_hrefs, js_items in *. cbn [omap list_omap fmap list_fmap].
  destruct (el_href el) as [[|c h]|]; cbn [or_empty default fst List.filter].
  - exact IH.
  - destruct (Text.contains _ _); [f_equal|]; exact IH.
  - exact IH.
Qed.

Lemma filter_rows_none (items : list (string * string))
    (v seen : gset string) (out : list (string * string)) :
  List.filter (Text.contains DETAIL_URL_PART) items.*1 = [] ->
  filter_rows items v seen out = out.
Proof.
  induction items as [|[h t] items IH]; [reflexivity|].
  cbn [fmap list_fmap fst List.filter filter_rows].
  destruct (Text.contains DETAIL_URL_PART h); [discriminate|].
  rewrite orb_true_r. exact IH.
Qed.

Lemma filter_rows_some (items : list (string * string)) :
  filter_rows items ∅ ∅ [] = [] ->
  List.filter (Text.contains DETAIL_URL_PART) items.*1 = [].
Proof.
  intros Hnone.
  destruct (filter_rows_fresh items ∅) as (_ & _ & Hin).
  rewrite Hnone in Hin.
  induction items as [|[h t] items IH]; [reflexivity|].
  cbn [fmap list_fmap fst List.filter].
  destruct (Text.contains DETAIL_URL_PART h) eqn:Hh.
  - destruct (Hin h t) as [H|H]; [by left | by apply contains_nonempty | done
                                  | by apply elem_of_empty in H
                                  | by apply elem_of_nil in H].
  - apply IH.
    + cbn [filter_rows] in Hnone. rewrite Hh, orb_true_r in Hnone.
      exact Hnone.
    + intros h' t' H'. apply (Hin h' t'). by right.
Qed.

(** X6: the signature of a view is empty exactly when the view has no row for
    [collect_rows] to return with nothing visited; and a view with an empty
    signature has no row to return whatever was visited. *)
Theorem empty_signature_means_no_rows (els : list element) :
  (signature_of els = "" <-> filter_rows (js_items els) ∅ ∅ [] = [])
  /\ (forall v : gset string,
        signature_of els = "" -> filter_rows (js_items els) v ∅ [] = []).
Proof.
  assert (Hsig : signature_of els = "" <->
                 List.filter (Text.contains DETAIL_URL_PART)
                   (js_items els).*1 = []).
  { unfold signature_of. rewrite signature_tokens. apply concat_empty.
    apply Forall_forall. intros h Hh. apply contains_nonempty.
    apply list_elem_of_In, List.filter_In in Hh. tauto. }
  split; [split|].
  - intros H. apply filter_rows_none. by apply Hsig.
  - intros H. apply Hsig. by apply filter_rows_some.
  - intros v H. apply filter_rows_none. by apply Hsig.
Qed.

Lemma filter_rows_visited_more (items : list (string * string))
    (v w seen seen' : gset string) (out out' : list (string * string)) :
  (forall h, h ∈ seen' <-> h ∈ seen /\ h ∉ w) ->
  out' = List.filter (fun row => bool_decide (row.1 ∉ w)) out ->
  filter_rows items (v ∪ w) seen' out' =
    List.filter (fun row => bool_decide (row.1 ∉ w))
      (filter_rows items v seen out).
Proof.
  revert seen seen' out out'.
  induction items as [|[h t] items IH]; intros seen seen' out out' Hseen Hout;
    [done|].
  cbn [filter_rows].
  destruct (negb (Text.nonempty h) || negb (Text.contains DETAIL_URL_PART h));
    [by apply IH|].
  destruct (decide (h ∈ v)) as [Hv|Hv].
  { rewrite (bool_decide_eq_true_2 (h ∈ v ∪ w))
      by (apply elem_of_union; by left).
    rewrite (bool_decide_eq_true_2 (h ∈ v)) by done. by apply IH. }
  rewrite (bool_decide_eq_false_2 (h ∈ v)) by done.
  destruct (decide (h ∈ w)) as [Hw|Hw].
  - rewrite (bool_decide_eq_true_2 (h ∈ v ∪ w))
      by (apply elem_of_union; by right).
    cbn [orb]. destruct (bool_decide (h ∈ seen)); [by apply IH|].
    apply IH.
    + intros h'. rewrite Hseen, elem_of_union, elem_of_singleton.
      split; [tauto|]. intros [[->|] ?]; tauto.
    + rewrite List.filter_app. cbn [List.filter fst].
      rewrite (bool_decide_eq_false_2 (h ∉ w)) by tauto.
      by rewrite app_nil_r.
  - rewrite (bool_decide_eq_false_2 (h ∈ v ∪ w))
      by (rewrite elem_of_union; tauto).
    cbn [orb].
    assert (Hs : bool_decide (h ∈ seen') = bool_decide (h ∈ seen)).
    { apply bool_decide_ext. rewrite Hseen. tauto. }
    rewrite Hs. destruct (bool_decide (h ∈ seen)); [by apply IH|].
    apply IH.
    + intros h'. rewrite !elem_of_union, !elem_of_singleton, Hseen.
      split; [|tauto]. intros [->|]; tauto.
    + rewrite List.filter_app. cbn [List.filter fst].
      rewrite (bool_decide_eq_true_2 (h ∉ w)) by done. by rewrite Hout.
Qed.

(** X7: visiting more tokens removes exactly the rows of those tokens from
    what [collect_rows] returns for a batch, and nothing else: the rows
    returned with [v ∪ w] visited are the rows returned with [v] visited
    whose token is not in [w], in the same order. *)
Theorem collect_rows_skips_exactly_the_visited
    (items : list (string * string)) (v w : gset string) :
  filter_rows items (v ∪ w) ∅ [] =
    List.filter (fun row => bool_decide (row.1 ∉ w)) (filter_rows items v ∅ []).
Proof.
  apply filter_rows_visited_more; [|reflexivity].
  intros h. split; [by intros H%elem_of_empty|].
  by intros [H%elem_of_empty _].
Qed.

(** ** The polling budget of [wait_table_ready] *)

Section Budget.

Context {D : driver}.

Lemma wait_rows_within_polls (page : handle) (timeout_ms waited : Z) :
  runs (wait_rows (D := D) page timeout_ms waited)
    (fun _ evs => within_polls (polls_left timeout_ms waited) evs).
Proof.
  revert waited. apply (budget_ind timeout_ms). intros waited IH.
  rewrite wait_rows_step. destruct (decide (waited < timeout_ms)) as [Hlt|Hge].
  2:{ apply runs_ret. unfold within_polls. cbn. lia. }
  rewrite (polls_left_step _ _ Hlt).
  apply runs_bind, runs_call. intros [n|e];
    [|unfold within_polls; cbn; lia].
  destruct (0 <? n)%nat.
  { apply runs_ret. unfold within_polls. cbn. lia. }
  apply runs_bind, runs_try_except, runs_call.
  assert (Hrest : forall rm : res unit,
    runs (bind (call (WaitForTimeout page 200))
            (fun _ => wait_rows (D := D) page timeout_ms (waited + 200)))
      (fun r evs2 =>
         within_polls (S (polls_left timeout_ms (waited + 200)))
           ([Called (Count page (Loc VISIBLE_ROW_LINK)) (Ok n)]
              ++ [Called (MouseWheel page 0 600) rm] ++ evs2))).
  { intros rm. apply runs_bind, runs_call. intros [[]|e].
    - eapply runs_conseq; [apply (IH Hlt)|].
      intros r evs (Hc & Hs & Hl). unfold within_polls.
      rewrite !count_events_app, !length_app. cbn. lia.
    - unfold within_polls. cbn. lia. }
  intros [[]|e]; [apply Hrest|]. cbn [any_exception].
  apply runs_ret.
  eapply runs_conseq; [apply (Hrest (Raise e))|].
  intros r evs. by rewrite app_nil_r.
Qed.

End Budget.

(** X8: [wait_table_ready] polls a bounded number of times: with a budget of
    [timeout_ms] it counts the visible links at most once per 200 ms of the
    budget (rounded up), sleeps at most as often, and makes at most three
    calls per poll plus the final wait for the table container; with the
    budget of 10000 ms the engine uses that is 50 polls, and with no budget
    at all the final wait is the only call. *)
Theorem wait_table_ready_polls_are_bounded (D : driver) (page : handle)
    (timeout_ms : Z) (s : state D) :
  let evs := new_events s (wait_table_ready page timeout_ms s).2 in
  (count_events is_count_event evs <= polls_left timeout_ms 0)%nat
  /\ (count_events is_sleep_event evs <= polls_left timeout_ms 0)%nat
  /\ (length evs <= 3 * polls_left timeout_ms 0 + 1)%nat
  /\ polls_left 10000 0 = 50%nat
  /\ (timeout_ms <= 0 -> polls_left timeout_ms 0 = 0%nat).
Proof.
  intros evs.
  assert (H : runs (wait_table_ready (D := D) page timeout_ms)
                (fun _ evs =>
                   (count_events is_count_event evs
                    <= polls_left timeout_ms 0)%nat
                   /\ (count_events is_sleep_event evs
                       <= polls_left timeout_ms 0)%nat
                   /\ (length evs <= 3 * polls_left timeout_ms 0 + 1)%nat)).
  { unfold wait_table_ready. apply runs_bind.
    eapply runs_conseq; [apply wait_rows_within_polls|].
    intros [[[]|]|e] evs1 (Hc & Hs & Hl).
    - apply runs_ret. rewrite app_nil_r. lia.
    - apply runs_call. intros r.
      rewrite !count_events_app, length_app. cbn. lia.
    - lia. }
  apply (runs_new_events _ _ s) in H. destruct H as (Hc & Hs & Hl).
  split_and!; [done..|reflexivity|].
  intros Hle. apply polls_left_done. lia.
Qed.

(** ** The click of [click_next] *)

Lemma count_events_none (p q : event -> bool) (l : list event) :
  (forall ev, q ev = true -> p ev = false) ->
  Forall (fun ev => q ev = true) l -> count_events p l = 0%nat.
Proof.
  intros Hpq Hl. unfold count_events.
  induction Hl as [|ev l Hev _ IH]; [reflexivity|].
  simpl. by rewrite (Hpq ev Hev).
Qed.

Lemma count_events_cons (p : event -> bool) (ev : event) (l : list event) :
  count_events p (ev :: l) =
    ((if p ev then 1 else 0) + count_events p l)%nat.
Proof. unfold count_events. simpl. by destruct (p ev). Qed.

Lemma watch_not_done_click (ev : event) :
  is_watch_event ev = true -> is_done_click ev = false.
Proof.
  destruct ev as [X o r| | |]; [|done..].
  by destruct o as [? []| | | | | | | | | | | | | | | | | | | | | | |].
Qed.

Lemma watch_not_clicked_log (ev : event) :
  is_watch_event ev = true -> is_clicked_log ev = false.
Proof. by destruct ev. Qed.

(** X9: the record "Clicked Next" is truthful: in every run of [click_next]
    there are as many clicks that went through as records "Clicked Next", at
    most one of each, and exactly one when [click_next] returns true. *)
Theorem click_next_logs_the_click_it_made (D : driver) (page : handle)
    (s : state D) :
  let evs := new_events s (click_next page s).2 in
  count_events is_done_click evs = count_events is_clicked_log evs
  /\ (count_events is_done_click evs <= 1)%nat
  /\ ((click_next page s).1 = Ok true ->
      count_events is_done_click evs = 1%nat).
Proof.
  intros evs.
  pose proof (runs_new_events _ _ s (click_next_runs (D := D) page)) as H.
  fold evs in H. clearbody evs.
  destruct (click_next page s).1 as [b|e0] eqn:Er; clear Er;
    click_cases H;
    try (destruct Hpress as [[-> Hr]|[[e' ->]|[e' ->]]];
         [try discriminate Hr|..]).
  all: repeat (progress rewrite ?count_events_cons, ?count_events_app).
  all: try rewrite
         (count_events_none is_done_click _ _ watch_not_done_click Hnudge).
  all: try rewrite
         (count_events_none is_clicked_log _ _ watch_not_clicked_log Hnudge).
  all: try rewrite
         (count_events_none is_done_click _ _ watch_not_done_click Hpost).
  all: try rewrite
         (count_events_none is_clicked_log _ _ watch_not_clicked_log Hpost).
  all: cbn; split_and!; first [discriminate | intros; lia].
Qed.

(** ** [pick_ctx] *)

Ltac in_events :=
  first [ assumption
        | apply list_elem_of_here
        | apply list_elem_of_further; in_events
        | apply elem_of_app; left; in_events
        | apply elem_of_app; right; in_events ].

Section PickCtx.

Context {D : driver}.

Lemma pick_frame_ends_later (page : handle) (fr : handle)
    (rest : list handle) (r : res handle) (pre evs : list event) :
  pick_frame_ends page rest r evs ->
  pick_frame_ends page (fr :: rest) r (pre ++ evs).
Proof.
  destruct r as [h|e]; simpl.
  - intros [->|(n & m & Hh & Hc & Hm & Hne)]; [by left|].
    right. exists n, m. split_and!; [|in_events..|done].
    by apply list_elem_of_further.
  - intros [pre' ->]. exists (pre ++ pre'). by rewrite app_assoc.
Qed.

Lemma pick_frame_runs (page : handle) (frames : list handle) :
  runs (pick_frame (D := D) page frames) (pick_frame_ends page frames).
Proof.
  induction frames as [|fr rest IH]; cbn [pick_frame].
  { apply runs_ret. by left. }
  apply runs_bind, runs_call. intros [m|e]; [|by exists []].
  destruct (Nat.eqb fr m) eqn:Hfr.
  { eapply runs_conseq; [apply IH|]. intros r evs.
    apply pick_frame_ends_later. }
  apply Nat.eqb_neq in Hfr.
  apply runs_bind, runs_try_except, runs_bind, runs_call. intros [n|e].
  - apply runs_ret. destruct n as [|n]; cbn [Nat.eqb negb].
    + eapply runs_conseq; [apply IH|]. intros r evs H.
      rewrite app_assoc. by apply pick_frame_ends_later.
    + apply runs_ret. right. exists n, m.
      split_and!; [apply list_elem_of_here|in_events..|done].
  - cbn [any_exception]. apply runs_ret.
    eapply runs_conseq; [apply IH|]. intros r evs H.
    rewrite app_assoc. by apply pick_frame_ends_later.
Qed.

Lemma pick_ctx_runs (page : handle) :
  runs (pick_ctx (D := D) page) (pick_ctx_ends page).
Proof.
  unfold pick_ctx. apply runs_bind, runs_call. intros [n|e].
  2:{ exists []. by left. }
  destruct n as [|n]; cbn [Nat.eqb negb].
  2:{ apply runs_ret. left. split; [done|]. by exists n. }
  apply runs_bind, runs_call. intros [frames|e].
  2:{ exists [Called (Count page DATA_MARKER) (Ok 0%nat)]. right. by left. }
  eapply runs_conseq; [apply pick_frame_runs|].
  intros [h|e] evs; simpl.
  - intros H. right. exists frames. split_and!; [in_events..|].
    destruct H as [->|(n & m & Hh & Hc & Hm & Hne)]; [by left|].
    right. exists n, m. split_and!; [done|in_events..|done].
  - intros [pre ->].
    exists ([Called (Count page DATA_MARKER) (Ok 0%nat)]
              ++ [Called (Frames page) (Ok frames)] ++ pre).
    right. right. list_assoc.
Qed.

End PickCtx.

(** X10: [pick_ctx] returns the page itself (at once, with one call, when the
    marker is counted on the page) or a frame listed by the page, other than
    the main frame, on which the marker was counted.  A failure while probing
    a frame is absorbed: [pick_ctx] fails only with the failure of the count
    on the page, of listing the frames or of asking for the main frame. *)
Theorem pick_ctx_outcome (D : driver) (page : handle) (s : state D) :
  pick_ctx_ends page (pick_ctx page s).1 (new_events s (pick_ctx page s).2).
Proof. apply runs_new_events, pick_ctx_runs. Qed.

(** ** [extract_from_context] *)

Section DetailTab.

Context {D : driver} (get_text : string -> string).

Lemma extract_fallback_runs (ctx : handle) (quick : list event) :
  quick_reads_give_up ctx quick ->
  runs (bind (call (D := D) (Content ctx))
          (fun html => ret (_extract (get_text html))))
    (fun r evs2 => extract_from_context_ends get_text ctx r (quick ++ evs2)).
Proof.
  intros Hq. apply runs_bind, runs_call. intros [html|e].
  - apply runs_ret. right. right. exists quick, (Ok html).
    by rewrite app_nil_r.
  - right. right. by exists quick, (Raise e).
Qed.

Lemma extract_from_context_runs (ctx : handle) :
  runs (extract_from_context (D := D) get_text ctx)
    (extract_from_context_ends get_text ctx).
Proof.
  unfold extract_from_context.
  apply runs_bind, runs_try_except, runs_bind, runs_call. intros [ct|e].
  - apply runs_bind, runs_call. intros [vt|e].
    + rewrite (truthy_complete _ (extract_well_formed _)).
      destruct (complete (_extract (ct +:+ " " +:+ vt))) eqn:Hc.
      * apply runs_ret, runs_ret. left. exists ct, vt. by rewrite Hc.
      * apply runs_ret.
        eapply runs_conseq; [apply extract_fallback_runs|].
        -- right. right. exists ct, vt. split; [reflexivity | exact Hc].
        -- intros r evs. by rewrite !app_nil_r.
    + destruct e; cbn [only_timeout].
      * apply runs_ret.
        eapply runs_conseq; [apply extract_fallback_runs|].
        -- right. left. by exists ct.
        -- intros r evs. by rewrite !app_nil_r.
      * right. left. split; [done|]. right. by exists ct.
  - destruct e; cbn [only_timeout].
    + apply runs_ret.
      eapply runs_conseq; [apply extract_fallback_runs|].
      * by left.
      * intros r evs. by rewrite !app_nil_r.
    + right. left. split; [done|]. by left.
Qed.

(** ** [open_details_and_extract] *)

Lemma runs_try_finally {A : Type} (m : M D A) (fin : M D unit)
    (Q : res A -> list event -> Prop) :
  runs m (fun r1 evs1 =>
            runs fin (fun rf evs2 =>
                        Q (match rf with
                           | Ok _ => r1
                           | Raise e => Raise e
                           end) (evs1 ++ evs2))) ->
  runs (try_finally m fin) Q.
Proof.
  intros Hm s. unfold try_finally. destruct (Hm s) as (evs1 & Ht1 & H1).
  destruct (m s) as [r1 s1]. simpl in *.
  destruct (H1 s1) as (evs2 & Ht2 & H2).
  exists (evs1 ++ evs2). rewrite app_assoc, <- Ht1, <- Ht2.
  by destruct (fin s1) as [[[]|e] s2].
Qed.

Lemma quiet_tab_pick_frame (page : handle) (frames : list handle) :
  quiet is_tab_event (pick_frame (D := D) page frames).
Proof.
  induction frames as [|fr rest IH]; simpl; quiet_tac; apply IH.
Qed.

Lemma quiet_tab_pick_ctx (page : handle) :
  quiet is_tab_event (pick_ctx (D := D) page).
Proof. unfold pick_ctx. quiet_tac. apply quiet_tab_pick_frame. Qed.

Lemma quiet_tab_extract_from_context (ctx : handle) :
  quiet is_tab_event (extract_from_context (D := D) get_text ctx).
Proof. unfold extract_from_context. quiet_tac. Qed.

Lemma open_details_runs (page : handle) (href : string) :
  runs (open_details (D := D) get_text page href)
    (open_details_ends page href).
Proof.
  unfold open_details. apply runs_bind, runs_call. intros [u|e].
  2:{ left. by exists e. }
  apply runs_bind, runs_call. intros [dp|e].
  2:{ right. left. by exists u, e. }
  apply runs_try_finally, runs_bind, runs_call. intros [[]|e].
  2:{ apply runs_call. intros rc. right. right.
      exists u, dp, (Raise e), [], rc, (Raise e).
      split; [list_assoc|]. split; [constructor|]. by split. }
  match goal with
  | |- runs ?m _ =>
      assert (Hq : quiet is_tab_event m)
  end.
  { quiet_tac; first [apply quiet_tab_pick_ctx
                     | apply quiet_tab_extract_from_context]. }
  apply quiet_runs in Hq. intros s.
  destruct (Hq s) as (mid & Ht & Hmid). exists mid. split; [exact Ht|].
  apply runs_call. intros rc. right. right.
  eexists u, dp, (Ok tt), mid, rc, _.
  split; [list_assoc|]. split; [done|]. split; [done | reflexivity].
Qed.

End DetailTab.

(** X11: [extract_from_context] ends in one of three ways.  Both quick reads
    answer and their texts give a complete record: that record is returned
    and the markup is never read.  A quick read fails with something other
    than a timeout: that failure is raised.  Otherwise (a quick read timed
    out, or the record of the quick reads lacks a field) the whole markup is
    read and what [_extract] makes of its text is returned, complete or not;
    a timeout of a quick read is never raised. *)
Theorem extract_from_context_outcome (D : driver)
    (get_text : string -> string) (ctx : handle) (s : state D) :
  extract_from_context_ends get_text ctx
    (extract_from_context get_text ctx s).1
    (new_events s (extract_from_context get_text ctx s).2).
Proof. apply runs_new_events, extract_from_context_runs. Qed.

(** X12: [open_details_and_extract] opens one tab, sends it to the absolute
    address of the row (the link resolved against the address of the table
    page) and closes it as its last call on every path, whether reading the
    detail view succeeded or failed; when closing fails, that failure is the
    outcome.  Only when the address of the page cannot be read or no tab can
    be opened is there nothing to close. *)
Theorem detail_tab_is_always_closed (D : driver)
    (get_text : string -> string) (page : handle) (href : string)
    (s : state D) :
  exists evs,
    new_events s (open_details_and_extract get_text page href s).2 =
      FetchCall href :: evs
        ++ [FetchReturn href (open_details_and_extract get_text page href s).1]
    /\ open_details_ends page href
         (open_details_and_extract get_text page href s).1 evs.
Proof.
  unfold open_details_and_extract, bind, emit, new_events. cbn [fst snd].
  match goal with
  | |- context [open_details _ _ _ ?s1] => set (s1' := s1)
  end.
  destruct (open_details_runs get_text page href s1') as (evs & Ht & Hends).
  destruct (open_details get_text page href s1') as [r s2]. simpl in *.
  exists evs. split; [|exact Hends].
  rewrite Ht. rewrite <- !app_assoc. by rewrite drop_app_length.
Qed.

(** ** The books of a run *)

Lemma nav_is_plain (ev : event) :
  is_nav_event ev = true -> is_plain_event ev = true.
Proof. unfold is_nav_event. by intros [? _]%andb_true_iff. Qed.

Lemma nav_is_crawl (ev : event) :
  is_nav_event ev = true -> is_crawl_event ev = true.
Proof. unfold is_nav_event. by intros [_ ?]%andb_true_iff. Qed.

Lemma watch_is_nav (ev : event) :
  is_watch_event ev = true -> is_nav_event ev = true.
Proof.
  destruct ev as [X o r| | |]; [|done..].
  by destruct o as [? []| | | | | | | | | | | | | | | | | | | | | | |].
Qed.

Lemma detail_is_crawl (ev : event) :
  is_detail_event ev = true -> is_crawl_event ev = true.
Proof.
  destruct ev as [X o r| | |]; [|done..].
  by destruct o as [? []| | | | | | | | | | | | | | | | | | | | | | |].
Qed.

Lemma follows_refl {D : driver} (s : state D) : follows s s.
Proof.
  exists []. rewrite !app_nil_r.
  split_and!; [done|constructor| |done|constructor|done].
  simpl. set_tac.
Qed.

Section Books.

Context {D : driver} (get_text : string -> string).
Implicit Types (s : state D).


Lemma returns_tokens_extract_from_context (ctx : handle) :
  returns (extract_from_context (D := D) get_text ctx)
    (fun d => tokens_ok d = true).
Proof.
  unfold extract_from_context.
  apply returns_bind_with
    with (P1 := fun q => forall d, q = Some d -> tokens_ok d = true).
  - apply returns_try_except.
    + do 2 (apply returns_bind; intros ?).
      destruct (_ && _); apply returns_ret; intros d [= <-];
        apply extract_tokens_ok.
    + apply returns_ret. discriminate.
  - intros [d|] Hq.
    + apply returns_ret. by apply Hq.
    + apply returns_bind. intros html. apply returns_ret.
      apply extract_tokens_ok.
Qed.

Lemma returns_tokens_open_details (page : handle) (href : string) :
  returns (open_details (D := D) get_text page href)
    (fun d => tokens_ok d = true).
Proof.
  unfold open_details. do 2 (apply returns_bind; intros ?).
  apply returns_try_finally. do 3 (apply returns_bind; intros ?).
  apply returns_tokens_extract_from_context.
Qed.

(** Every record a row's fetch returned has fields that are tokens. *)
Lemma process_row_outcome_tokens (page : handle) (idx : Z) (h t : string) s
    (h' : string) (d : ContractData) :
  FetchReturn h' (Ok d)
    ∈ new_events s (process_row get_text page idx (h, t) s).2 ->
  tokens_ok d = true.
Proof.
  unfold new_events.
  destruct (process_row get_text page idx (h, t) s) as [r s'] eqn:E.
  unfold process_row, bind, log, emit, try_finally, visited_add in E.
  simpl in E.
  match type of E with
  | context [open_details_and_extract _ _ _ ?s1] => set (s1' := s1) in E
  end.
  assert (Hret : forall d0,
            (open_details_and_extract get_text page h s1').1 = Ok d0 ->
            tokens_ok d0 = true).
  { intros d0. unfold open_details_and_extract, bind, emit. simpl.
    match goal with
    | |- context [open_details _ _ _ ?s2] =>
        pose proof (returns_tokens_open_details page h s2 d0) as Hd
    end.
    destruct (open_details _ _ _ _) as [r0 s3]. exact Hd. }
  destruct (open_details_and_extract_run get_text page h s1')
    as (evs & Ht & HP & _).
  pose proof (detail_events_plain _ HP) as HP'.
  assert (Hfind : forall tail,
            Forall (fun ev => is_plain_event ev = true) tail ->
            FetchReturn h' (Ok d)
              ∈ drop (length (trace s))
                  ((trace s1' ++ FetchCall h :: evs
                      ++ [FetchReturn h
                            (open_details_and_extract get_text page h s1').1])
                     ++ tail) ->
            tokens_ok d = true).
  { intros tail Htail. subst s1'. cbn [trace].
    repeat (progress (rewrite <- ?app_assoc; cbn [app])).
    rewrite drop_app_length. intros Hin.
    apply elem_of_cons in Hin as [?|Hin]; [done|].
    apply elem_of_cons in Hin as [?|Hin]; [done|].
    apply elem_of_app in Hin as [Hin|Hin];
      [by apply plain_not_fetch_return in Hin|].
    apply elem_of_cons in Hin as [Hin|Hin];
      [|by apply plain_not_fetch_return in Hin].
    injection Hin as _ Hin. apply Hret. by rewrite <- Hin. }
  destruct (open_details_and_extract get_text page h s1') as [[d0|e] s2];
    simpl in *.
  - destruct (Text.truthy (contract d0) && Text.truthy (amount d0));
      simpl in E; injection E as <- <-; simpl; rewrite Ht.
    + apply (Hfind [Logged INFO (MsgExtracted d0)]). by repeat constructor.
    + apply (Hfind [Logged WARNING (MsgFailedToExtract h)]).
      by repeat constructor.
  - injection E as <- <-. simpl. rewrite Ht. intros Hin.
    apply (Hfind []); [constructor|]. by rewrite app_nil_r.
Qed.

Lemma quiet_follows {A : Type} (m : M D A) s0 :
  quiet is_nav_event m -> hoare (follows s0) m (fun _ => follows s0).
Proof.
  intros Hm s (evs & Ht & HP & Hv & Hs & Hok & Hlen).
  destruct (Hm s) as (Hv' & Hs' & evs' & Ht' & HP').
  assert (Hplain : Forall (fun ev => is_plain_event ev = true) evs').
  { eapply Forall_impl; [exact HP' | apply nav_is_plain]. }
  exists (evs ++ evs').
  rewrite fetched_app, outcomes_app, (fetched_plain _ Hplain),
    (outcomes_plain _ Hplain), !app_nil_r.
  split_and!.
  - by rewrite Ht', Ht, app_assoc.
  - apply Forall_app. split; [done|].
    eapply Forall_impl; [exact HP' | apply nav_is_crawl].
  - by rewrite Hv'.
  - by rewrite Hs'.
  - done.
  - done.
Qed.

Lemma quiet_nav_click_next (page : handle) :
  quiet is_nav_event (click_next (D := D) page).
Proof.
  unfold click_next. quiet_tac;
    apply (quiet_mono is_watch_event); try apply watch_is_nav;
    eauto using quiet_watch_of_wait with quiet.
Qed.

Lemma process_row_follows (page : handle) (idx : Z) (row : string * string)
    s0 :
  hoare (follows s0) (process_row (D := D) get_text page idx row)
    (fun _ => follows s0).
Proof.
  destruct row as [h t]. intros s (evs & Ht & HP & Hv & Hs & Hok & Hlen).
  pose proof (process_row_outcome_tokens page idx h t s) as Htok.
  unfold new_events in Htok.
  destruct (process_row_events get_text page idx h t s)
    as (evs1 & r0 & Ht1 & Hf1 & Ho1 & _ & Hv1 & _ & Hr).
  destruct (process_row_run get_text page idx h t s)
    as (evs2 & r2 & tail & Ht2 & HP2 & _ & Hr2).
  assert (Hc1 : Forall (fun ev => is_crawl_event ev = true) evs1).
  { rewrite Ht1 in Ht2. apply app_inv_head in Ht2. subst evs1.
    constructor; [done|]. constructor; [done|].
    apply Forall_app. split.
    - eapply Forall_impl; [exact HP2 | apply detail_is_crawl].
    - constructor; [done|].
      destruct r2 as [d|e].
      + destruct Hr2 as (_ & _ & Hr2). destruct (complete d);
          destruct Hr2 as [-> _]; by repeat constructor.
      + destruct Hr2 as (_ & -> & _). constructor. }
  exists (evs ++ evs1). rewrite fetched_app, outcomes_app, Hf1, Ho1.
  split_and!.
  - by rewrite Ht1, Ht, app_assoc.
  - by apply Forall_app.
  - rewrite Hv1, Hv, list_to_set_app_L. simpl. set_tac.
  - rewrite List.filter_app, app_assoc, <- Hs. destruct r0 as [d|e].
    + by destruct Hr as (_ & _ & -> & _).
    + destruct Hr as (_ & _ & ->). simpl. by rewrite app_nil_r.
  - apply Forall_app. split; [done|]. destruct r0 as [d|e]; [|constructor].
    apply Forall_singleton. apply (Htok h).
    rewrite Ht1, drop_app_length. rewrite Ht1 in Ht2.
    apply app_inv_head in Ht2. rewrite Ht2.
    assert (r2 = Ok d) as ->.
    { assert (Hin : FetchReturn h r2 ∈ evs1).
      { rewrite Ht2. do 2 apply list_elem_of_further.
        apply elem_of_app. right. apply list_elem_of_here. }
      rewrite Ht2 in Ho1. cbn in Ho1.
      rewrite outcomes_app, (outcomes_plain _ (detail_events_plain _ HP2))
        in Ho1.
      destruct r2 as [d2|e2].
      - cbn in Ho1. injection Ho1 as -> _. reflexivity.
      - destruct Hr2 as (_ & -> & _). discriminate Ho1. }
    do 2 apply list_elem_of_further. apply elem_of_app. right.
    apply list_elem_of_here.
  - rewrite !length_app. destruct r0; simpl; lia.
Qed.

Lemma process_rows_follows (page : handle) (idx : Z)
    (rows : list (string * string)) s0 :
  hoare (follows s0) (process_rows (D := D) get_text page idx rows)
    (fun _ => follows s0).
Proof.
  revert idx. induction rows as [|row rest IH]; intros idx.
  - by intros s.
  - cbn [process_rows]. apply invariant_bind.
    + apply process_row_follows.
    + intros a. apply IH.
Qed.

Lemma process_current_table_follows (page : handle) s0 :
  hoare (follows s0) (process_current_table (D := D) get_text page)
    (fun _ => follows s0).
Proof.
  unfold process_current_table.
  apply invariant_bind.
  { apply quiet_follows, (quiet_mono is_watch_event); [apply watch_is_nav|].
    apply quiet_watch_of_wait. eauto with quiet. }
  intros _. apply invariant_bind; [by intros s|]. intros v.
  apply invariant_bind.
  { apply quiet_follows, (quiet_mono is_watch_event); [apply watch_is_nav|].
    eauto with quiet. }
  intros [|row rows]; [by intros s|].
  apply invariant_bind; [apply quiet_follows; quiet_tac|].
  intros _. apply process_rows_follows.
Qed.

Lemma crawl_follows (fuel : nat) (page : handle) (page_idx : Z) s0 :
  hoare (follows s0) (crawl (D := D) get_text fuel page page_idx)
    (fun _ => follows s0).
Proof.
  revert page_idx. induction fuel as [|fuel IH]; intros page_idx;
    [by intros s|].
  cbn [crawl].
  apply invariant_bind; [apply quiet_follows; quiet_tac|]. intros _.
  apply invariant_bind; [apply process_current_table_follows|].
  intros _.
  apply invariant_bind; [apply quiet_follows, quiet_nav_click_next|].
  intros [|]; cbn [negb]; [apply IH | apply quiet_follows; quiet_tac].
Qed.

End Books.

(** X13: [process_current_table] keeps the books for any caller: whatever
    [visited] and [stash] it is handed, when it ends (normally or not)
    [visited] has grown by exactly the tokens it handed to the detail fetcher
    and [stash] by exactly the complete records the fetcher returned, in
    order; the fields of every record the fetcher returned are tokens of the
    two patterns; and the fetcher returned at most one record per token. *)
Theorem process_current_table_keeps_the_books (D : driver)
    (get_text : string -> string) (page : handle) (s : state D) :
  let s' := (process_current_table get_text page s).2 in
  let evs := new_events s s' in
  trace s' = trace s ++ evs
  /\ visited s' = list_to_set (fetched evs) ∪ visited s
  /\ stash s' = stash s ++ List.filter complete (outcomes evs)
  /\ Forall (fun d => tokens_ok d = true) (outcomes evs)
  /\ (length (outcomes evs) <= length (fetched evs))%nat.
Proof.
  intros s' evs. unfold evs, s', new_events.
  destruct (process_current_table_follows get_text page s s (follows_refl s))
    as (evs' & Ht & _ & Hv & Hs & Hok & Hlen).
  by rewrite Ht, drop_app_length.
Qed.

(** X14: what [process_current_table] does, step by step: it waits for the
    table, reads one batch, and returns at once, with no log record and no
    fetch, when the batch holds no new row; otherwise it logs the number of
    new rows and fetches them in the order [collect_rows] gave, every one of
    them when it returns normally and a prefix of them when a fetch fails. *)
Theorem process_current_table_outcome (D : driver)
    (get_text : string -> string) (page : handle) (s : state D) :
  process_current_table_ends page (visited s)
    (process_current_table get_text page s).1
    (new_events s (process_current_table get_text page s).2).
Proof.
  unfold new_events, process_current_table, bind.
  destruct (quiet_wait_table_ready (D := D) page 10000 s)
    as (Hv0 & _ & evs0 & Ht0 & HP0).
  exists evs0. split; [done|].
  destruct (wait_table_ready page 10000 s) as [[[]|e] s1]; simpl in *.
  2:{ left. exists e. by rewrite Ht0, drop_app_length. }
  right. unfold get_visited. simpl.
  destruct (collect_rows_run page (visited s1) s1) as (Hr & Ht & Hv & _).
  destruct (collect_rows page (visited s1) s1) as [rr s2]. simpl in *.
  match type of Ht with
  | _ = _ ++ [Called _ ?x] => set (rc := x) in *
  end.
  rewrite Hv0 in *.
  destruct rc as [els|e]; subst rr.
  2:{ left. exists e. split; [done|]. cbn [snd].
      by rewrite Ht, Ht0, <- app_assoc, drop_app_length. }
  right.
  destruct (filter_rows (js_items els) (visited s) ∅ []) as [|row rows]
    eqn:Hrows.
  { left. exists els. rewrite Hrows. split_and!; [done..|].
    unfold ret. cbn [snd].
    by rewrite Ht, Ht0, <- app_assoc, drop_app_length. }
  right. unfold bind, log, emit. cbv beta iota zeta.
  match goal with
  | |- context [process_rows _ _ _ _ ?s3] => set (s3' := s3)
  end.
  destruct (process_rows_run get_text page (row :: rows) 1 s3')
    as (evs & Hte & He & _ & Hpe & Hoke).
  exists els, evs. rewrite Hrows.
  split; [done|]. split; [|by split_and!].
  rewrite Hte. subst s3'. cbn [trace]. rewrite Ht, Ht0.
  repeat (progress (rewrite <- ?app_assoc; cbn [app])).
  by rewrite drop_app_length.
Qed.

(** ** The end of [scrape] *)

Lemma opening_is_plain (ev : event) :
  is_opening_event ev = true -> is_plain_event ev = true.
Proof. by destruct ev. Qed.

Lemma opening_not_write (ev : event) :
  is_opening_event ev = true -> is_write_event ev = false.
Proof.
  destruct ev as [X o r| | |]; [|done..].
  by destruct o.
Qed.

Lemma crawl_not_write (ev : event) :
  is_crawl_event ev = true -> is_write_event ev = false.
Proof.
  destruct ev as [X o r| | |]; [|done..].
  by destruct o.
Qed.

Lemma closing_is_plain (items : list ContractData) (r : res progress)
    (closing : list event) :
  closing_ends items r closing ->
  Forall (fun ev => is_plain_event ev = true) closing.
Proof.
  intros (rw & rest & -> & H). destruct rw as [[]|e].
  - destruct H as (rc & rest' & -> & H). destruct rc as [[]|e].
    + destruct H as (rb & -> & _). by repeat constructor.
    + destruct H as [-> _]. by repeat constructor.
  - destruct H as [-> _]. by repeat constructor.
Qed.

Section ScrapeEnds.

Context {D : driver} (get_text : string -> string).
Implicit Types (s : state D).

Lemma scrape_ends_opening {A : Type} (m : M D A) (f : A -> M D progress)
    s0 s :
  quiet is_opening_event m ->
  (forall a s1, extends is_opening_event s0 s1 ->
                scrape_ends s0 (f a s1).2 (f a s1).1) ->
  extends is_opening_event s0 s ->
  scrape_ends s0 (bind m f s).2 (bind m f s).1.
Proof.
  intros Hm Hf Hs. unfold bind.
  pose proof (extends_trans _ _ _ _ Hs (Hm s)) as Hs1.
  destruct (m s) as [[a|e] s1]; simpl in *; [by apply Hf|].
  destruct Hs1 as (Hv & Hst & evs & Ht & HP).
  exists evs, [], []. rewrite !app_nil_r. simpl.
  split_and!;
    [done|done|apply Forall_nil_2| |done|apply Forall_nil_2|done|done].
  rewrite Hv. set_tac.
Qed.

Lemma bind_run {A B : Type} (m : M D A) (f : A -> M D B) s :
  bind m f s =
    match m s with
    | (Ok a, s') => f a s'
    | (Raise e, s') => (Raise e, s')
    end.
Proof. reflexivity. Qed.

Lemma closing_runs s (items : list ContractData) :
  items = stash s ->
  let m := bind (log (D := D) INFO (MsgWriting (length items) "contracts.jsonl"))
             (fun _ => bind (call (WriteLines "contracts.jsonl" items))
                (fun _ => bind (call CloseContext)
                   (fun _ => bind (call CloseBrowser)
                      (fun _ => ret Finished)))) in
  exists closing,
    trace (m s).2 = trace s ++ closing
    /\ closing <> []
    /\ visited (m s).2 = visited s
    /\ stash (m s).2 = stash s
    /\ closing_ends items (m s).1 closing.
Proof.
  intros Hitems m. subst m. unfold bind, log, emit. cbn [fst snd].
  rewrite call_run. cbn [st_world].
  destruct (answer D (WriteLines _ _) _) as [[[]|e] w1]; cbn.
  2:{ eexists. split; [rewrite <- app_assoc; reflexivity|].
      split; [done|]. split_and!; [done..|].
      eexists (Raise e), []. by split. }
  rewrite call_run. cbn [st_world].
  destruct (answer D CloseContext _) as [[[]|e] w2]; cbn.
  2:{ eexists. split; [rewrite <- !app_assoc; reflexivity|].
      split; [done|]. split_and!; [done..|].
      eexists (Ok tt), _. split; [reflexivity|].
      eexists (Raise e), []. by split. }
  rewrite call_run. cbn [st_world].
  destruct (answer D CloseBrowser _) as [rb w3]; cbn.
  eexists. split; [destruct rb as [[]|e]; cbn; rewrite <- !app_assoc;
                   reflexivity|].
  split; [done|].
  split; [by destruct rb as [[]|e]|]. split; [by destruct rb as [[]|e]|].
  eexists (Ok tt), _. split; [reflexivity|].
  eexists (Ok tt), _. split; [reflexivity|].
  exists rb. split; [reflexivity|]. by destruct rb as [[]|e].
Qed.

Lemma scrape_run (fuel : nat) s :
  scrape_ends s (scrape get_text fuel s).2 (scrape get_text fuel s).1.
Proof.
  unfold scrape.
  apply scrape_ends_opening; [quiet_tac| |apply extends_refl].
  do 3 (intros ? ? ?; apply scrape_ends_opening; [quiet_tac| |assumption]).
  intros page ? ?. apply scrape_ends_opening; [quiet_tac| |assumption].
  do 3 (intros ? ? ?; apply scrape_ends_opening; [quiet_tac| |assumption]).
  intros _ s1' Hopen.
  destruct Hopen as (Hv & Hst & opening & Ht & HP).
  pose proof (crawl_follows get_text fuel page 1 s1' s1' (follows_refl s1'))
    as (crawled & Htc & HPc & Hvc & Hsc & Hok & Hlen).
  pose proof (crawl_failure_is_final get_text fuel page 1 s1') as Hfinal.
  rewrite bind_run.
  destruct (crawl get_text fuel page 1 s1') as [[[|]|e] sc]; cbn [fst snd] in *.
  - rewrite bind_run. change (get_stash sc) with (Ok (stash sc), sc).
    cbv beta iota.
    destruct (closing_runs sc (stash sc) eq_refl)
      as (closing & Htw & Hne & Hvw & Hsw & Hends).
    match type of Htw with
    | trace (?x).2 = _ => destruct x as [r sw]
    end.
    cbn [fst snd] in *. exists opening, crawled, closing.
    split_and!; [by rewrite Htw, Htc, Ht, <- !app_assoc|done|done
                |by rewrite Hvw, Hvc, Hv|by rewrite Hsw, Hsc, Hst|done|done|].
    destruct closing as [|ev closing]; [done|]. rewrite Hsw. split; [done|].
    intros Hclean. rewrite app_assoc, <- Ht, <- Htc.
    apply (failure_is_final_ok Finished). apply Hfinal. rewrite Ht.
    intros h e Hin. apply elem_of_app in Hin as [Hin|Hin];
      [by apply Hclean in Hin|].
    eapply plain_not_fetch_return; [|exact Hin].
    eapply Forall_impl; [exact HP | apply opening_is_plain].
  - unfold ret. cbn [fst snd]. exists opening, crawled, []. rewrite app_nil_r.
    split_and!; [by rewrite Htc, Ht, <- !app_assoc|done|done
                |by rewrite Hvc, Hv|by rewrite Hsc, Hst|done|done|done].
  - exists opening, crawled, []. rewrite app_nil_r.
    split_and!; [by rewrite Htc, Ht, <- !app_assoc|done|done
                |by rewrite Hvc, Hv|by rewrite Hsc, Hst|done|done|done].
Qed.

End ScrapeEnds.

Lemma filter_complete_ok (l : list ContractData) :
  Forall (fun d => tokens_ok d = true) l ->
  Forall (fun d => complete d = true /\ tokens_ok d = true)
    (List.filter complete l).
Proof.
  induction 1 as [|d l Hd _ IH]; [constructor|]. simpl.
  destruct (complete d) eqn:Hc; [|exact IH]. by constructor.
Qed.

Lemma Forall_not_write (P : event -> bool) (l : list event) :
  (forall ev, P ev = true -> is_write_event ev = false) ->
  Forall (fun ev => P ev = true) l ->
  Forall (fun ev => is_write_event ev = false) l.
Proof. intros HP Hl. eapply Forall_impl; [exact Hl | exact HP]. Qed.

(** X15: when [scrape] finishes, the last four things it did are: log the
    number of records, write the file "contracts.jsonl" with the stash, close
    the context, close the browser; nothing was written before; and the
    records written are, after those the stash held at the start, exactly the
    complete records the detail fetcher returned during the run, in order,
    each with a contract id and an amount that are tokens of the two
    patterns. *)
Theorem scrape_writes_the_stash_once (D : driver)
    (get_text : string -> string) (fuel : nat) (s : state D) :
  let s' := (scrape get_text fuel s).2 in
  (scrape get_text fuel s).1 = Ok Finished ->
  exists pre,
    new_events s s' =
      pre ++ [Logged INFO (MsgWriting (length (stash s')) "contracts.jsonl");
              Called (WriteLines "contracts.jsonl" (stash s')) (Ok tt);
              Called CloseContext (Ok tt); Called CloseBrowser (Ok tt)]
    /\ Forall (fun ev => is_write_event ev = false) pre
    /\ stash s' = stash s ++ List.filter complete (outcomes pre)
    /\ Forall (fun d => complete d = true /\ tokens_ok d = true)
         (List.filter complete (outcomes pre)).
Proof.
  intros s' Hr. unfold s', new_events.
  destruct (scrape_run get_text fuel s)
    as (opening & crawled & closing & Ht & HPo & HPc & _ & Hs & Hok & _ & Hc).
  rewrite Hr in Hc. destruct closing as [|ev closing]; [done|].
  destruct Hc as [(rw & rest & Hcl & Hw) _].
  destruct rw as [[]|e]; [|by destruct Hw].
  destruct Hw as (rc & rest' & -> & Hw).
  destruct rc as [[]|e]; [|by destruct Hw].
  destruct Hw as (rb & -> & Hw). destruct rb as [[]|e]; [|done].
  exists (opening ++ crawled).
  assert (Hout : outcomes (opening ++ crawled) = outcomes crawled).
  { rewrite outcomes_app, outcomes_plain; [done|].
    eapply Forall_impl; [exact HPo | apply opening_is_plain]. }
  rewrite Hout. split_and!.
  - rewrite Ht, Hcl, drop_app_length. by rewrite <- app_assoc.
  - apply Forall_app. split.
    + by apply (Forall_not_write is_opening_event _ opening_not_write).
    + by apply (Forall_not_write is_crawl_event _ crawl_not_write).
  - done.
  - by apply filter_complete_ok.
Qed.

Lemma scrape_writes_the_stash_once_witness :
  let s := on_portal Portal.two_pages in
  let s' := (scrape Portal.plain 5 s).2 in
  exists pre,
    new_events s s' =
      pre ++ [Logged INFO (MsgWriting (length (stash s')) "contracts.jsonl");
              Called (WriteLines "contracts.jsonl" (stash s')) (Ok tt);
              Called CloseContext (Ok tt); Called CloseBrowser (Ok tt)]
    /\ Forall (fun ev => is_write_event ev = false) pre
    /\ stash s' = stash s ++ List.filter complete (outcomes pre)
    /\ Forall (fun d => complete d = true /\ tokens_ok d = true)
         (List.filter complete (outcomes pre)).
Proof.
  apply (scrape_writes_the_stash_once Portal.portal Portal.plain 5
           (on_portal Portal.two_pages)).
  vm_compute. reflexivity.
Defined.

(** X16: a run in which a detail fetch failed writes nothing: the failure is
    the outcome of [scrape], and the output file was not written, before or
    after. *)
Theorem failed_fetch_leaves_nothing_written (D : driver)
    (get_text : string -> string) (fuel : nat) (w : world D)
    (h : string) (e : exn) :
  let s' := (scrape get_text fuel (initial w)).2 in
  FetchReturn h (Raise e) ∈ trace s' ->
  (scrape get_text fuel (initial w)).1 = Raise e
  /\ Forall (fun ev => is_write_event ev = false) (trace s').
Proof.
  intros s' Hin. unfold s' in *. split.
  { by destruct (scrape_failure_is_final get_text fuel (initial w)
                   (initial_no_failed_fetch w) h e Hin) as [-> _]. }
  destruct (scrape_run get_text fuel (initial w))
    as (opening & crawled & closing & Ht & HPo & HPc & _ & _ & _ & _ & Hc).
  cbn [initial trace app] in Ht. rewrite Ht in Hin |- *.
  destruct closing as [|ev closing].
  - rewrite app_nil_r. apply Forall_app. split.
    + by apply (Forall_not_write is_opening_event _ opening_not_write).
    + by apply (Forall_not_write is_crawl_event _ crawl_not_write).
  - destruct Hc as [Hends Hclean]. exfalso.
    specialize (Hclean (initial_no_failed_fetch w)).
    cbn [initial trace app] in Hclean.
    rewrite app_assoc in Hin. apply elem_of_app in Hin as [Hin|Hin].
    + by apply Hclean in Hin.
    + eapply plain_not_fetch_return; [|exact Hin].
      eapply closing_is_plain. exact Hends.
Qed.

Lemma failed_fetch_leaves_nothing_written_witness :
  let run := scrape Portal.plain 5 (on_portal Portal.second_row_broken) in
  run.1 = Raise Error
  /\ Forall (fun ev => is_write_event ev = false) (trace run.2).
Proof.
  apply (failed_fetch_leaves_nothing_written Portal.portal Portal.plain 5
           Portal.second_row_broken (Portal.href "2") Error).
  mem_compute.
Defined.

(** X17: at the end of every run of [scrape], however it ends, the visited
    set is exactly the set of tokens handed to the detail fetcher during the
    run, with one element per fetch; and the stash never holds more records
    than there are visited tokens. *)
Theorem visited_is_what_was_fetched (D : driver)
    (get_text : string -> string) (fuel : nat) (w : world D) :
  let s' := (scrape get_text fuel (initial w)).2 in
  visited s' = list_to_set (fetched (trace s'))
  /\ size (visited s') = length (fetched (trace s'))
  /\ (length (stash s') <= size (visited s'))%nat.
Proof.
  intros s'. unfold s'.
  destruct (scrape_run get_text fuel (initial w))
    as (opening & crawled & closing & Ht & HPo & HPc & Hv & Hs & _ & Hlen & Hc).
  pose proof (scrape_fetched_once get_text fuel (initial w)
                (initial_fetched_once w)) as [Hnd _].
  assert (Hf : fetched (trace (scrape get_text fuel (initial w)).2) =
               fetched crawled).
  { rewrite Ht. cbn [initial trace app].
    rewrite !fetched_app, (fetched_plain opening), (fetched_plain closing).
    - by rewrite app_nil_r.
    - destruct closing as [|ev closing]; [constructor|].
      destruct Hc as [Hends _]. eapply closing_is_plain. exact Hends.
    - eapply Forall_impl; [exact HPo | apply opening_is_plain]. }
  assert (Hvis : visited (scrape get_text fuel (initial w)).2 =
                 list_to_set (fetched crawled)).
  { rewrite Hv. cbn [initial visited]. set_tac. }
  rewrite Hf in *. rewrite Hvis. split; [done|].
  rewrite size_list_to_set by done. split; [done|].
  rewrite Hs. cbn [initial stash app].
  etrans; [apply List.filter_length_le|]. done.
Qed.
